(** * ICPC scoreboard engine: a shallow embedding of [src/main.cpp]

    The development follows the source file top to bottom: the data
    structures ([Submission], [ProblemStatus], [Team], [ICPCSystem]), the
    private helpers ([compareTeams], [flushScoreboard], [printScoreboard]),
    the public operations and the command loop of [main].

    Modelling conventions.
    - [int] is modelled by [Z].  The counters ([wrongAttempts],
      [frozenSubmissions], [cachedSolved], ranks) count stored submissions,
      problems or teams and stay far inside the range of [int]; arithmetic
      on them is exact.  The penalty adds up times read from the input and
      can leave that range: [cachedPenalty] is computed in 32-bit two's
      complement arithmetic ([wrapInt]), which is what the compiled program
      does on signed overflow.
    - [char] is modelled by [ascii]; comparisons on [char] go through
      [charVal], the value of a signed 8-bit [char] (the x86-64 ABI).
    - [std::map] is modelled by stdpp's [gmap].  Ordered traversal of a
      [map<char, _>] is written out by [problemsInOrder]; ordered traversal
      of the keys of a [map<string, _>] by [teamNames].  [operator[]] on a
      [map<char, ProblemStatus>] inserts a value-initialised entry when the
      key is missing ([problemAt]).
    - [Team*] pointers are modelled by the key under which the team is
      stored in [teams]: the store is shared, so two names that are equal
      alias the same object.  [teams[n]] for an unregistered [n] yields a
      null pointer, which the source dereferences right away; the model
      stops with [Undefined NullDeref] at the lookup.  (The one lookup the
      source might not dereference, in the search of [scroll] when there
      is no problem, is made on the scoreboard [flushScoreboard] has just
      rebuilt from the keys of [teams], where it cannot fail.)
    - [cout] is modelled by the list of lines an operation prints. *)

From Stdlib Require Import ZArith Ascii String DecimalString.
From stdpp Require Import gmap strings list fin_maps sorting.

Local Open Scope string_scope.
Local Open Scope list_scope.
Local Open Scope Z_scope.

(** ** Data structures *)

Record Submission := mkSubmission {
  problem : string;
  status : string;
  time : Z
}.

Record ProblemStatus := mkProblemStatus {
  solved : bool;
  solveTime : Z;
  wrongAttempts : Z;
  frozenSubmissions : Z;
  submissions : list Submission;
  frozenSubs : list Submission
}.

(** [ProblemStatus()], the value-initialised aggregate. *)
Definition newProblemStatus : ProblemStatus :=
  mkProblemStatus false 0 0 0 [] [].

#[global] Instance ProblemStatus_inhabited : Inhabited ProblemStatus :=
  populate newProblemStatus.

Record Team := mkTeam {
  name : string;
  problems : gmap ascii ProblemStatus;
  cachedSolved : Z;
  cachedPenalty : Z;
  cachedTimes : list Z;
  cacheValid : bool
}.

(** [Team(string n)] *)
Definition newTeam (n : string) : Team := mkTeam n ∅ (-1) (-1) [] false.

Record ICPCSystem := mkSystem {
  teams : gmap string Team;
  started : bool;
  frozen : bool;
  freezeTime : Z;
  durationTime : Z;
  problemCount : Z;
  ranking : list string
}.

Definition initialSystem : ICPCSystem := mkSystem ∅ false false (-1) 0 0 [].

(** Field updates. *)
Definition setProblems (t : Team) (m : gmap ascii ProblemStatus) : Team :=
  mkTeam (name t) m (cachedSolved t) (cachedPenalty t) (cachedTimes t) (cacheValid t).

Definition setTeams (s : ICPCSystem) (m : gmap string Team) : ICPCSystem :=
  mkSystem m (started s) (frozen s) (freezeTime s) (durationTime s) (problemCount s) (ranking s).

Definition setRanking (s : ICPCSystem) (r : list string) : ICPCSystem :=
  mkSystem (teams s) (started s) (frozen s) (freezeTime s) (durationTime s) (problemCount s) r.

Definition setFrozen (s : ICPCSystem) (b : bool) : ICPCSystem :=
  mkSystem (teams s) (started s) b (freezeTime s) (durationTime s) (problemCount s) (ranking s).

(** ** Characters *)

(** The value of a [char] (signed, 8 bits). *)
Definition charVal (c : ascii) : Z :=
  let n := Z.of_N (N_of_ascii c) in if 128 <=? n then n - 256 else n.

(** Conversion of an [int] to [char]: reduction modulo 256. *)
Definition charOfInt (z : Z) : ascii := ascii_of_N (Z.to_N (z mod 256)).

(** [std::min] on [char]: [(b < a) ? b : a]. *)
Definition charMin (a b : ascii) : ascii :=
  if charVal b <? charVal a then b else a.

(** All characters in increasing [char] order: the traversal order of a
    [map<char, _>]. *)
Definition charsInOrder : list ascii :=
  (λ n, ascii_of_nat n) <$> (seq 128 128 ++ seq 0 128).

Definition problemsInOrder (m : gmap ascii ProblemStatus) : list (ascii * ProblemStatus) :=
  omap (λ c, (λ ps, (c, ps)) <$> m !! c) charsInOrder.

Arguments charsInOrder : simpl never.
Arguments problemsInOrder : simpl never.

(** [m[c]] on a [map<char, ProblemStatus>]: the entry, and the map with the
    entry materialised. *)
Definition problemAt (c : ascii) (t : Team) : ProblemStatus * Team :=
  let ps := problems t !!! c in (ps, setProblems t (<[c := ps]> (problems t))).

(** [problem[0]]; on an empty [std::string] this is the terminating NUL. *)
Definition firstChar (p : string) : ascii :=
  match p with
  | EmptyString => "000"%char
  | String c _ => c
  end.

(** [std::to_string(int)] and [operator<<(int)]. *)
Definition to_string (z : Z) : string := NilZero.string_of_int (Z.to_int z).

(** ** Sorting

    [std::sort] is a library routine; it is modelled by insertion sort.  For
    a comparator that is a strict total order the sorted sequence is the
    same for any algorithm. *)

Section isort.
Context {A : Type} (lt : A → A → bool).

Fixpoint insertSorted (x : A) (l : list A) : list A :=
  match l with
  | [] => [x]
  | y :: r => if lt y x then y :: insertSorted x r else x :: y :: r
  end.

Fixpoint isort (l : list A) : list A :=
  match l with
  | [] => []
  | x :: r => insertSorted x (isort r)
  end.

End isort.

(** [sort(v.rbegin(), v.rend())]: descending order. *)
Definition sortDescending (l : list Z) : list Z := isort (λ a b, b <? a) l.

(** [sort(v.begin(), v.end())] on strings. *)
Definition sortStrings (l : list string) : list string := isort String.ltb l.

(** The keys of [teams] in traversal order. *)
Definition teamNames (m : gmap string Team) : list string :=
  sortStrings (map_to_list m).*1.

(** ** Team: the memoised ranking metrics *)

Definition invalidateCache (t : Team) : Team :=
  mkTeam (name t) (problems t) (cachedSolved t) (cachedPenalty t) (cachedTimes t) false.

(** The value of an [int] expression whose exact value is [z]: [z] reduced
    modulo 2^32 into the range [-2^31 .. 2^31 - 1]. *)
Definition wrapInt (z : Z) : Z := (z + 2147483648) mod 4294967296 - 2147483648.

(** The body of the loop of [updateCache], on the accumulator
    (cachedSolved, cachedPenalty, cachedTimes).  The penalty is
    [cachedPenalty += p.second.solveTime + 20 * p.second.wrongAttempts],
    each operation on [int]. *)
Definition cacheStep (acc : Z * Z * list Z) (p : ascii * ProblemStatus) : Z * Z * list Z :=
  let '(cs, cp, ct) := acc in
  if solved p.2
  then (cs + 1,
        wrapInt (cp + wrapInt (solveTime p.2 + wrapInt (20 * wrongAttempts p.2))),
        ct ++ [solveTime p.2])
  else acc.

Definition updateCache (t : Team) : Team :=
  if cacheValid t then t
  else
    let '(cs, cp, ct) := foldl cacheStep (0, 0, []) (problemsInOrder (problems t)) in
    mkTeam (name t) (problems t) cs cp (sortDescending ct) true.

Definition getSolvedCount (t : Team) : Z * Team :=
  let t' := updateCache t in (cachedSolved t', t').

Definition getPenaltyTime (t : Team) : Z * Team :=
  let t' := updateCache t in (cachedPenalty t', t').

Definition getSolveTimes (t : Team) : list Z * Team :=
  let t' := updateCache t in (cachedTimes t', t').

(** ** The state monad of the engine *)

(** Why a run stops without returning: a null pointer is dereferenced, a
    vector is indexed past its end, an exception that nothing catches is
    thrown (the program is terminated), or the fuel of a bounded loop of
    the model runs out. *)
Inductive Fault := NullDeref | OutOfRange | Uncaught | OutOfFuel.

Inductive Result (A : Type) :=
  | Ok (a : A)
  | Undefined (f : Fault).
Arguments Ok {A} a.
Arguments Undefined {A} f.

Definition M (A : Type) : Type := ICPCSystem → Result (A * ICPCSystem).

Definition ret {A} (a : A) : M A := λ s, Ok (a, s).

Definition bind {A B} (m : M A) (k : A → M B) : M B :=
  λ s, match m s with
       | Ok (a, s') => k a s'
       | Undefined f => Undefined f
       end.

Notation "x <- m ;; k" := (bind m (λ x, k))
  (at level 100, m at next level, right associativity, only parsing).

Definition get : M ICPCSystem := λ s, Ok (s, s).
Definition fail {A} (f : Fault) : M A := λ _, Undefined f.

(** [teams[n]->f()]: a method call through the pointer stored under [n]. *)
Definition onTeam {A} (n : string) (f : Team → A * Team) : M A :=
  λ s, match teams s !! n with
       | None => Undefined NullDeref
       | Some t => let (a, t') := f t in Ok (a, setTeams s (<[n := t']> (teams s)))
       end.

(** [v[i]] on the [ranking] vector. *)
Definition rankingAt (i : nat) : M string :=
  λ s, match ranking s !! i with
       | Some n => Ok (n, s)
       | None => Undefined OutOfRange
       end.

Definition modify (f : ICPCSystem → ICPCSystem) : M unit := λ s, Ok (tt, f s).

(** A [for] loop over a sequence whose body prints lines. *)
Fixpoint forEach {A} (body : A → M (list string)) (l : list A) : M (list string) :=
  match l with
  | [] => ret []
  | x :: r => out <- body x ;; rest <- forEach body r ;; ret (out ++ rest)
  end.

(** The values taken by [i] in [for (int i = 0; i < n; i++)]. *)
Definition indices (n : Z) : list Z := Z.of_nat <$> seq 0 (Z.to_nat n).

(** The letter of the [j]-th contest problem, ['A' + j] converted to [char]. *)
Definition problemLetter (j : Z) : ascii := charOfInt (65 + j).

(** The search loop used for ranks: the index of the first occurrence. *)
Fixpoint indexOf (x : string) (l : list string) : option nat :=
  match l with
  | [] => None
  | y :: r => if String.eqb y x then Some O else S <$> indexOf x r
  end.

(** ** ICPCSystem: private helpers *)

(** The loop of [compareTeams] over the common prefix of the two solve-time
    vectors: [Some b] when it returns [b], [None] when it falls through. *)
Fixpoint compareTimes (times1 times2 : list Z) : option bool :=
  match times1, times2 with
  | x :: r1, y :: r2 => if negb (x =? y) then Some (x <? y) else compareTimes r1 r2
  | _, _ => None
  end.

Definition compareTeams (t1Name t2Name : string) : M bool :=
  solved1 <- onTeam t1Name getSolvedCount ;;
  solved2 <- onTeam t2Name getSolvedCount ;;
  if negb (solved1 =? solved2) then ret (solved2 <? solved1) else
  penalty1 <- onTeam t1Name getPenaltyTime ;;
  penalty2 <- onTeam t2Name getPenaltyTime ;;
  if negb (penalty1 =? penalty2) then ret (penalty1 <? penalty2) else
  times1 <- onTeam t1Name getSolveTimes ;;
  times2 <- onTeam t2Name getSolveTimes ;;
  match compareTimes times1 times2 with
  | Some b => ret b
  | None => ret (String.ltb t1Name t2Name)
  end.

(** [std::sort(ranking.begin(), ranking.end(), compareTeams)]: insertion
    sort, threading the caches that the comparator fills in. *)
Fixpoint insertRanked (x : string) (l : list string) : M (list string) :=
  match l with
  | [] => ret [x]
  | y :: r =>
      before <- compareTeams y x ;;
      if before then r' <- insertRanked x r ;; ret (y :: r')
      else ret (x :: y :: r)
  end.

Fixpoint sortRanked (l : list string) : M (list string) :=
  match l with
  | [] => ret []
  | x :: r => r' <- sortRanked r ;; insertRanked x r'
  end.

Definition flushScoreboard : M unit :=
  _ <- modify (λ s, setRanking s (teamNames (teams s))) ;;
  s <- get ;;
  sorted <- sortRanked (ranking s) ;;
  modify (λ s, setRanking s sorted).

Definition getProblemDisplay (ps : ProblemStatus) (isFrozen : bool) : string :=
  if isFrozen then
    if wrongAttempts ps =? 0 then "0/" +:+ to_string (frozenSubmissions ps)
    else "-" +:+ to_string (wrongAttempts ps) +:+ "/" +:+ to_string (frozenSubmissions ps)
  else if solved ps then
    if wrongAttempts ps =? 0 then "+" else "+" +:+ to_string (wrongAttempts ps)
  else
    if wrongAttempts ps =? 0 then "." else "-" +:+ to_string (wrongAttempts ps).

(** One cell of a scoreboard row: the body of the inner loop of
    [printScoreboard]. *)
Definition printCell (isFrozenBoard : bool) (i : Z) (t : Team) : string * Team :=
  let prob := problemLetter i in
  let (ps, t') := problemAt prob t in
  let isFrozen := isFrozenBoard && negb (solved ps) && (0 <? frozenSubmissions ps) in
  (" " +:+ getProblemDisplay ps isFrozen, t').

Fixpoint printCells (teamName : string) (js : list Z) : M string :=
  match js with
  | [] => ret ""
  | j :: r =>
      s <- get ;;
      cell <- onTeam teamName (printCell (frozen s) j) ;;
      rest <- printCells teamName r ;;
      ret (cell +:+ rest)
  end.

Definition printRow (teamName : string) : M (list string) :=
  s <- get ;;
  let rank := match indexOf teamName (ranking s) with
              | Some i => Z.of_nat i + 1
              | None => 0
              end in
  solvedCount <- onTeam teamName getSolvedCount ;;
  penalty <- onTeam teamName getPenaltyTime ;;
  cells <- printCells teamName (indices (problemCount s)) ;;
  ret [teamName +:+ " " +:+ to_string rank +:+ " " +:+ to_string solvedCount
       +:+ " " +:+ to_string penalty +:+ cells].

Definition printScoreboard : M (list string) :=
  s <- get ;;
  forEach printRow (ranking s).

(** ** ICPCSystem: public operations *)

Definition addTeam (teamName : string) : M (list string) :=
  s <- get ;;
  if started s then ret ["[Error]Add failed: competition has started."]
  else match teams s !! teamName with
       | Some _ => ret ["[Error]Add failed: duplicated team name."]
       | None =>
           _ <- modify (λ s, setTeams s (<[teamName := newTeam teamName]> (teams s))) ;;
           _ <- modify (λ s, setRanking s (sortStrings (ranking s ++ [teamName]))) ;;
           ret ["[Info]Add successfully."]
       end.

(** The inner loop of [startCompetition] on one team. *)
Definition resetProblems (count : Z) (t : Team) : Team :=
  foldl (λ t i, setProblems t (<[problemLetter i := newProblemStatus]> (problems t)))
        t (indices count).

Definition startCompetition (duration count : Z) : M (list string) :=
  s <- get ;;
  if started s then ret ["[Error]Start failed: competition has started."]
  else
    _ <- modify (λ s, mkSystem (resetProblems count <$> teams s) true (frozen s)
                               (freezeTime s) duration count (ranking s)) ;;
    ret ["[Info]Competition starts."].

(** The body of [submit] on the team and problem status it addresses.
    The submission is pushed onto [submissions] first, in every state. *)
Definition recordSubmission (isFrozen : bool) (sub : Submission) (team : Team) : unit * Team :=
  let prob := firstChar (problem sub) in
  let ps := problems team !!! prob in
  let subs := submissions ps ++ [sub] in
  if isFrozen && negb (solved ps) then
    (tt, setProblems team
           (<[prob := mkProblemStatus (solved ps) (solveTime ps) (wrongAttempts ps)
                        (frozenSubmissions ps + 1) subs (frozenSubs ps ++ [sub])]>
              (problems team)))
  else if negb (solved ps) then
    if String.eqb (status sub) "Accepted" then
      (tt, invalidateCache (setProblems team
           (<[prob := mkProblemStatus true (time sub) (wrongAttempts ps)
                        (frozenSubmissions ps) subs (frozenSubs ps)]>
              (problems team))))
    else
      (tt, invalidateCache (setProblems team
           (<[prob := mkProblemStatus (solved ps) (solveTime ps) (wrongAttempts ps + 1)
                        (frozenSubmissions ps) subs (frozenSubs ps)]>
              (problems team))))
  else
    (tt, setProblems team
           (<[prob := mkProblemStatus (solved ps) (solveTime ps) (wrongAttempts ps)
                        (frozenSubmissions ps) subs (frozenSubs ps)]>
              (problems team))).

Definition submit (problemName teamName statusName : string) (at_ : Z) : M (list string) :=
  s <- get ;;
  _ <- onTeam teamName (recordSubmission (frozen s) (mkSubmission problemName statusName at_)) ;;
  ret [].

Definition flush : M (list string) :=
  _ <- flushScoreboard ;;
  ret ["[Info]Flush scoreboard."].

Definition freeze : M (list string) :=
  s <- get ;;
  if frozen s then ret ["[Error]Freeze failed: scoreboard has been frozen."]
  else
    _ <- modify (λ s, setFrozen s true) ;;
    ret ["[Info]Freeze scoreboard."].

(** *** scroll *)

(** The inner [for] loop of the search, on one team: the smallest contest
    letter whose [frozenSubmissions] is positive, or ['Z' + 1]. *)
Definition scanStep (acc : ascii * Team) (j : Z) : ascii * Team :=
  let (smallestFrozen, t) := acc in
  let prob := problemLetter j in
  let (ps, t') := problemAt prob t in
  (if 0 <? frozenSubmissions ps then charMin smallestFrozen prob else smallestFrozen, t').

Definition scanTeam (count : Z) (t : Team) : ascii * Team :=
  foldl scanStep (charOfInt 91, t) (indices count).

(** The outer [for] loop of the search; [names] is the scoreboard read from
    its last position to its first. *)
Fixpoint findFrozen (names : list string) : M (option (string * ascii)) :=
  match names with
  | [] => ret None
  | n :: rest =>
      s <- get ;;
      smallestFrozen <- onTeam n (scanTeam (problemCount s)) ;;
      if charVal smallestFrozen <=? charVal "Z"
      then ret (Some (n, smallestFrozen))
      else findFrozen rest
  end.

(** The search at the head of a pass of the scroll loop, on the scoreboard
    as it is when the pass starts. *)
Definition selectTarget : M (option (string * ascii)) :=
  s <- get ;;
  findFrozen (reverse (ranking s)).

(** The replay loop over [ps.frozenSubs]; the accumulator is ([ps], [changed]). *)
Definition replayStep (acc : ProblemStatus * bool) (sub : Submission) : ProblemStatus * bool :=
  let (ps, changed) := acc in
  if negb (solved ps) then
    if String.eqb (status sub) "Accepted" then
      (mkProblemStatus true (time sub) (wrongAttempts ps) (frozenSubmissions ps)
                       (submissions ps) (frozenSubs ps), true)
    else
      (mkProblemStatus (solved ps) (solveTime ps) (wrongAttempts ps + 1) (frozenSubmissions ps)
                       (submissions ps) (frozenSubs ps), changed)
  else acc.

(** Replay, then [ps.frozenSubmissions = 0; ps.frozenSubs.clear()]. *)
Definition resolveProblem (ps : ProblemStatus) : ProblemStatus * bool :=
  let (ps', changed) := foldl replayStep (ps, false) (frozenSubs ps) in
  (mkProblemStatus (solved ps') (solveTime ps') (wrongAttempts ps') 0 (submissions ps') [],
   changed).

Definition resolveAt (targetProblem : ascii) (team : Team) : bool * Team :=
  let (ps, team') := problemAt targetProblem team in
  let (ps', changed) := resolveProblem ps in
  (changed, setProblems team' (<[targetProblem := ps']> (problems team'))).

(** [while (newRank > 0 && compareTeams(targetTeam, ranking[newRank - 1])) newRank--;] *)
Fixpoint findNewRank (targetTeam : string) (newRank : nat) : M nat :=
  match newRank with
  | O => ret O
  | S k =>
      above <- rankingAt k ;;
      better <- compareTeams targetTeam above ;;
      if better then findNewRank targetTeam k else ret (S k)
  end.

(** [v.erase(v.begin() + i)] and [v.insert(v.begin() + i, x)]. *)
Definition eraseAt (i : nat) (l : list string) : list string := take i l ++ drop (S i) l.
Definition insertAt (i : nat) (x : string) (l : list string) : list string :=
  take i l ++ x :: drop i l.

Definition rankChangeLine (team below : string) (solvedCount penalty : Z) : string :=
  team +:+ " " +:+ below +:+ " " +:+ to_string solvedCount +:+ " " +:+ to_string penalty.

(** One pass through the body of [while (true)]: [None] when the loop is
    left by [break], otherwise the lines printed by the pass. *)
Definition scrollStep : M (option (list string)) :=
  found <- selectTarget ;;
  match found with
  | None => ret None
  | Some (targetTeam, targetProblem) =>
      s <- get ;;
      let oldRank := default O (indexOf targetTeam (ranking s)) in
      changed <- onTeam targetTeam (resolveAt targetProblem) ;;
      if negb changed then ret (Some [])
      else
        _ <- onTeam targetTeam (λ t, (tt, invalidateCache t)) ;;
        newRank <- findNewRank targetTeam oldRank ;;
        if (newRank <? oldRank)%nat then
          _ <- modify (λ s, setRanking s (insertAt newRank targetTeam
                                            (eraseAt oldRank (ranking s)))) ;;
          below <- rankingAt (newRank + 1) ;;
          solvedCount <- onTeam targetTeam getSolvedCount ;;
          penalty <- onTeam targetTeam getPenaltyTime ;;
          ret (Some [rankChangeLine targetTeam below solvedCount penalty])
        else ret (Some [])
  end.

(** The [while (true)] loop, bounded by [fuel] passes: [None] when the fuel
    runs out before the loop is left. *)
Fixpoint scrollLoop (fuel : nat) : M (option (list string)) :=
  match fuel with
  | O => ret None
  | S fuel' =>
      pass <- scrollStep ;;
      match pass with
      | None => ret (Some [])
      | Some out =>
          rest <- scrollLoop fuel' ;;
          ret ((λ l, out ++ l) <$> rest)
      end
  end.

(** The number of problem statuses of one team with [frozenSubmissions > 0]
    (a letter without an entry counts as the value-initialised status), and
    the number of such (team, problem) pairs in the system. *)
Definition frozenProblems (t : Team) : nat :=
  length (filter (λ c, 0 < frozenSubmissions (problems t !!! c)) charsInOrder).

Definition frozenPairs (s : ICPCSystem) : nat :=
  map_fold (λ _ k n, (k + n)%nat) O (frozenProblems <$> teams s).

(** [scroll].  The loop is run with [frozenPairs + 1] passes of fuel, which
    is enough: [scroll_total] below shows that the [OutOfFuel] branch is
    never taken. *)
Definition scroll : M (list string) :=
  s <- get ;;
  if negb (frozen s) then ret ["[Error]Scroll failed: scoreboard has not been frozen."]
  else
    _ <- flushScoreboard ;;
    before <- printScoreboard ;;
    s <- get ;;
    changes <- scrollLoop (S (frozenPairs s)) ;;
    match changes with
    | None => fail OutOfFuel
    | Some lines =>
        _ <- modify (λ s, setFrozen s false) ;;
        after <- printScoreboard ;;
        ret ("[Info]Scroll scoreboard." :: before ++ lines ++ after)
    end.

(** *** Queries *)

Definition queryRanking (teamName : string) : M (list string) :=
  s <- get ;;
  match teams s !! teamName with
  | None => ret ["[Error]Query ranking failed: cannot find the team."]
  | Some _ =>
      let rank := match indexOf teamName (ranking s) with
                  | Some i => Z.of_nat i + 1
                  | None => 0
                  end in
      ret (["[Info]Complete query ranking."]
           ++ (if frozen s
               then ["[Warning]Scoreboard is frozen. The ranking may be inaccurate until it were scrolled."]
               else [])
           ++ [teamName +:+ " NOW AT RANKING " +:+ to_string rank])
  end.

(** The body of the inner loop of [querySubmission]; [lastMatch] is the
    pointer, [None] for [nullptr]. *)
Definition matchStep (problemFilter statusFilter : string)
    (lastMatch : option Submission) (sub : Submission) : option Submission :=
  let problemMatch := String.eqb problemFilter "ALL" || String.eqb (problem sub) problemFilter in
  let statusMatch := String.eqb statusFilter "ALL" || String.eqb (status sub) statusFilter in
  if problemMatch && statusMatch then
    match lastMatch with
    | None => Some sub
    | Some l => if time l <? time sub then Some sub else lastMatch
    end
  else lastMatch.

(** The two nested loops of [querySubmission]. *)
Definition findLastMatch (problemFilter statusFilter : string) (team : Team) : option Submission :=
  foldl (λ lastMatch p, foldl (matchStep problemFilter statusFilter) lastMatch (submissions p.2))
        None (problemsInOrder (problems team)).

Definition submissionLine (teamName : string) (sub : Submission) : string :=
  teamName +:+ " " +:+ problem sub +:+ " " +:+ status sub +:+ " " +:+ to_string (time sub).

Definition querySubmission (teamName problemFilter statusFilter : string) : M (list string) :=
  s <- get ;;
  match teams s !! teamName with
  | None => ret ["[Error]Query submission failed: cannot find the team."]
  | Some team =>
      ret ("[Info]Complete query submission." ::
           match findLastMatch problemFilter statusFilter team with
           | None => ["Cannot find any submission."]
           | Some sub => [submissionLine teamName sub]
           end)
  end.

Definition end_ : M (list string) := ret ["[Info]Competition ends."].

(** *** The filters of a QUERY_SUBMISSION line

    [main] cuts the two filters out of [rest], the part of the line that
    follows the team name and the next word, with [std::string::find] and
    [std::string::substr].  Positions are [size_t] values, 64 bits wide
    (the x86-64 ABI); [npos] is the largest of them, and arithmetic on them
    wraps around. *)

Definition npos : Z := 2 ^ 64 - 1.

Definition sizeT (z : Z) : Z := z mod 2 ^ 64.

(** The first position at which [pat] occurs in [l]. *)
Fixpoint findList (pat l : list ascii) : option nat :=
  if decide (take (length pat) l = pat) then Some O
  else match l with
       | [] => None
       | _ :: r => S <$> findList pat r
       end.

(** [s.find(pat)]: the first position at which [pat] occurs, or [npos]. *)
Definition find (pat s : string) : Z :=
  match findList (list_ascii_of_string pat) (list_ascii_of_string s) with
  | Some i => Z.of_nat i
  | None => npos
  end.

(** [s.substr(pos, len)]: throws [std::out_of_range] ([None]) when
    [pos > s.size()]; otherwise [len] is cut down to what is left of [s]. *)
Definition substr (pos len : Z) (s : string) : option string :=
  let size := Z.of_nat (String.length s) in
  if size <? pos then None
  else Some (string_of_list_ascii
               (take (Z.to_nat (Z.min len (size - pos)))
                     (drop (Z.to_nat pos) (list_ascii_of_string s)))).

(** The problem and status filters of the line; [None] when one of the two
    [substr] calls throws, which nothing in [main] catches. *)
Definition extractFilters (rest : string) : option (string * string) :=
  let problemPos := find "PROBLEM=" rest in
  let statusPos := find "STATUS=" rest in
  let andPos := find " AND " rest in
  match substr (sizeT (problemPos + 8)) (sizeT (andPos - sizeT (problemPos + 8))) rest with
  | None => None
  | Some problemFilter =>
      match substr (sizeT (statusPos + 7)) npos rest with
      | None => None
      | Some statusFilter => Some (problemFilter, statusFilter)
      end
  end.

(** The QUERY_SUBMISSION branch of [main]: the filters are cut out of
    [rest] and passed on.  When a [substr] call throws, the exception
    reaches no handler and the program is terminated. *)
Definition querySubmissionCommand (teamName rest : string) : M (list string) :=
  match extractFilters rest with
  | Some (problemFilter, statusFilter) => querySubmission teamName problemFilter statusFilter
  | None => fail Uncaught
  end.

(** ** The command loop of [main]

    Tokenising a line is not modelled: a command is the line once split
    into its fields.  For QUERY_SUBMISSION the fields are the team name
    and [rest], the part of the line after the word that follows the team
    name: [main] cuts the two filters out of it before the call.  A line
    whose first word is none of the commands is skipped. *)
Inductive Command :=
  | ADDTEAM (teamName : string)
  | START (duration count : Z)
  | SUBMIT (problemName teamName statusName : string) (at_ : Z)
  | FLUSH
  | FREEZE
  | SCROLL
  | QUERY_RANKING (teamName : string)
  | QUERY_SUBMISSION (teamName rest : string)
  | END
  | OTHER.

Definition execute (c : Command) : M (list string) :=
  match c with
  | ADDTEAM n => addTeam n
  | START d p => startCompetition d p
  | SUBMIT p t st a => submit p t st a
  | FLUSH => flush
  | FREEZE => freeze
  | SCROLL => scroll
  | QUERY_RANKING n => queryRanking n
  | QUERY_SUBMISSION n rest => querySubmissionCommand n rest
  | END => end_
  | OTHER => ret []
  end.

Fixpoint run (cmds : list Command) : M (list string) :=
  match cmds with
  | [] => ret []
  | END :: _ => end_
  | c :: rest => out <- execute c ;; more <- run rest ;; ret (out ++ more)
  end.

(** * Specification vocabulary

    Predicates, measures and sample inputs used to state the properties. *)

Definition isAccepted (sub : Submission) : Prop := status sub = "Accepted".

(** The filter test of [querySubmission]. *)
Definition matches (problemFilter statusFilter : string) (sub : Submission) : bool :=
  (String.eqb problemFilter "ALL" || String.eqb (problem sub) problemFilter)
  && (String.eqb statusFilter "ALL" || String.eqb (status sub) statusFilter).

(** Every submission recorded for a team, in the order in which
    [querySubmission] visits them. *)
Definition recorded (team : Team) : list Submission :=
  problemsInOrder (problems team) ≫= (λ p, submissions p.2).

(** The state reached by a command sequence from the initial system; the
    initial system itself when the run is undefined. *)
Definition stateAfter (cmds : list Command) : ICPCSystem :=
  match run cmds initialSystem with
  | Ok (_, s) => s
  | Undefined _ => initialSystem
  end.

Definition frozenSubmitTrace : list Command :=
  [ADDTEAM "a"; START 100 1; FREEZE; SUBMIT "A" "a" "Accepted" 7].

Definition tiedSubmitTrace : list Command :=
  [ADDTEAM "a"; START 100 1; SUBMIT "A" "a" "Wrong_Answer" 5; SUBMIT "A" "a" "Accepted" 5].

(** What the ranking reads from a team: the three getters, after
    [updateCache]. *)
Definition metricsOf (t : Team) : Z * Z * list Z :=
  let t' := updateCache t in (cachedSolved t', cachedPenalty t', cachedTimes t').

(** The decision of [compareTeams] as a function of what the getters return. *)
Definition ranksBefore (m1 : Z * Z * list Z) (n1 : string)
                       (m2 : Z * Z * list Z) (n2 : string) : bool :=
  let '(solved1, penalty1, times1) := m1 in
  let '(solved2, penalty2, times2) := m2 in
  if negb (solved1 =? solved2) then solved2 <? solved1 else
  if negb (penalty1 =? penalty2) then penalty1 <? penalty2 else
  match compareTimes times1 times2 with
  | Some b => b
  | None => String.ltb n1 n2
  end.

(** [updateCache] through the pointer stored under [n]. *)
Definition cacheTeam (n : string) (s : ICPCSystem) : ICPCSystem :=
  setTeams s (alter updateCache n (teams s)).

(** A valid cache holds as many solve times as its solved count: the shape
    [updateCache] gives it. *)
Definition cacheShaped (t : Team) : Prop :=
  cacheValid t = true → cachedSolved t = Z.of_nat (length (cachedTimes t)).

(** [a] is ranked before [b] by [compareTeams] in state [s]. *)
Definition before (s : ICPCSystem) (a b : string) : Prop :=
  ∃ s', compareTeams a b s = Ok (true, s').
(** The same shape on the values the getters return. *)
Definition shaped (m : Z * Z * list Z) : Prop := m.1.1 = Z.of_nat (length m.2).

#[global] Instance cacheShaped_dec t : Decision (cacheShaped t).
Proof. unfold cacheShaped. apply _. Defined.

(** Three teams tied on solved count and penalty, told apart by their solve
    times and names. *)
Definition tiedTeamsTrace : list Command :=
  [ADDTEAM "ann"; ADDTEAM "bob"; ADDTEAM "cyd"; START 300 3;
   SUBMIT "A" "ann" "Accepted" 10; SUBMIT "B" "ann" "Accepted" 50;
   SUBMIT "A" "bob" "Accepted" 20; SUBMIT "B" "bob" "Accepted" 40;
   SUBMIT "A" "cyd" "Accepted" 20; SUBMIT "C" "cyd" "Accepted" 40;
   FLUSH].

(** Two team records the engine cannot tell apart: the ranking reads the
    same metrics from both, and every problem status is the same.  They may
    differ in which caches are filled and in which value-initialised
    entries [operator[]] has materialised. *)
Definition teamEquiv (t t' : Team) : Prop :=
  metricsOf t = metricsOf t' ∧ ∀ c, problems t !!! c = problems t' !!! c.

(** The same for two systems: the same teams up to [teamEquiv] and the same
    contest state; the scoreboard sequence is not compared. *)
Record storeEquiv (s s' : ICPCSystem) : Prop := mkStoreEquiv {
  equiv_teams : ∀ n, option_Forall2 teamEquiv (teams s !! n) (teams s' !! n);
  equiv_started : started s' = started s;
  equiv_frozen : frozen s' = frozen s;
  equiv_count : problemCount s' = problemCount s
}.

(** Every name on the scoreboard is a registered team. *)
Definition registered (s : ICPCSystem) : Prop :=
  ∀ n, n ∈ ranking s → is_Some (teams s !! n).

(** An action that only fills caches and materialises entries, and leaves
    the scoreboard sequence alone. *)
Definition quiet {A} (m : M A) : Prop :=
  ∀ s a s', m s = Ok (a, s') → storeEquiv s s' ∧ ranking s' = ranking s.

(** Team [t] has a frozen attempt on the [j]-th contest problem, and on
    some contest problem. *)
Definition frozenAt (t : Team) (j : Z) : Prop :=
  0 < frozenSubmissions (problems t !!! problemLetter j).

Definition hasFrozen (count : Z) (t : Team) : Prop :=
  ∃ j, 0 ≤ j < count ∧ frozenAt t j.

#[global] Instance registered_dec s : Decision (registered s).
Proof.
  refine (cast_if (decide (Forall (λ n, is_Some (teams s !! n)) (ranking s))));
    unfold registered; by rewrite Forall_forall in *.
Defined.

(** Two teams with frozen submissions: [bob], ranked last, on problems C
    (rejected) and B (accepted); [ann], ranked first, on problem A. *)
Definition scrollTrace : list Command :=
  [ADDTEAM "ann"; ADDTEAM "bob"; START 300 3;
   SUBMIT "A" "ann" "Wrong_Answer" 5; SUBMIT "B" "ann" "Accepted" 30;
   SUBMIT "A" "bob" "Accepted" 60;
   FLUSH; FREEZE;
   SUBMIT "C" "bob" "Wrong_Answer" 200; SUBMIT "A" "ann" "Accepted" 210;
   SUBMIT "B" "bob" "Wrong_Answer" 220; SUBMIT "B" "bob" "Accepted" 230].

(** The metrics [updateCache] computes from the problem statuses when the
    cache is invalid. *)
Definition freshMetrics (t : Team) : Z * Z * list Z := metricsOf (invalidateCache t).

(** The problem statuses of [s'] are those of [s] transformed by [f], team
    by team and letter by letter; the contest state is the same. *)
Record viewsRelated (f : string → ascii → ProblemStatus → ProblemStatus)
    (s s' : ICPCSystem) : Prop := mkViewsRelated {
  views_teams : ∀ n, option_Forall2
                       (λ a b, ∀ c, problems b !!! c = f n c (problems a !!! c))
                       (teams s !! n) (teams s' !! n);
  views_started : started s' = started s;
  views_frozen : frozen s' = frozen s;
  views_count : problemCount s' = problemCount s
}.

(** The effect of a pass of the scroll loop that resolves problem [p] of
    team [t]: that one status is replayed, every other one is untouched. *)
Definition resolveOne (t : string) (p : ascii) (n : string) (c : ascii)
    (ps : ProblemStatus) : ProblemStatus :=
  if decide (n = t ∧ c = p) then (resolveProblem ps).1 else ps.

Definition resolvedAt (t : string) (p : ascii) (s s' : ICPCSystem) : Prop :=
  viewsRelated (resolveOne t p) s s'.

(** The scoreboard of [scrollTrace] once the search of the first pass has
    run. *)
Definition scrollTraceSelected : ICPCSystem :=
  match selectTarget (stateAfter scrollTrace) with
  | Ok (_, s1) => s1
  | Undefined _ => stateAfter scrollTrace
  end.

(** A problem status that was solved is still solved, with the same solve
    time and the same number of wrong attempts. *)
Definition keepsSolved (ps ps' : ProblemStatus) : Prop :=
  solved ps = true →
  solved ps' = true ∧ solveTime ps' = solveTime ps ∧ wrongAttempts ps' = wrongAttempts ps.

(** The same for every problem status of every team of a system. *)
Definition solvedKept (s s' : ICPCSystem) : Prop :=
  ∀ n tm c, teams s !! n = Some tm →
    ∃ tm', teams s' !! n = Some tm' ∧ keepsSolved (problems tm !!! c) (problems tm' !!! c).

(** The team record of [bob] in [scrollTrace]. *)
Definition scrollTraceTarget : Team :=
  default (newTeam "bob") (teams (stateAfter scrollTrace) !! "bob").

(** A contest in which team [ann] has solved problem A. *)
Definition solvedTrace : list Command :=
  [ADDTEAM "ann"; START 300 2; SUBMIT "A" "ann" "Wrong_Answer" 3; SUBMIT "A" "ann" "Accepted" 10].

Definition solvedTeam : Team :=
  default (newTeam "ann") (teams (stateAfter solvedTrace) !! "ann").

(** A submission that names a team nobody registered, followed by a query. *)
Definition ghostTrace : list Command :=
  [ADDTEAM "ann"; START 300 1; SUBMIT "A" "ghost" "Accepted" 1; QUERY_RANKING "ann"].

(** A problem solved before START, a scoreboard printed (which fills the
    cache), then START. *)
Definition staleTrace : list Command :=
  [ADDTEAM "ann"; SUBMIT "A" "ann" "Accepted" 5; FREEZE; SCROLL; START 300 1].

(** [P] holds of every registered team. *)
Definition everyTeam (P : Team → Prop) (s : ICPCSystem) : Prop :=
  map_Forall (λ _ t, P t) (teams s).

(** An action that keeps [P] true of every registered team. *)
Definition preserves (P : Team → Prop) {A} (m : M A) : Prop :=
  ∀ s a s', everyTeam P s → m s = Ok (a, s') → everyTeam P s'.

(** The two method calls [scroll] makes on the target team, taken
    together: the replay, then [invalidateCache] when the problem became
    solved. *)
Definition resolveAndInvalidate (p : ascii) (t : Team) : Team :=
  if (resolveAt p t).1 then invalidateCache (resolveAt p t).2 else (resolveAt p t).2.

(** A state the engine can be in: the result of running commands from the
    initial system. *)
Definition reachable (s : ICPCSystem) : Prop :=
  ∃ cmds out, run cmds initialSystem = Ok (out, s).

(** The cache of a team is not stale: the ranking reads what a
    recomputation from the problem statuses gives. *)
Definition coherent (t : Team) : Prop := metricsOf t = freshMetrics t.

(** What a problem status contributes to the ranking: nothing unless it is
    solved. *)
Definition scored (ps : ProblemStatus) : option (Z * Z) :=
  if solved ps then Some (solveTime ps, wrongAttempts ps) else None.

(** The letters of the solved problems of a team, the number of solved
    problems and the penalty as the glossary defines it: the sum over the
    solved problems of solve time plus 20 per wrong attempt. *)
Definition solvedLetters (t : Team) : list ascii :=
  filter (λ c, solved (problems t !!! c) = true) charsInOrder.

Definition solvedCountOf (t : Team) : Z := Z.of_nat (length (solvedLetters t)).

Definition penaltyOf (t : Team) : Z :=
  foldr Z.add 0
    ((λ c, solveTime (problems t !!! c) + 20 * wrongAttempts (problems t !!! c))
       <$> solvedLetters t).

(** The range of [int]. *)
Definition fitsInt (z : Z) : Prop := -2147483648 ≤ z < 2147483648.

(** No problem status of the team has been touched by a submission. *)
Definition pristineTeam (t : Team) : Prop := ∀ c, problems t !!! c = newProblemStatus.

Definition isStart (c : Command) : bool :=
  match c with START _ _ => true | _ => false end.

Definition isSubmit (c : Command) : bool :=
  match c with SUBMIT _ _ _ _ => true | _ => false end.

(** No submission is made before the START that takes effect. *)
Fixpoint submitsFollowStart (cmds : list Command) : bool :=
  match cmds with
  | [] => true
  | c :: rest =>
      if isStart c then true
      else if isSubmit c then forallb (λ c, negb (isStart c)) rest
      else submitsFollowStart rest
  end.

(** A letter the search of [scroll] can select: a contest letter not above
    ['Z']. *)
Definition selectable (count : Z) (c : ascii) : Prop :=
  ∃ j, 0 ≤ j < count ∧ c = problemLetter j ∧ charVal c ≤ charVal "Z".

(** Frozen attempts on a selectable letter are attempts on an unsolved
    problem, and there are some only while the scoreboard is frozen. *)
Definition frozenSound (s : ICPCSystem) : Prop :=
  ∀ n t c, teams s !! n = Some t → selectable (problemCount s) c →
    0 < frozenSubmissions (problems t !!! c) →
    solved (problems t !!! c) = false ∧ frozen s = true.

(** No frozen attempt is left on a selectable letter of a listed team. *)
Definition drained (s : ICPCSystem) : Prop :=
  ∀ n t c, n ∈ ranking s → teams s !! n = Some t → selectable (problemCount s) c →
    ¬ 0 < frozenSubmissions (problems t !!! c).

(** Every registered team is on the scoreboard. *)
Definition complete (s : ICPCSystem) : Prop :=
  ∀ n, is_Some (teams s !! n) → n ∈ ranking s.

(** The states the engine goes through: between commands, and inside
    [scroll] around [flushScoreboard], [printScoreboard] and each pass of
    the loop. *)
Inductive visited : ICPCSystem → Prop :=
  | visited_initial : visited initialSystem
  | visited_command c s out s' : visited s → execute c s = Ok (out, s') → visited s'
  | visited_flush s s' : visited s → flushScoreboard s = Ok (tt, s') → visited s'
  | visited_print s out s' : visited s → printScoreboard s = Ok (out, s') → visited s'
  | visited_pass s r s' : visited s → scrollStep s = Ok (r, s') → visited s'.

(** What a command sequence prints from the initial system; nothing when
    the run is undefined. *)
Definition outputAfter (cmds : list Command) : list string :=
  match run cmds initialSystem with
  | Ok (out, _) => out
  | Undefined _ => []
  end.

(** The tail of a well-formed line. *)
Definition queryTail (problemFilter statusFilter : string) : string :=
  " PROBLEM=" +:+ problemFilter +:+ " AND STATUS=" +:+ statusFilter.

(** [pat] occurs in [l] at position [i]. *)
Definition occursAt (pat l : list ascii) (i : nat) : Prop :=
  take (length pat) (drop i l) = pat.

(** The effect of [submit] on the problem status it addresses. *)
Definition recordOn (isFrozen : bool) (sub : Submission) (ps : ProblemStatus) : ProblemStatus :=
  let subs := submissions ps ++ [sub] in
  if isFrozen && negb (solved ps) then
    mkProblemStatus (solved ps) (solveTime ps) (wrongAttempts ps)
                    (frozenSubmissions ps + 1) subs (frozenSubs ps ++ [sub])
  else if negb (solved ps) then
    if String.eqb (status sub) "Accepted" then
      mkProblemStatus true (time sub) (wrongAttempts ps) (frozenSubmissions ps) subs (frozenSubs ps)
    else
      mkProblemStatus (solved ps) (solveTime ps) (wrongAttempts ps + 1)
                      (frozenSubmissions ps) subs (frozenSubs ps)
  else
    mkProblemStatus (solved ps) (solveTime ps) (wrongAttempts ps)
                    (frozenSubmissions ps) subs (frozenSubs ps).

(** [Q] holds of every problem status of a team, letter by letter; a letter
    without an entry stands for the value-initialised status. *)
Definition everyStatus (Q : ascii → ProblemStatus → Prop) (t : Team) : Prop :=
  ∀ c, Q c (problems t !!! c).

(** The counter of frozen submissions agrees with the list of them, and
    no counter is negative. *)
Definition tallied (c : ascii) (ps : ProblemStatus) : Prop :=
  frozenSubmissions ps = Z.of_nat (length (frozenSubs ps)) ∧ 0 ≤ wrongAttempts ps.

(** Every submission is kept under the first character of its problem
    name, and the frozen submissions are among the recorded ones, in the
    same order. *)
Definition filed (c : ascii) (ps : ProblemStatus) : Prop :=
  Forall (λ sub, firstChar (problem sub) = c) (submissions ps) ∧
  frozenSubs ps `sublist_of` submissions ps.

(** The scoreboard lists every registered team exactly once, and nobody
    else. *)
Definition listsTeams (s : ICPCSystem) : Prop := ranking s ≡ₚ teamNames (teams s).

(** [a] does not come after [b] in the order of [std::string]. *)
Definition nameLe (a b : string) : Prop := String.ltb b a = false.

(** The scoreboard is in the order of the comparator: every team is ranked
    before each team listed after it. *)
Definition ordered (s : ICPCSystem) : Prop := StronglySorted (before s) (ranking s).

#[global] Instance coherent_dec t : Decision (coherent t).
Proof. unfold coherent. apply _. Defined.

(** The solve times of the solved problems of a team, by increasing
    letter. *)
Definition solveTimesOf (t : Team) : list Z :=
  (λ c, solveTime (problems t !!! c)) <$> solvedLetters t.

(** A contest with one rejected and two accepted submissions, none of them
    before START. *)
Definition plainTrace : list Command :=
  [ADDTEAM "ann"; START 300 3; SUBMIT "B" "ann" "Wrong_Answer" 4;
   SUBMIT "B" "ann" "Accepted" 40; SUBMIT "A" "ann" "Accepted" 70].

Definition plainTeam : Team :=
  default (newTeam "ann") (teams (stateAfter plainTrace) !! "ann").

(** A run in which the penalty sum leaves the range of [int]. *)
Definition lateTrace : list Command :=
  [ADDTEAM "ann"; START 300 2;
   SUBMIT "A" "ann" "Accepted" 2000000000; SUBMIT "B" "ann" "Accepted" 2000000000].

Definition lateTeam : Team :=
  default (newTeam "ann") (teams (stateAfter lateTrace) !! "ann").

(** The commands that write the scoreboard sequence. *)
Definition writesScoreboard (c : Command) : bool :=
  match c with
  | ADDTEAM _ | FLUSH | SCROLL => true
  | _ => false
  end.

(** A line that reports a failure. *)
Definition isError (line : string) : bool := String.prefix "[Error]" line.

#[global] Instance Command_eq_dec : EqDecision Command.
Proof. solve_decision. Defined.

(** Every problem status of every team of [s] is related by [R] to the
    status of the same team and letter in [s']. *)
Definition statusesRelated (R : ascii → ProblemStatus → ProblemStatus → Prop)
    (s s' : ICPCSystem) : Prop :=
  ∀ n t, teams s !! n = Some t →
    ∃ t', teams s' !! n = Some t' ∧ ∀ c, R c (problems t !!! c) (problems t' !!! c).

(** What [scroll] keeps of a problem status: the recorded submissions of
    every letter, and everything under a letter it cannot select. *)
Definition keptByScroll (count : Z) (c : ascii) (ps ps' : ProblemStatus) : Prop :=
  submissions ps' = submissions ps ∧ (¬ selectable count c → ps' = ps).

(** A frozen submission to a letter outside the contest: with one problem,
    [B] is no contest letter. *)
Definition strayTrace : list Command :=
  [ADDTEAM "ann"; START 300 1; FREEZE;
   SUBMIT "B" "ann" "Accepted" 9; SUBMIT "A" "ann" "Accepted" 12].

Definition strayTeam : Team :=
  default (newTeam "ann") (teams (stateAfter strayTrace) !! "ann").

(** What [scroll] prints in a state; nothing when it is undefined. *)
Definition scrollOutput (s : ICPCSystem) : list string :=
  match scroll s with
  | Ok (out, _) => out
  | Undefined _ => []
  end.

(** The row [printScoreboard] prints for a team, read off the state: name,
    position counted from 1 (0 for a name that is not listed), solved
    count, penalty, and one cell per contest problem. *)
Definition cellOf (isFrozenBoard : bool) (ps : ProblemStatus) : string :=
  " " +:+ getProblemDisplay ps (isFrozenBoard && negb (solved ps) && (0 <? frozenSubmissions ps)).

Definition cellsOf (s : ICPCSystem) (t : Team) : string :=
  foldr (λ j rest, cellOf (frozen s) (problems t !!! problemLetter j) +:+ rest) ""
        (indices (problemCount s)).

Definition rankOf (s : ICPCSystem) (n : string) : Z :=
  match indexOf n (ranking s) with
  | Some i => Z.of_nat i + 1
  | None => 0
  end.

Definition rowOf (s : ICPCSystem) (n : string) (t : Team) : string :=
  n +:+ " " +:+ to_string (rankOf s n) +:+ " " +:+ to_string (metricsOf t).1.1
    +:+ " " +:+ to_string (metricsOf t).1.2 +:+ cellsOf s t.

Definition rowsOf (s : ICPCSystem) : list string :=
  omap (λ n, rowOf s n <$> teams s !! n) (ranking s).

#[global] Instance before_dec s a b : Decision (before s a b).
Proof.
  unfold before. destruct (compareTeams a b s) as [[[|] s']|f] eqn:H.
  - left. by exists s'.
  - right. intros [s0 H0]. congruence.
  - right. intros [s0 H0]. congruence.
Defined.





(** * Properties *)

(** ** The state monad *)

Lemma bind_Ok {A B} (m : M A) (k : A → M B) s b s' :
  bind m k s = Ok (b, s') ↔ ∃ a s1, m s = Ok (a, s1) ∧ k a s1 = Ok (b, s').
Proof.
  unfold bind. destruct (m s) as [[a s1]|f]; split.
  - eauto.
  - intros (? & ? & [= <- <-] & ?). done.
  - done.
  - intros (? & ? & [=] & _).
Qed.

(** *** The replay loop *)

Lemma replay_solved ps changed l :
  solved ps = true → foldl replayStep (ps, changed) l = (ps, changed).
Proof.
  intros Hs. induction l as [|x l IH]; [done|].
  cbn [foldl]. replace (replayStep (ps, changed) x) with (ps, changed); [done|].
  unfold replayStep. by rewrite Hs.
Qed.

Lemma replay_rejected ps changed l :
  solved ps = false →
  Forall (λ x, ¬ isAccepted x) l →
  foldl replayStep (ps, changed) l =
  (mkProblemStatus false (solveTime ps) (wrongAttempts ps + Z.of_nat (length l))
                   (frozenSubmissions ps) (submissions ps) (frozenSubs ps), changed).
Proof.
  intros Hs Hl. revert ps Hs. induction Hl as [|x l Hx _ IH]; intros ps Hs.
  - simpl. rewrite Z.add_0_r. destruct ps; simpl in *; by subst.
  - cbn [foldl].
    replace (replayStep (ps, changed) x) with
      (mkProblemStatus (solved ps) (solveTime ps) (wrongAttempts ps + 1) (frozenSubmissions ps)
                       (submissions ps) (frozenSubs ps), changed).
    + rewrite IH by done. cbn. do 2 f_equal. lia.
    + unfold replayStep. rewrite Hs. cbn [negb].
      by destruct (String.eqb_spec (status x) "Accepted").
Qed.

Lemma replay_accepted ps changed before sub after :
  solved ps = false →
  Forall (λ x, ¬ isAccepted x) before →
  isAccepted sub →
  foldl replayStep (ps, changed) (before ++ sub :: after) =
  (mkProblemStatus true (time sub) (wrongAttempts ps + Z.of_nat (length before))
                   (frozenSubmissions ps) (submissions ps) (frozenSubs ps), true).
Proof.
  intros Hs Hb Hsub. rewrite foldl_app, (replay_rejected _ _ _ Hs Hb).
  cbn [foldl]. unfold replayStep at 2. cbn [solved negb].
  unfold isAccepted in Hsub. rewrite Hsub. cbn [String.eqb Ascii.eqb Bool.eqb].
  by apply replay_solved.
Qed.

Lemma resolveProblem_accepted ps before sub after :
  solved ps = false →
  frozenSubs ps = before ++ sub :: after →
  Forall (λ x, ¬ isAccepted x) before → isAccepted sub →
  resolveProblem ps =
  (mkProblemStatus true (time sub) (wrongAttempts ps + Z.of_nat (length before)) 0
                   (submissions ps) [], true).
Proof.
  intros Hs Hl Hb Hsub. unfold resolveProblem.
  by rewrite Hl, (replay_accepted _ _ _ _ _ Hs Hb Hsub).
Qed.

Lemma resolveProblem_rejected ps :
  solved ps = false →
  Forall (λ x, ¬ isAccepted x) (frozenSubs ps) →
  resolveProblem ps =
  (mkProblemStatus false (solveTime ps)
                   (wrongAttempts ps + Z.of_nat (length (frozenSubs ps))) 0
                   (submissions ps) [], false).
Proof.
  intros Hs Hl. unfold resolveProblem. by rewrite (replay_rejected _ _ _ Hs Hl).
Qed.

Lemma resolveProblem_solved ps :
  solved ps = true →
  resolveProblem ps =
  (mkProblemStatus true (solveTime ps) (wrongAttempts ps) 0 (submissions ps) [], false).
Proof.
  intros Hs. unfold resolveProblem. rewrite (replay_solved _ _ _ Hs). by rewrite Hs.
Qed.

(** The replay on one problem status, in the three cases. *)
Lemma resolveProblem_spec (ps : ProblemStatus) :
  (frozenSubmissions (resolveProblem ps).1 = 0 ∧ frozenSubs (resolveProblem ps).1 = []) ∧
  (solved ps = false →
   ∀ before sub after,
     frozenSubs ps = before ++ sub :: after →
     Forall (λ x, ¬ isAccepted x) before → isAccepted sub →
     solved (resolveProblem ps).1 = true ∧
     solveTime (resolveProblem ps).1 = time sub ∧
     wrongAttempts (resolveProblem ps).1 = wrongAttempts ps + Z.of_nat (length before) ∧
     (resolveProblem ps).2 = true) ∧
  (solved ps = false →
   Forall (λ x, ¬ isAccepted x) (frozenSubs ps) →
   solved (resolveProblem ps).1 = false ∧
   solveTime (resolveProblem ps).1 = solveTime ps ∧
   wrongAttempts (resolveProblem ps).1 = wrongAttempts ps + Z.of_nat (length (frozenSubs ps)) ∧
   (resolveProblem ps).2 = false).
Proof.
  split; [|split].
  - unfold resolveProblem. by destruct (foldl _ _ _).
  - intros Hs before sub after Hl Hb Hsub.
    by rewrite (resolveProblem_accepted _ _ _ _ Hs Hl Hb Hsub).
  - intros Hs Hl. by rewrite (resolveProblem_rejected _ Hs Hl).
Qed.

(** ** Characters *)

Lemma elem_of_charsInOrder (c : ascii) : c ∈ charsInOrder.
Proof.
  unfold charsInOrder. apply list_elem_of_fmap. exists (nat_of_ascii c).
  split; [by rewrite ascii_nat_embedding|].
  pose proof (nat_ascii_bounded c). rewrite elem_of_app, !elem_of_seq. lia.
Qed.

Lemma NoDup_charsInOrder : NoDup charsInOrder.
Proof. apply (bool_decide_unpack (NoDup charsInOrder)). by vm_compute. Qed.

Lemma elem_of_problemsInOrder (m : gmap ascii ProblemStatus) c ps :
  (c, ps) ∈ problemsInOrder m ↔ m !! c = Some ps.
Proof.
  unfold problemsInOrder. rewrite list_elem_of_omap. split.
  - intros (c' & _ & H). destruct (m !! c') eqn:E; simplify_eq/=. done.
  - intros H. exists c. split; [apply elem_of_charsInOrder|]. by rewrite H.
Qed.

(** ** The submission query *)

Lemma matchStep_matches pf sf lastMatch sub :
  matchStep pf sf lastMatch sub =
  if matches pf sf sub then
    match lastMatch with
    | None => Some sub
    | Some l => if time l <? time sub then Some sub else lastMatch
    end
  else lastMatch.
Proof. reflexivity. Qed.

Lemma foldl_nested {A B C} (g : A → C → A) (f : B → list C) (a : A) (l : list B) :
  foldl (λ acc p, foldl g acc (f p)) a l = foldl g a (l ≫= f).
Proof.
  revert a. induction l as [|x l IH]; intros a; [done|].
  cbn [foldl]. rewrite bind_cons, foldl_app. apply IH.
Qed.

Lemma findLastMatch_recorded pf sf team :
  findLastMatch pf sf team = foldl (matchStep pf sf) None (recorded team).
Proof. unfold findLastMatch, recorded. apply foldl_nested. Qed.

(** The scan keeps the first of the matching submissions with the greatest
    time: whatever precedes it is strictly earlier, whatever follows is not
    later. *)
Lemma scan_first_greatest pf sf (l : list Submission) (lastMatch : option Submission) :
  match foldl (matchStep pf sf) lastMatch l with
  | None => lastMatch = None ∧ Forall (λ x, matches pf sf x = false) l
  | Some r =>
      (lastMatch = Some r ∧ Forall (λ x, matches pf sf x = true → time x ≤ time r) l)
      ∨ (∃ before after,
           l = before ++ r :: after ∧ matches pf sf r = true ∧
           (∀ a, lastMatch = Some a → time a < time r) ∧
           Forall (λ x, matches pf sf x = true → time x < time r) before ∧
           Forall (λ x, matches pf sf x = true → time x ≤ time r) after)
  end.
Proof.
  revert lastMatch. induction l as [|x l IH]; intros lastMatch.
  - cbn. destruct lastMatch; [left|]; eauto.
  - cbn [foldl]. specialize (IH (matchStep pf sf lastMatch x)).
    rewrite matchStep_matches in IH.
    destruct (foldl _ _ l) as [r|] eqn:Hr.
    + destruct (matches pf sf x) eqn:Hx.
      * destruct lastMatch as [a|].
        -- destruct (Z.ltb_spec (time a) (time x)) as [Hlt|Hge].
           ++ destruct IH as [[[= ->] Hall]|(before & after & -> & Hm & Hacc & Hb & Ha)].
              ** right. exists [], l. repeat split; try done.
                 intros ? [= ->]. done.
              ** right. exists (x :: before), after. repeat split; try done.
                 --- intros ? [= ->]. specialize (Hacc _ eq_refl). lia.
                 --- constructor; [|done]. intros _. by apply Hacc.
           ++ destruct IH as [[[= ->] Hall]|(before & after & -> & Hm & Hacc & Hb & Ha)].
              ** left. split; [done|]. constructor; [|done]. intros _; lia.
              ** right. exists (x :: before), after. repeat split; try done.
                 constructor; [|done]. intros _. specialize (Hacc _ eq_refl). lia.
        -- destruct IH as [[[= ->] Hall]|(before & after & -> & Hm & Hacc & Hb & Ha)].
           ++ right. exists [], l. repeat split; try done.
           ++ right. exists (x :: before), after. repeat split; try done.
              constructor; [|done]. intros _. by apply Hacc.
      * destruct IH as [[-> Hall]|(before & after & -> & Hm & Hacc & Hb & Ha)].
        -- left. split; [done|]. constructor; [|done]. congruence.
        -- right. exists (x :: before), after. repeat split; try done.
           constructor; [|done]. congruence.
    + destruct IH as [Hacc Hall]. destruct (matches pf sf x) eqn:Hx.
      * destruct lastMatch as [a|]; [|done]. by destruct (time a <? time x).
      * split; [done|]. by constructor.
Qed.

Lemma findLastMatch_first_greatest pf sf team r :
  findLastMatch pf sf team = Some r →
  ∃ before after,
    recorded team = before ++ r :: after ∧ matches pf sf r = true ∧
    Forall (λ x, matches pf sf x = true → time x < time r) before ∧
    Forall (λ x, matches pf sf x = true → time x ≤ time r) after.
Proof.
  rewrite findLastMatch_recorded. intros Hr.
  pose proof (scan_first_greatest pf sf (recorded team) None) as H. rewrite Hr in H.
  destruct H as [[[=] _]|(before & after & ? & ? & _ & ? & ?)]. eauto 10.
Qed.

Lemma findLastMatch_none pf sf team :
  findLastMatch pf sf team = None → Forall (λ x, matches pf sf x = false) (recorded team).
Proof.
  rewrite findLastMatch_recorded. intros Hr.
  pose proof (scan_first_greatest pf sf (recorded team) None) as H. rewrite Hr in H. tauto.
Qed.

Lemma elem_of_recorded team sub :
  sub ∈ recorded team ↔ ∃ c ps, problems team !! c = Some ps ∧ sub ∈ submissions ps.
Proof.
  unfold recorded. rewrite list_elem_of_bind. split.
  - intros ([c ps] & Hin & Hp). apply elem_of_problemsInOrder in Hp. eauto.
  - intros (c & ps & Hp & Hin). exists (c, ps). by rewrite elem_of_problemsInOrder.
Qed.

(** [submit] records the submission among the queried ones in every state,
    frozen or not. *)
Lemma recordSubmission_recorded isFrozen sub team :
  sub ∈ recorded (recordSubmission isFrozen sub team).2.
Proof.
  apply elem_of_recorded. exists (firstChar (problem sub)).
  unfold recordSubmission.
  repeat case_match; cbn; eexists; (split; [apply lookup_insert_eq|]); cbn;
    apply elem_of_app; right; apply list_elem_of_singleton; done.
Qed.

Lemma charsInOrder_increasing : StronglySorted (λ a b, (charVal a < charVal b)%Z) charsInOrder.
Proof.
  apply (bool_decide_unpack (StronglySorted (λ a b, (charVal a < charVal b)%Z) charsInOrder)).
  by vm_compute.
Qed.

Lemma querySubmission_found s n team pf sf :
  teams s !! n = Some team →
  querySubmission n pf sf s =
  Ok (["[Info]Complete query submission.";
       match findLastMatch pf sf team with
       | Some sub => submissionLine n sub
       | None => "Cannot find any submission."
       end], s).
Proof.
  intros Hn. unfold querySubmission, bind, get, ret. rewrite Hn. by destruct (findLastMatch _ _ _).
Qed.

(** C1 (as the code has it).  The submission query returns the matching
    submission with the greatest time among all the submissions recorded
    for the team, and reports that there is none when nothing matches.
    [submit] records a submission among the queried ones whether or not the
    scoreboard is frozen, so a frozen submission can be returned before
    [scroll] resolves it. *)
Theorem querySubmission_greatest_among_recorded s n team pf sf :
  teams s !! n = Some team →
  (∃ r, querySubmission n pf sf s =
        Ok (["[Info]Complete query submission.";
             match r with
             | Some sub => submissionLine n sub
             | None => "Cannot find any submission."
             end], s) ∧
        match r with
        | Some sub =>
            sub ∈ recorded team ∧ matches pf sf sub = true ∧
            ∀ x, x ∈ recorded team → matches pf sf x = true → time x ≤ time sub
        | None => ∀ x, x ∈ recorded team → matches pf sf x = false
        end) ∧
  (∀ isFrozen sub, sub ∈ recorded (recordSubmission isFrozen sub team).2).
Proof.
  intros Hn. split; [|intros; apply recordSubmission_recorded].
  exists (findLastMatch pf sf team). split; [by apply querySubmission_found|].
  destruct (findLastMatch pf sf team) as [sub|] eqn:Hr.
  - apply findLastMatch_first_greatest in Hr as (before & after & Hl & Hm & Hb & Ha).
    rewrite Hl. split; [|split; [done|]].
    + apply elem_of_app. right. by left.
    + intros x [Hx|[->|Hx]%elem_of_cons]%elem_of_app Hmx.
      * rewrite Forall_forall in Hb. specialize (Hb _ Hx Hmx). lia.
      * lia.
      * rewrite Forall_forall in Ha. by apply Ha.
  - apply findLastMatch_none in Hr. rewrite Forall_forall in Hr. done.
Qed.

Lemma querySubmission_greatest_among_recorded_witness :
  (∃ r, querySubmission "a" "ALL" "Accepted" (stateAfter frozenSubmitTrace) =
        Ok (["[Info]Complete query submission.";
             match r with
             | Some sub => submissionLine "a" sub
             | None => "Cannot find any submission."
             end], stateAfter frozenSubmitTrace) ∧
        match r with
        | Some sub =>
            sub ∈ recorded (default (newTeam "a") (teams (stateAfter frozenSubmitTrace) !! "a")) ∧
            matches "ALL" "Accepted" sub = true ∧
            ∀ x, x ∈ recorded (default (newTeam "a") (teams (stateAfter frozenSubmitTrace) !! "a")) →
                 matches "ALL" "Accepted" x = true → time x ≤ time sub
        | None => ∀ x, x ∈ recorded (default (newTeam "a") (teams (stateAfter frozenSubmitTrace) !! "a")) →
                       matches "ALL" "Accepted" x = false
        end) ∧
  (∀ isFrozen sub,
     sub ∈ recorded (recordSubmission isFrozen sub
                       (default (newTeam "a") (teams (stateAfter frozenSubmitTrace) !! "a"))).2).
Proof.
  apply (querySubmission_greatest_among_recorded (stateAfter frozenSubmitTrace) "a").
  vm_compute. reflexivity.
Defined.

(** C1 fails as stated: after FREEZE, a submission that is still in
    [frozenSubs] is what the query returns. *)
Lemma querySubmission_returns_frozen_submission :
  ∃ out s team ps sub,
    run frozenSubmitTrace initialSystem = Ok (out, s) ∧
    frozen s = true ∧
    teams s !! "a" = Some team ∧
    problems team !! "A"%char = Some ps ∧
    sub ∈ frozenSubs ps ∧ solved ps = false ∧
    querySubmission "a" "ALL" "ALL" s =
      Ok (["[Info]Complete query submission."; submissionLine "a" sub], s).
Proof.
  eexists _, _, _, _, (mkSubmission "A" "Accepted" 7).
  split; [vm_compute; reflexivity|].
  split; [reflexivity|]. split; [vm_compute; reflexivity|].
  split; [vm_compute; reflexivity|]. split; [by left|]. split; [reflexivity|].
  vm_compute. reflexivity.
Qed.

(** C9 (as the code has it).  Among the matching submissions with the
    greatest time the query returns the first one in traversal order
    (problems by increasing letter, then submission order): every matching
    submission before it is strictly earlier, none after it is later. *)
Theorem querySubmission_tie_first_recorded s n team pf sf sub :
  teams s !! n = Some team →
  findLastMatch pf sf team = Some sub →
  querySubmission n pf sf s =
    Ok (["[Info]Complete query submission."; submissionLine n sub], s) ∧
  ∃ before after,
    recorded team = before ++ sub :: after ∧ matches pf sf sub = true ∧
    Forall (λ x, matches pf sf x = true → time x < time sub) before ∧
    Forall (λ x, matches pf sf x = true → time x ≤ time sub) after.
Proof.
  intros Hn Hr. split.
  - rewrite (querySubmission_found _ _ _ _ _ Hn). by rewrite Hr.
  - by apply findLastMatch_first_greatest.
Qed.

Lemma querySubmission_tie_first_recorded_witness :
  querySubmission "a" "ALL" "ALL" (stateAfter tiedSubmitTrace) =
    Ok (["[Info]Complete query submission.";
         submissionLine "a" (mkSubmission "A" "Wrong_Answer" 5)], stateAfter tiedSubmitTrace) ∧
  ∃ before after,
    recorded (default (newTeam "a") (teams (stateAfter tiedSubmitTrace) !! "a")) =
      before ++ mkSubmission "A" "Wrong_Answer" 5 :: after ∧
    matches "ALL" "ALL" (mkSubmission "A" "Wrong_Answer" 5) = true ∧
    Forall (λ x, matches "ALL" "ALL" x = true → time x < 5) before ∧
    Forall (λ x, matches "ALL" "ALL" x = true → time x ≤ 5) after.
Proof.
  apply (querySubmission_tie_first_recorded (stateAfter tiedSubmitTrace) "a"
           (default (newTeam "a") (teams (stateAfter tiedSubmitTrace) !! "a"))).
  - vm_compute. reflexivity.
  - vm_compute. reflexivity.
Defined.

(** C9 fails as stated: of two matching submissions filed at the same
    time the query prints the one recorded first. *)
Lemma querySubmission_tie_returns_earlier :
  ∃ out s team,
    run tiedSubmitTrace initialSystem = Ok (out, s) ∧
    teams s !! "a" = Some team ∧
    recorded team = [mkSubmission "A" "Wrong_Answer" 5; mkSubmission "A" "Accepted" 5] ∧
    querySubmission "a" "ALL" "ALL" s =
      Ok (["[Info]Complete query submission."; "a A Wrong_Answer 5"], s).
Proof.
  eexists _, _, _.
  split; [vm_compute; reflexivity|]. split; [vm_compute; reflexivity|].
  split; vm_compute; reflexivity.
Qed.

(** ** Strings *)

Lemma ltb_leb (a b : string) : String.ltb a b = negb (String.leb b a).
Proof.
  unfold String.ltb, String.leb. rewrite (String.compare_antisym b a).
  by destruct (String.compare a b).
Qed.

Lemma ltb_irrefl (a : string) : String.ltb a a = false.
Proof.
  rewrite ltb_leb. apply negb_false_iff. apply Is_true_true.
  change (String.le a a). reflexivity.
Qed.

Lemma ltb_trans (a b c : string) :
  String.ltb a b = true → String.ltb b c = true → String.ltb a c = true.
Proof.
  rewrite !ltb_leb, !negb_true_iff. intros Hba Hcb.
  apply not_true_iff_false. intros Hca.
  destruct (total String.le a b) as [Hab|Hab]; unfold String.le in *.
  - apply not_true_iff_false in Hcb. apply Hcb. apply Is_true_true.
    change (String.le c b). transitivity a; [by apply Is_true_true|done].
  - apply Is_true_true in Hab. congruence.
Qed.

Lemma ltb_asym (a b : string) : String.ltb a b = true → String.ltb b a = false.
Proof.
  intros Hab. destruct (String.ltb b a) eqn:Hba; [|done].
  pose proof (ltb_trans _ _ _ Hab Hba) as H. by rewrite ltb_irrefl in H.
Qed.

Lemma ltb_total (a b : string) : a ≠ b → String.ltb a b = true ∨ String.ltb b a = true.
Proof.
  intros Hne. rewrite !ltb_leb, !negb_true_iff.
  destruct (String.leb a b) eqn:Hab; [|by right].
  destruct (String.leb b a) eqn:Hba; [|by left].
  destruct Hne. by apply String.leb_antisym.
Qed.

(** ** Sorting *)

Lemma insertSorted_Permutation {A} (lt : A → A → bool) x l :
  insertSorted lt x l ≡ₚ x :: l.
Proof.
  induction l as [|y l IH]; [done|]. cbn. destruct (lt y x); [|done].
  rewrite IH. apply Permutation_swap.
Qed.

Lemma isort_Permutation {A} (lt : A → A → bool) l : isort lt l ≡ₚ l.
Proof.
  induction l as [|x l IH]; [done|]. cbn. by rewrite insertSorted_Permutation, IH.
Qed.

(** ** The solve-time loop of the comparator *)

Lemma compareTimes_refl t : compareTimes t t = None.
Proof. induction t as [|x t IH]; [done|]. cbn. by rewrite Z.eqb_refl. Qed.

Lemma compareTimes_None t1 t2 :
  length t1 = length t2 → compareTimes t1 t2 = None → t1 = t2.
Proof.
  revert t2. induction t1 as [|x t1 IH]; intros [|y t2] Hlen; try done.
  cbn. destruct (Z.eqb_spec x y) as [->|]; [|done]. cbn.
  intros H. f_equal. apply IH; [by injection Hlen|done].
Qed.

Lemma compareTimes_asym t1 t2 :
  compareTimes t1 t2 = Some true → compareTimes t2 t1 = Some false.
Proof.
  revert t2. induction t1 as [|x t1 IH]; intros [|y t2]; try done.
  cbn. destruct (Z.eqb_spec x y) as [->|Hne].
  - rewrite Z.eqb_refl. cbn. apply IH.
  - destruct (Z.eqb_spec y x) as [->|_]; [done|]. cbn.
    intros [= H]. f_equal. lia.
Qed.

Lemma compareTimes_total t1 t2 :
  compareTimes t1 t2 = Some false → compareTimes t2 t1 = Some true.
Proof.
  revert t2. induction t1 as [|x t1 IH]; intros [|y t2]; try done.
  cbn. destruct (Z.eqb_spec x y) as [->|Hne].
  - rewrite Z.eqb_refl. cbn. apply IH.
  - destruct (Z.eqb_spec y x) as [->|_]; [done|]. cbn.
    intros [= H]. f_equal. lia.
Qed.

Lemma compareTimes_trans t1 t2 t3 :
  length t1 = length t2 → length t2 = length t3 →
  compareTimes t1 t2 = Some true → compareTimes t2 t3 = Some true →
  compareTimes t1 t3 = Some true.
Proof.
  revert t2 t3. induction t1 as [|x t1 IH]; intros [|y t2] [|z t3]; try done.
  cbn. intros [= L12] [= L23].
  destruct (Z.eqb_spec x y) as [->|Hxy]; cbn.
  - destruct (Z.eqb_spec y z) as [->|Hyz]; cbn; [|done]. by apply IH.
  - intros [= Hlt]. destruct (Z.eqb_spec y z) as [->|Hyz]; cbn.
    + intros _. destruct (Z.eqb_spec x z); [done|]. cbn. by rewrite Hlt.
    + intros [= Hlt']. destruct (Z.eqb_spec x z) as [->|]; cbn; [lia|]. f_equal. lia.
Qed.

(** ** The comparator on metrics *)

Lemma ranksBefore_irrefl m n : ranksBefore m n m n = false.
Proof.
  destruct m as [[s p] t]. unfold ranksBefore. rewrite !Z.eqb_refl. cbn.
  by rewrite compareTimes_refl, ltb_irrefl.
Qed.

Lemma ranksBefore_trans m1 n1 m2 n2 m3 n3 :
  shaped m1 → shaped m2 → shaped m3 →
  ranksBefore m1 n1 m2 n2 = true → ranksBefore m2 n2 m3 n3 = true →
  ranksBefore m1 n1 m3 n3 = true.
Proof.
  destruct m1 as [[s1 p1] t1], m2 as [[s2 p2] t2], m3 as [[s3 p3] t3].
  unfold shaped, ranksBefore. cbn. intros H1 H2 H3.
  destruct (Z.eqb_spec s1 s2) as [E12|N12]; cbn.
  2:{ intros L12%Z.ltb_lt. destruct (Z.eqb_spec s2 s3) as [E23|N23]; cbn.
      - intros _. destruct (Z.eqb_spec s1 s3); cbn; lia.
      - intros L23%Z.ltb_lt. destruct (Z.eqb_spec s1 s3); cbn; lia. }
  destruct (Z.eqb_spec s2 s3) as [E23|N23]; cbn.
  2:{ intros _ L23%Z.ltb_lt. destruct (Z.eqb_spec s1 s3); cbn; lia. }
  destruct (Z.eqb_spec s1 s3) as [_|]; [|lia]. cbn.
  destruct (Z.eqb_spec p1 p2) as [P12|N12]; cbn.
  2:{ intros L12%Z.ltb_lt. destruct (Z.eqb_spec p2 p3) as [P23|N23]; cbn.
      - intros _. destruct (Z.eqb_spec p1 p3); cbn; lia.
      - intros L23%Z.ltb_lt. destruct (Z.eqb_spec p1 p3); cbn; lia. }
  destruct (Z.eqb_spec p2 p3) as [P23|N23]; cbn.
  2:{ intros _ L23%Z.ltb_lt. destruct (Z.eqb_spec p1 p3); cbn; lia. }
  destruct (Z.eqb_spec p1 p3) as [_|]; [|lia]. cbn.
  assert (length t1 = length t2) as L12 by lia.
  assert (length t2 = length t3) as L23 by lia.
  destruct (compareTimes t1 t2) as [b12|] eqn:C12.
  - intros ->. destruct (compareTimes t2 t3) as [b23|] eqn:C23.
    + intros ->. by rewrite (compareTimes_trans _ _ _ L12 L23 C12 C23).
    + intros _. apply compareTimes_None in C23 as <-; [|done]. by rewrite C12.
  - apply compareTimes_None in C12 as <-; [|done]. intros Hn12.
    destruct (compareTimes t1 t3) as [b|] eqn:C13; [done|].
    intros Hn23. by eapply ltb_trans.
Qed.

Lemma ranksBefore_asym m1 n1 m2 n2 :
  ranksBefore m1 n1 m2 n2 = true → ranksBefore m2 n2 m1 n1 = false.
Proof.
  destruct m1 as [[s1 p1] t1], m2 as [[s2 p2] t2]. unfold ranksBefore.
  destruct (Z.eqb_spec s1 s2) as [E|N]; cbn.
  2:{ destruct (Z.eqb_spec s2 s1); [lia|]. cbn. lia. }
  destruct (Z.eqb_spec s2 s1) as [_|]; [|lia]. cbn.
  destruct (Z.eqb_spec p1 p2) as [P|N]; cbn.
  2:{ destruct (Z.eqb_spec p2 p1); [lia|]. cbn. lia. }
  destruct (Z.eqb_spec p2 p1) as [_|]; [|lia]. cbn.
  destruct (compareTimes t1 t2) as [b|] eqn:C12.
  - intros ->. by rewrite (compareTimes_asym _ _ C12).
  - destruct (compareTimes t2 t1) as [[]|] eqn:C21.
    + apply compareTimes_asym in C21. congruence.
    + done.
    + apply ltb_asym.
Qed.

Lemma ranksBefore_total m1 n1 m2 n2 :
  n1 ≠ n2 → ranksBefore m1 n1 m2 n2 = true ∨ ranksBefore m2 n2 m1 n1 = true.
Proof.
  destruct m1 as [[s1 p1] t1], m2 as [[s2 p2] t2]. unfold ranksBefore. intros Hne.
  destruct (Z.eqb_spec s1 s2) as [E|N]; cbn.
  2:{ destruct (Z.eqb_spec s2 s1); [lia|]. cbn. lia. }
  destruct (Z.eqb_spec s2 s1) as [_|]; [|lia]. cbn.
  destruct (Z.eqb_spec p1 p2) as [P|N]; cbn.
  2:{ destruct (Z.eqb_spec p2 p1); [lia|]. cbn. lia. }
  destruct (Z.eqb_spec p2 p1) as [_|]; [|lia]. cbn.
  destruct (compareTimes t1 t2) as [[]|] eqn:C12.
  - by left.
  - right. by rewrite (compareTimes_total _ _ C12).
  - destruct (compareTimes t2 t1) as [[]|] eqn:C21.
    + by right.
    + apply compareTimes_total in C21. congruence.
    + by apply ltb_total.
Qed.

(** ** The cache *)

Lemma updateCache_valid t : cacheValid (updateCache t) = true.
Proof.
  unfold updateCache. destruct (cacheValid t) eqn:E; [done|].
  by destruct (foldl _ _ _) as [[??]?].
Qed.

Lemma updateCache_of_valid t : cacheValid t = true → updateCache t = t.
Proof. intros H. unfold updateCache. by rewrite H. Qed.

Lemma updateCache_idemp t : updateCache (updateCache t) = updateCache t.
Proof. apply updateCache_of_valid, updateCache_valid. Qed.

Lemma updateCache_problems t : problems (updateCache t) = problems t.
Proof.
  unfold updateCache. destruct (cacheValid t); [done|].
  by destruct (foldl _ _ _) as [[??]?].
Qed.

Lemma updateCache_name t : name (updateCache t) = name t.
Proof.
  unfold updateCache. destruct (cacheValid t); [done|].
  by destruct (foldl _ _ _) as [[??]?].
Qed.

Lemma metricsOf_updateCache t : metricsOf (updateCache t) = metricsOf t.
Proof. unfold metricsOf. by rewrite updateCache_idemp. Qed.

Lemma cacheStep_shape acc l :
  acc.1.1 = Z.of_nat (length acc.2) →
  (foldl cacheStep acc l).1.1 = Z.of_nat (length (foldl cacheStep acc l).2).
Proof.
  revert acc. induction l as [|p l IH]; intros acc Hacc; [done|].
  cbn [foldl]. apply IH. destruct acc as [[cs cp] ct]. unfold cacheStep.
  destruct (solved p.2); [|done]. cbn in *. rewrite length_app. cbn. lia.
Qed.

Lemma updateCache_shaped t : cacheShaped t → cacheShaped (updateCache t).
Proof.
  intros Ht. unfold updateCache. destruct (cacheValid t) eqn:E; [done|].
  pose proof (cacheStep_shape (0, 0, []) (problemsInOrder (problems t)) eq_refl) as H.
  destruct (foldl _ _ _) as [[cs cp] ct]. intros _. cbn in *.
  unfold sortDescending. by rewrite (Permutation_length (isort_Permutation _ ct)).
Qed.

Lemma metricsOf_shaped t : cacheShaped t → shaped (metricsOf t).
Proof.
  intros Ht. apply updateCache_shaped in Ht. unfold shaped, metricsOf. cbn.
  apply Ht, updateCache_valid.
Qed.

(** ** Method calls through the store *)

Lemma setTeams_id s : setTeams s (teams s) = s.
Proof. by destruct s. Qed.

Lemma bind_eq {A B} (m : M A) (k : A → M B) s a s1 :
  m s = Ok (a, s1) → bind m k s = k a s1.
Proof. intros H. unfold bind. by rewrite H. Qed.

Lemma onTeam_Some {A} n (f : Team → A * Team) s t :
  teams s !! n = Some t →
  onTeam n f s = Ok ((f t).1, setTeams s (<[n := (f t).2]> (teams s))).
Proof. intros H. unfold onTeam. rewrite H. by destruct (f t). Qed.

Lemma onTeam_None {A} n (f : Team → A * Team) s :
  teams s !! n = None → onTeam n f s = Undefined NullDeref.
Proof. intros H. unfold onTeam. by rewrite H. Qed.

Lemma insert_updateCache n t (m : gmap string Team) :
  m !! n = Some t → <[n := updateCache t]> m = alter updateCache n m.
Proof.
  intros H. apply map_eq. intros k. destruct (decide (n = k)) as [->|Hne].
  - by rewrite lookup_insert_eq, lookup_alter_eq, H.
  - by rewrite lookup_insert_ne, lookup_alter_ne.
Qed.

Lemma onTeam_getSolvedCount n s t :
  teams s !! n = Some t →
  onTeam n getSolvedCount s = Ok (cachedSolved (updateCache t), cacheTeam n s).
Proof.
  intros H. rewrite (onTeam_Some _ _ _ _ H). cbn. unfold cacheTeam.
  by rewrite (insert_updateCache _ _ _ H).
Qed.

Lemma onTeam_getPenaltyTime n s t :
  teams s !! n = Some t →
  onTeam n getPenaltyTime s = Ok (cachedPenalty (updateCache t), cacheTeam n s).
Proof.
  intros H. rewrite (onTeam_Some _ _ _ _ H). cbn. unfold cacheTeam.
  by rewrite (insert_updateCache _ _ _ H).
Qed.

Lemma onTeam_getSolveTimes n s t :
  teams s !! n = Some t →
  onTeam n getSolveTimes s = Ok (cachedTimes (updateCache t), cacheTeam n s).
Proof.
  intros H. rewrite (onTeam_Some _ _ _ _ H). cbn. unfold cacheTeam.
  by rewrite (insert_updateCache _ _ _ H).
Qed.

Lemma cacheTeam_lookup n s k :
  teams (cacheTeam n s) !! k =
  if decide (n = k) then updateCache <$> teams s !! k else teams s !! k.
Proof.
  unfold cacheTeam. cbn. case_decide as H.
  - subst. by rewrite lookup_alter_eq.
  - by rewrite lookup_alter_ne.
Qed.

Lemma cacheTeam_valid n s t :
  teams s !! n = Some t → cacheValid t = true → cacheTeam n s = s.
Proof.
  intros H Hv. unfold cacheTeam. rewrite <- (insert_updateCache _ _ _ H).
  rewrite (updateCache_of_valid _ Hv), (insert_id _ _ _ H). apply setTeams_id.
Qed.

(** The metrics of every team are the same after a cache has been filled. *)
Lemma cacheTeam_metrics n s k :
  metricsOf <$> teams (cacheTeam n s) !! k = metricsOf <$> teams s !! k.
Proof.
  rewrite cacheTeam_lookup. case_decide; [|done].
  destruct (teams s !! k); [|done]. cbn. by rewrite metricsOf_updateCache.
Qed.

Lemma compareTeams_spec a b s ta tb :
  teams s !! a = Some ta → teams s !! b = Some tb →
  compareTeams a b s =
  Ok (ranksBefore (metricsOf ta) a (metricsOf tb) b, cacheTeam b (cacheTeam a s)).
Proof.
  intros Ha Hb.
  set (s1 := cacheTeam a s). set (s2 := cacheTeam b s1).
  assert (∃ tb1, teams s1 !! b = Some tb1 ∧ updateCache tb1 = updateCache tb) as (tb1 & Hb1 & Etb).
  { unfold s1. rewrite cacheTeam_lookup. case_decide.
    - subst. rewrite Hb. eexists. split; [done|]. apply updateCache_idemp.
    - eauto. }
  assert (teams s2 !! b = Some (updateCache tb)) as Hb2.
  { unfold s2. rewrite cacheTeam_lookup, decide_True by done. rewrite Hb1. cbn. by rewrite Etb. }
  assert (teams s2 !! a = Some (updateCache ta)) as Ha2.
  { unfold s2. rewrite cacheTeam_lookup. case_decide.
    - subst. assert (ta = tb) as -> by congruence. rewrite Hb1. cbn. by rewrite Etb.
    - unfold s1. rewrite cacheTeam_lookup, decide_True by done. by rewrite Ha. }
  assert (cacheTeam a s2 = s2) as Ea by (eapply cacheTeam_valid; eauto using updateCache_valid).
  assert (cacheTeam b s2 = s2) as Eb by (eapply cacheTeam_valid; eauto using updateCache_valid).
  unfold compareTeams.
  rewrite (bind_eq _ _ _ _ _ (onTeam_getSolvedCount _ _ _ Ha)); cbv beta. fold s1.
  rewrite (bind_eq _ _ _ _ _ (onTeam_getSolvedCount _ _ _ Hb1)); cbv beta. fold s2. rewrite Etb.
  unfold ranksBefore, metricsOf.
  destruct (negb (_ =? _)); [done|].
  rewrite (bind_eq _ _ _ _ _ (onTeam_getPenaltyTime _ _ _ Ha2)); cbv beta. rewrite Ea.
  rewrite (bind_eq _ _ _ _ _ (onTeam_getPenaltyTime _ _ _ Hb2)); cbv beta. rewrite Eb.
  rewrite !updateCache_idemp.
  destruct (negb (_ =? _)); [done|].
  rewrite (bind_eq _ _ _ _ _ (onTeam_getSolveTimes _ _ _ Ha2)); cbv beta. rewrite Ea.
  rewrite (bind_eq _ _ _ _ _ (onTeam_getSolveTimes _ _ _ Hb2)); cbv beta. rewrite Eb.
  rewrite !updateCache_idemp.
  by destruct (compareTimes _ _).
Qed.

Lemma compareTeams_unregistered a b s :
  teams s !! a = None ∨ teams s !! b = None → compareTeams a b s = Undefined NullDeref.
Proof.
  intros H. unfold compareTeams, bind.
  destruct (teams s !! a) as [ta|] eqn:Ha.
  - destruct H as [?|Hb]; [done|]. rewrite (onTeam_getSolvedCount _ _ _ Ha).
    rewrite onTeam_None; [done|]. rewrite cacheTeam_lookup. case_decide; [|done].
    subst. by rewrite Hb.
  - by rewrite onTeam_None.
Qed.

Lemma before_iff s a b :
  before s a b ↔
  ∃ ta tb, teams s !! a = Some ta ∧ teams s !! b = Some tb ∧
           ranksBefore (metricsOf ta) a (metricsOf tb) b = true.
Proof.
  unfold before. split.
  - intros [s' H]. destruct (teams s !! a) as [ta|] eqn:Ha.
    2:{ rewrite compareTeams_unregistered in H by auto. done. }
    destruct (teams s !! b) as [tb|] eqn:Hb.
    2:{ rewrite compareTeams_unregistered in H by auto. done. }
    rewrite (compareTeams_spec _ _ _ _ _ Ha Hb) in H. exists ta, tb. by simplify_eq.
  - intros (ta & tb & Ha & Hb & H). rewrite (compareTeams_spec _ _ _ _ _ Ha Hb), H. eauto.
Qed.

Lemma before_metrics s s1 :
  (∀ k, metricsOf <$> teams s !! k = metricsOf <$> teams s1 !! k) →
  ∀ a b, before s1 a b → before s a b.
Proof.
  intros Hm a b (ta & tb & Ha & Hb & Hab)%before_iff.
  pose proof (Hm a) as Hma. pose proof (Hm b) as Hmb. rewrite Ha in Hma. rewrite Hb in Hmb.
  apply fmap_Some in Hma as (ta0 & Ha0 & Ea). apply fmap_Some in Hmb as (tb0 & Hb0 & Eb).
  apply before_iff. exists ta0, tb0. by rewrite <- Ea, <- Eb.
Qed.

Lemma compareTeams_metrics x y r s s1 :
  compareTeams x y s = Ok (r, s1) →
  ∀ k, metricsOf <$> teams s1 !! k = metricsOf <$> teams s !! k.
Proof.
  intros H k. destruct (teams s !! x) as [tx|] eqn:Hx.
  2:{ rewrite compareTeams_unregistered in H by auto. done. }
  destruct (teams s !! y) as [ty|] eqn:Hy.
  2:{ rewrite compareTeams_unregistered in H by auto. done. }
  rewrite (compareTeams_spec _ _ _ _ _ Hx Hy) in H. simplify_eq.
  by rewrite !cacheTeam_metrics.
Qed.

(** C5.  In a state whose valid caches have the shape [updateCache] gives
    them, "[compareTeams] answers true" is a strict total order on the
    registered teams: irreflexive, transitive, asymmetric, and total on
    distinct names.  The caches a comparison fills in do not change the
    order, so all the comparisons made at one point in time agree. *)
Theorem compareTeams_strict_total_order (s : ICPCSystem) :
  map_Forall (λ _ t, cacheShaped t) (teams s) →
  (∀ a, ¬ before s a a) ∧
  (∀ a b c, before s a b → before s b c → before s a c) ∧
  (∀ a b, before s a b → ¬ before s b a) ∧
  (∀ a b, is_Some (teams s !! a) → is_Some (teams s !! b) → a ≠ b →
          before s a b ∨ before s b a) ∧
  (∀ x y r s1, compareTeams x y s = Ok (r, s1) → ∀ a b, before s1 a b ↔ before s a b).
Proof.
  intros Hshape. split_and!; [| | | |split].
  - intros a (ta & tb & Ha & Hb & H)%before_iff. simplify_eq.
    rewrite ranksBefore_irrefl in H. done.
  - intros a b c (ta & tb & Ha & Hb & Hab)%before_iff (tb' & tc & Hb' & Hc & Hbc)%before_iff.
    simplify_eq. apply before_iff. exists ta, tc. repeat split; try done.
    pose proof (metricsOf_shaped _ (Hshape _ _ Ha)).
    pose proof (metricsOf_shaped _ (Hshape _ _ Hb)).
    pose proof (metricsOf_shaped _ (Hshape _ _ Hc)).
    by eapply (ranksBefore_trans _ _ (metricsOf tb) b).
  - intros a b (ta & tb & Ha & Hb & Hab)%before_iff (tb' & ta' & Hb' & Ha' & Hba)%before_iff.
    simplify_eq. apply ranksBefore_asym in Hab. congruence.
  - intros a b [ta Ha] [tb Hb] Hne.
    destruct (ranksBefore_total (metricsOf ta) a (metricsOf tb) b Hne);
      [left|right]; apply before_iff; eauto.
  - apply before_metrics. intros k. symmetry. revert k.
    by apply compareTeams_metrics with x y r.
  - by apply before_metrics, compareTeams_metrics with x y r.
Qed.

Lemma compareTeams_strict_total_order_witness :
  (∀ a, ¬ before (stateAfter tiedTeamsTrace) a a) ∧
  (∀ a b c, before (stateAfter tiedTeamsTrace) a b → before (stateAfter tiedTeamsTrace) b c →
            before (stateAfter tiedTeamsTrace) a c) ∧
  (∀ a b, before (stateAfter tiedTeamsTrace) a b → ¬ before (stateAfter tiedTeamsTrace) b a) ∧
  (∀ a b, is_Some (teams (stateAfter tiedTeamsTrace) !! a) →
          is_Some (teams (stateAfter tiedTeamsTrace) !! b) → a ≠ b →
          before (stateAfter tiedTeamsTrace) a b ∨ before (stateAfter tiedTeamsTrace) b a) ∧
  (∀ x y r s1, compareTeams x y (stateAfter tiedTeamsTrace) = Ok (r, s1) →
               ∀ a b, before s1 a b ↔ before (stateAfter tiedTeamsTrace) a b).
Proof.
  apply (compareTeams_strict_total_order (stateAfter tiedTeamsTrace)).
  apply (bool_decide_unpack
           (map_Forall (λ _ t, cacheShaped t) (teams (stateAfter tiedTeamsTrace)))).
  vm_compute. reflexivity.
Defined.

Example tiedTeams_ranking :
  ranking (stateAfter tiedTeamsTrace) = ["bob"; "cyd"; "ann"].
Proof. vm_compute. reflexivity. Qed.

(** ** Teams up to caches and materialised entries *)

Lemma cacheStep_default acc c : cacheStep acc (c, newProblemStatus) = acc.
Proof. by destruct acc as [[??]?]. Qed.

Lemma cache_fold_view (m : gmap ascii ProblemStatus) acc l :
  foldl cacheStep acc (omap (λ c, (λ ps, (c, ps)) <$> m !! c) l) =
  foldl cacheStep acc ((λ c, (c, m !!! c)) <$> l).
Proof.
  revert acc. induction l as [|c l IH]; intros acc; [done|].
  rewrite fmap_cons, lookup_total_alt. cbn [omap list_omap].
  destruct (m !! c) as [ps|]; cbn [fmap option_fmap option_map default foldl].
  - apply IH.
  - change inhabitant with newProblemStatus. rewrite cacheStep_default. apply IH.
Qed.

Lemma cache_fold_ext (m m' : gmap ascii ProblemStatus) acc :
  (∀ c, m !!! c = m' !!! c) →
  foldl cacheStep acc (problemsInOrder m) = foldl cacheStep acc (problemsInOrder m').
Proof.
  intros H. unfold problemsInOrder. rewrite !cache_fold_view. f_equal.
  apply list_fmap_ext. intros _ c _. by rewrite H.
Qed.

Lemma metricsOf_setProblems t m' :
  (∀ c, m' !!! c = problems t !!! c) → metricsOf (setProblems t m') = metricsOf t.
Proof.
  intros H. unfold metricsOf, updateCache. cbn.
  destruct (cacheValid t); [done|].
  rewrite (cache_fold_ext m' (problems t)) by done.
  by destruct (foldl _ _ _) as [[??]?].
Qed.

#[global] Instance teamEquiv_equivalence : Equivalence teamEquiv.
Proof.
  split.
  - by intros t.
  - intros t t' [? ?]. by split.
  - intros t1 t2 t3 [? H12] [? H23]. split; [congruence|]. intros c. by rewrite H12.
Qed.

Lemma teamEquiv_updateCache t : teamEquiv t (updateCache t).
Proof. split; [by rewrite metricsOf_updateCache|]. by rewrite updateCache_problems. Qed.

Lemma teamEquiv_setProblems t m' :
  (∀ c, m' !!! c = problems t !!! c) → teamEquiv t (setProblems t m').
Proof. intros H. split; [by rewrite metricsOf_setProblems|]. intros c. by rewrite H. Qed.

Lemma materialise_view (m : gmap ascii ProblemStatus) c k :
  <[c := m !!! c]> m !!! k = m !!! k.
Proof.
  destruct (decide (c = k)) as [->|Hne].
  - by rewrite lookup_total_insert_eq.
  - by rewrite lookup_total_insert_ne.
Qed.

Lemma problemAt_fst c t : (problemAt c t).1 = problems t !!! c.
Proof. done. Qed.

Lemma teamEquiv_problemAt c t : teamEquiv t (problemAt c t).2.
Proof. apply teamEquiv_setProblems. intros k. apply materialise_view. Qed.

(** ** Systems up to caches and materialised entries *)

#[global] Instance storeEquiv_preorder : PreOrder storeEquiv.
Proof.
  split.
  - intros s. by split.
  - intros s1 s2 s3 [H12 ? ? ?] [H23 ? ? ?]. split; try congruence.
    intros n. specialize (H12 n). specialize (H23 n).
    destruct H12; inversion H23; subst; constructor. by etrans.
Qed.

Lemma storeEquiv_lookup s s' n t :
  storeEquiv s s' → teams s !! n = Some t →
  ∃ t', teams s' !! n = Some t' ∧ teamEquiv t t'.
Proof. intros [H _ _ _] Hn. specialize (H n). rewrite Hn in H. inversion H. eauto. Qed.

Lemma storeEquiv_lookup_inv s s' n t' :
  storeEquiv s s' → teams s' !! n = Some t' →
  ∃ t, teams s !! n = Some t ∧ teamEquiv t t'.
Proof. intros [H _ _ _] Hn. specialize (H n). rewrite Hn in H. inversion H. eauto. Qed.

Lemma storeEquiv_is_Some s s' n :
  storeEquiv s s' → is_Some (teams s !! n) ↔ is_Some (teams s' !! n).
Proof. intros [H _ _ _]. specialize (H n). destruct H; split; intros [? ?]; eauto; done. Qed.

Lemma storeEquiv_metrics s s' :
  storeEquiv s s' → ∀ k, metricsOf <$> teams s !! k = metricsOf <$> teams s' !! k.
Proof. intros [H _ _ _] k. destruct (H k) as [t t' [Hm _]|]; cbn; by f_equal. Qed.

Lemma storeEquiv_before s s' a b : storeEquiv s s' → before s a b ↔ before s' a b.
Proof.
  intros H. pose proof (storeEquiv_metrics _ _ H) as Hm. split.
  - apply before_metrics. intros k. by rewrite Hm.
  - by apply before_metrics.
Qed.

Lemma storeEquiv_registered s s' :
  storeEquiv s s' → ranking s' = ranking s → registered s → registered s'.
Proof.
  intros H Hr Hreg n Hn. rewrite Hr in Hn. by apply (storeEquiv_is_Some _ _ _ H), Hreg.
Qed.

Lemma storeEquiv_onTeam {A} n (f : Team → A * Team) s a s' :
  (∀ t, teamEquiv t (f t).2) →
  onTeam n f s = Ok (a, s') → storeEquiv s s' ∧ ranking s' = ranking s.
Proof.
  intros Hf H. unfold onTeam in H. destruct (teams s !! n) as [t|] eqn:Hn; [|done].
  specialize (Hf t). destruct (f t) as [a' t']. simplify_eq. split; [|done].
  split; try done. intros k. cbn. destruct (decide (n = k)) as [->|Hne].
  - rewrite lookup_insert_eq, Hn. by constructor.
  - rewrite lookup_insert_ne by done. by destruct (teams s !! k); constructor.
Qed.

Lemma storeEquiv_cacheTeam n s : storeEquiv s (cacheTeam n s).
Proof.
  split; try done. intros k. rewrite cacheTeam_lookup. case_decide.
  - destruct (teams s !! k); constructor. apply teamEquiv_updateCache.
  - by destruct (teams s !! k); constructor.
Qed.

(** ** Quiet actions *)

Lemma quiet_ret {A} (a : A) : quiet (ret a).
Proof. intros s a' s' [= <- <-]. done. Qed.

Lemma quiet_get : quiet get.
Proof. intros s a' s' [= <- <-]. done. Qed.

Lemma quiet_bind {A B} (m : M A) (k : A → M B) :
  quiet m → (∀ a, quiet (k a)) → quiet (bind m k).
Proof.
  intros Hm Hk s b s' (a & s1 & H1 & H2)%bind_Ok.
  destruct (Hm _ _ _ H1) as [E1 R1]. destruct (Hk _ _ _ _ H2) as [E2 R2].
  split; [by etrans|congruence].
Qed.

Lemma quiet_onTeam {A} n (f : Team → A * Team) :
  (∀ t, teamEquiv t (f t).2) → quiet (onTeam n f).
Proof. intros Hf s a s'. by apply storeEquiv_onTeam. Qed.

Lemma quiet_rankingAt i : quiet (rankingAt i).
Proof. intros s a s' H. unfold rankingAt in H. destruct (ranking s !! i); by simplify_eq. Qed.

Lemma quiet_compareTeams a b : quiet (compareTeams a b).
Proof.
  intros s r s' H. destruct (teams s !! a) as [ta|] eqn:Ha.
  2:{ rewrite compareTeams_unregistered in H by auto. done. }
  destruct (teams s !! b) as [tb|] eqn:Hb.
  2:{ rewrite compareTeams_unregistered in H by auto. done. }
  rewrite (compareTeams_spec _ _ _ _ _ Ha Hb) in H. simplify_eq. split; [|done].
  etrans; apply storeEquiv_cacheTeam.
Qed.

(** ** Contest letters *)

Lemma charVal_problemLetter j : 0 ≤ j < 26 → charVal (problemLetter j) = 65 + j.
Proof.
  intros Hj. unfold charVal, problemLetter, charOfInt.
  rewrite Z.mod_small by lia. rewrite N_ascii_embedding by lia.
  rewrite Z2N.id by lia. destruct (Z.leb_spec 128 (65 + j)); lia.
Qed.

Lemma charVal_sentinel : charVal (charOfInt 91) = 91.
Proof. reflexivity. Qed.

Lemma charVal_Z : charVal "Z" = 90.
Proof. reflexivity. Qed.

(** ** The search for the next problem to resolve *)

Lemma scanStep_teamEquiv acc j : teamEquiv acc.2 (scanStep acc j).2.
Proof. destruct acc as [sm t]. apply teamEquiv_problemAt. Qed.

Lemma scan_teamEquiv acc l : teamEquiv acc.2 (foldl scanStep acc l).2.
Proof.
  revert acc. induction l as [|j l IH]; intros acc; [done|].
  cbn [foldl]. etrans; [apply scanStep_teamEquiv|apply IH].
Qed.

Lemma scanTeam_teamEquiv count t : teamEquiv t (scanTeam count t).2.
Proof. apply (scan_teamEquiv (charOfInt 91, t)). Qed.

Lemma indices_S (n : nat) : indices (Z.of_nat (S n)) = indices (Z.of_nat n) ++ [Z.of_nat n].
Proof. unfold indices. rewrite !Nat2Z.id, seq_S, fmap_app. done. Qed.

Lemma elem_of_indices n j : j ∈ indices n ↔ 0 ≤ j < n.
Proof.
  unfold indices. rewrite list_elem_of_fmap. split.
  - intros (k & -> & Hk%elem_of_seq). lia.
  - intros Hj. exists (Z.to_nat j). rewrite elem_of_seq. lia.
Qed.

(** After the first [n] contest letters have been looked at, the candidate
    is either the sentinel ['Z' + 1], and none of them is frozen, or the
    first frozen one. *)
Lemma scan_first_frozen t (n : nat) :
  Z.of_nat n ≤ 26 →
  let r := scanTeam (Z.of_nat n) t in
  (r.1 = charOfInt 91 ∧ ∀ j, 0 ≤ j < Z.of_nat n → ¬ frozenAt t j) ∨
  (∃ j0, 0 ≤ j0 < Z.of_nat n ∧ r.1 = problemLetter j0 ∧ frozenAt t j0 ∧
         ∀ j, 0 ≤ j < j0 → ¬ frozenAt t j).
Proof.
  induction n as [|n IH]; intros Hn r.
  - left. split; [done|]. lia.
  - assert (Z.of_nat n ≤ 26) as Hn' by lia. specialize (IH Hn').
    subst r. unfold scanTeam in *. rewrite indices_S, foldl_app. cbn [foldl].
    pose proof (scan_teamEquiv (charOfInt 91, t) (indices (Z.of_nat n))) as [_ Hview].
    destruct (foldl scanStep _ (indices (Z.of_nat n))) as [sm t1]. cbn [fst snd] in *.
    unfold scanStep. rewrite (surjective_pairing (problemAt _ _)), problemAt_fst.
    cbn [fst snd]. rewrite <- Hview.
    destruct (Z.ltb_spec 0 (frozenSubmissions (problems t !!! problemLetter (Z.of_nat n))))
      as [Hfr|Hfr].
    + right. destruct IH as [[-> Hnone]|(j0 & Hj0 & -> & Hf0 & Hmin)].
      * exists (Z.of_nat n). split; [lia|]. split; [|split; [done|]].
        -- unfold charMin. rewrite charVal_sentinel, charVal_problemLetter by lia.
           destruct (Z.ltb_spec (65 + Z.of_nat n) 91); [done|lia].
        -- intros j Hj. apply Hnone. lia.
      * exists j0. split; [lia|]. split; [|done].
        unfold charMin. rewrite !charVal_problemLetter by lia.
        destruct (Z.ltb_spec (65 + Z.of_nat n) (65 + j0)); [lia|done].
    + destruct IH as [[-> Hnone]|(j0 & Hj0 & -> & Hf0 & Hmin)].
      * left. split; [done|]. intros j Hj.
        destruct (decide (j = Z.of_nat n)) as [->|]; [unfold frozenAt; lia|].
        apply Hnone. lia.
      * right. exists j0. split; [lia|]. done.
Qed.

Lemma scanTeam_spec count t :
  count ≤ 26 →
  if decide (charVal (scanTeam count t).1 ≤ charVal "Z")
  then ∃ j, 0 ≤ j < count ∧ (scanTeam count t).1 = problemLetter j ∧ frozenAt t j ∧
            ∀ j', 0 ≤ j' < j → ¬ frozenAt t j'
  else ¬ hasFrozen count t.
Proof.
  intros Hc. rewrite charVal_Z.
  assert (scanTeam count t = scanTeam (Z.of_nat (Z.to_nat count)) t) as ->.
  { unfold scanTeam, indices. by rewrite Nat2Z.id. }
  pose proof (scan_first_frozen t (Z.to_nat count)) as H. cbn zeta in H.
  destruct H as [[-> Hnone]|(j0 & Hj0 & -> & Hf0 & Hmin)]; [lia| |].
  - rewrite charVal_sentinel. rewrite decide_False by lia.
    intros (j & Hj & Hf). apply (Hnone j); [lia|done].
  - rewrite charVal_problemLetter by lia. rewrite decide_True by lia.
    exists j0. repeat split; try done; lia.
Qed.

Lemma frozenAt_teamEquiv t t' j : teamEquiv t t' → frozenAt t j ↔ frozenAt t' j.
Proof. intros [_ H]. unfold frozenAt. by rewrite H. Qed.

Lemma hasFrozen_teamEquiv t t' count : teamEquiv t t' → hasFrozen count t ↔ hasFrozen count t'.
Proof.
  intros H. unfold hasFrozen. split; intros (j & Hj & Hf); exists j; split; try done.
  - by apply (frozenAt_teamEquiv _ _ _ H).
  - by apply (frozenAt_teamEquiv _ _ _ H).
Qed.

Lemma quiet_findFrozen names : quiet (findFrozen names).
Proof.
  induction names as [|n names IH]; [apply quiet_ret|].
  cbn [findFrozen]. apply quiet_bind; [apply quiet_get|]. intros s0.
  apply quiet_bind; [apply quiet_onTeam; intros t; apply scanTeam_teamEquiv|].
  intros sm. destruct (_ <=? _); [apply quiet_ret|apply IH].
Qed.

Lemma findFrozen_spec names s :
  (∀ n, n ∈ names → is_Some (teams s !! n)) →
  problemCount s ≤ 26 →
  ∃ r s', findFrozen names s = Ok (r, s') ∧
    match r with
    | None => ∀ n t, n ∈ names → teams s !! n = Some t → ¬ hasFrozen (problemCount s) t
    | Some (n, p) =>
        ∃ skipped rest t j,
          names = skipped ++ n :: rest ∧
          (∀ n' t', n' ∈ skipped → teams s !! n' = Some t' → ¬ hasFrozen (problemCount s) t') ∧
          teams s !! n = Some t ∧
          0 ≤ j < problemCount s ∧ p = problemLetter j ∧ frozenAt t j ∧
          ∀ j', 0 ≤ j' < j → ¬ frozenAt t j'
    end.
Proof.
  revert s. induction names as [|n names IH]; intros s Hreg Hc.
  - exists None, s. split; [done|]. intros n t Hn. by apply elem_of_nil in Hn.
  - destruct (Hreg n) as [t Ht]; [by left|].
    cbn [findFrozen]. unfold bind at 1. unfold get.
    pose proof (onTeam_Some n (scanTeam (problemCount s)) s t Ht) as Hscan.
    unfold bind at 1. rewrite Hscan.
    pose proof (scanTeam_spec (problemCount s) t Hc) as Hspec.
    set (s1 := setTeams s _) in *.
    assert (storeEquiv s s1) as E1.
    { eapply (storeEquiv_onTeam n (scanTeam (problemCount s))); [|exact Hscan].
      intros. apply scanTeam_teamEquiv. }
    case_decide as Hle.
    + rewrite (proj2 (Z.leb_le _ _) Hle).
      destruct Hspec as (j & Hj & Hp & Hf & Hmin).
      eexists (Some (n, _)), s1. split; [done|].
      exists [], names, t, j. repeat split; try done; try lia.
      intros n' t' Hn'. by apply elem_of_nil in Hn'.
    + rewrite (proj2 (Z.leb_gt _ _)) by lia.
      destruct (IH s1) as (r & s' & Hr & Hprop).
      { intros n' Hn'. apply (storeEquiv_is_Some _ _ _ E1), Hreg. by right. }
      { by rewrite (equiv_count _ _ E1). }
      exists r, s'. split; [done|]. rewrite (equiv_count _ _ E1) in Hprop.
      destruct r as [[n0 p]|].
      * destruct Hprop as (skipped & rest & t0 & j & -> & Hsk & Ht0 & Hj & -> & Hf & Hmin).
        destruct (storeEquiv_lookup_inv _ _ _ _ E1 Ht0) as (t0' & Ht0' & Et0).
        exists (n :: skipped), rest, t0', j. repeat split; try done; try lia.
        -- intros n' t' [->|Hn']%elem_of_cons Ht'.
           ++ by simplify_eq.
           ++ destruct (storeEquiv_lookup _ _ _ _ E1 Ht') as (t1' & Ht1' & Et1).
              rewrite (hasFrozen_teamEquiv _ _ _ Et1). by eapply Hsk.
        -- by apply (frozenAt_teamEquiv _ _ _ Et0).
        -- intros j' Hj'. rewrite (frozenAt_teamEquiv _ _ _ Et0). by apply Hmin.
      * intros n' t' [->|Hn']%elem_of_cons Ht'.
        -- by simplify_eq.
        -- destruct (storeEquiv_lookup _ _ _ _ E1 Ht') as (t1' & Ht1' & Et1).
           rewrite (hasFrozen_teamEquiv _ _ _ Et1). by eapply Hprop.
Qed.

(** C2.  With at most 26 contest problems, a pass of the scroll loop
    selects, on the scoreboard as it stands when the pass starts, the team
    at the greatest position that has a contest problem with
    [frozenSubmissions > 0], and of that team's frozen contest problems the
    one with the smallest letter; it selects nothing exactly when no team
    on the scoreboard has such a problem.  The search changes no problem
    status and no position. *)
Theorem selectTarget_lowest_team_smallest_letter (s : ICPCSystem) :
  registered s →
  problemCount s ≤ 26 →
  ∃ r s', selectTarget s = Ok (r, s') ∧ storeEquiv s s' ∧ ranking s' = ranking s ∧
    match r with
    | None =>
        ∀ n t, n ∈ ranking s → teams s !! n = Some t → ¬ hasFrozen (problemCount s) t
    | Some (n, p) =>
        ∃ (i : nat) t j,
          ranking s !! i = Some n ∧ teams s !! n = Some t ∧
          (∀ (i' : nat) n' t', (i < i')%nat → ranking s !! i' = Some n' →
                               teams s !! n' = Some t' → ¬ hasFrozen (problemCount s) t') ∧
          0 ≤ j < problemCount s ∧ p = problemLetter j ∧ frozenAt t j ∧
          (∀ j', 0 ≤ j' < problemCount s → frozenAt t j' →
                 charVal p ≤ charVal (problemLetter j'))
    end.
Proof.
  intros Hreg Hc.
  destruct (findFrozen_spec (reverse (ranking s)) s) as (r & s' & Hr & Hprop); [|done|].
  { intros n Hn. apply Hreg. by apply elem_of_reverse. }
  exists r, s'. split; [done|].
  destruct (quiet_findFrozen _ _ _ _ Hr) as [E R]. split; [done|]. split; [done|].
  destruct r as [[n p]|].
  - destruct Hprop as (skipped & rest & t & j & Hnames & Hsk & Ht & Hj & -> & Hf & Hmin).
    assert (ranking s = reverse rest ++ n :: reverse skipped) as Hrank.
    { rewrite <- (reverse_involutive (ranking s)), Hnames, reverse_app, reverse_cons.
      by rewrite <- app_assoc. }
    exists (length (reverse rest)), t, j. repeat split; try done; try lia.
    + rewrite Hrank. by rewrite list_lookup_middle.
    + intros i' n' t' Hi' Hn' Ht'. apply (Hsk n' t'); [|done].
      rewrite Hrank in Hn'. rewrite lookup_app_r in Hn' by lia.
      destruct (i' - length (reverse rest))%nat as [|k] eqn:Hk; [lia|]. cbn in Hn'.
      apply list_elem_of_lookup_2 in Hn'. by apply elem_of_reverse.
    + intros j' Hj' Hf'. rewrite !charVal_problemLetter by lia.
      destruct (Z.le_gt_cases j j') as [|Hlt]; [lia|]. destruct (Hmin j'); [lia|done].
  - intros n t Hn. apply Hprop. by apply elem_of_reverse.
Qed.

Lemma selectTarget_lowest_team_smallest_letter_witness :
  ∃ r s', selectTarget (stateAfter scrollTrace) = Ok (r, s') ∧
    storeEquiv (stateAfter scrollTrace) s' ∧ ranking s' = ranking (stateAfter scrollTrace) ∧
    match r with
    | None =>
        ∀ n t, n ∈ ranking (stateAfter scrollTrace) →
               teams (stateAfter scrollTrace) !! n = Some t →
               ¬ hasFrozen (problemCount (stateAfter scrollTrace)) t
    | Some (n, p) =>
        ∃ (i : nat) t j,
          ranking (stateAfter scrollTrace) !! i = Some n ∧
          teams (stateAfter scrollTrace) !! n = Some t ∧
          (∀ (i' : nat) n' t', (i < i')%nat →
             ranking (stateAfter scrollTrace) !! i' = Some n' →
             teams (stateAfter scrollTrace) !! n' = Some t' →
             ¬ hasFrozen (problemCount (stateAfter scrollTrace)) t') ∧
          0 ≤ j < problemCount (stateAfter scrollTrace) ∧ p = problemLetter j ∧ frozenAt t j ∧
          (∀ j', 0 ≤ j' < problemCount (stateAfter scrollTrace) → frozenAt t j' →
                 charVal p ≤ charVal (problemLetter j'))
    end.
Proof.
  apply (selectTarget_lowest_team_smallest_letter (stateAfter scrollTrace)).
  - apply (bool_decide_unpack (registered (stateAfter scrollTrace))). vm_compute. reflexivity.
  - vm_compute. discriminate.
Defined.

Example scrollTrace_target :
  ranking (stateAfter scrollTrace) = ["ann"; "bob"] ∧
  ∃ s', selectTarget (stateAfter scrollTrace) = Ok (Some ("bob", "B"%char), s').
Proof. split; [vm_compute; reflexivity|]. eexists. vm_compute. reflexivity. Qed.

(** ** Positions on the scoreboard *)

Lemma indexOf_Some x l i :
  indexOf x l = Some i → l !! i = Some x ∧ x ∉ take i l.
Proof.
  revert i. induction l as [|y l IH]; intros i; [done|]. cbn.
  destruct (String.eqb_spec y x) as [->|Hne].
  - intros [= <-]. split; [done|]. cbn. apply not_elem_of_nil.
  - destruct (indexOf x l) as [k|]; [|done]. cbn. intros [= <-].
    destruct (IH k eq_refl) as [Hk Hnot]. split; [done|].
    cbn. intros [->|Hin]%elem_of_cons; done.
Qed.

Lemma indexOf_elem x l : x ∈ l → is_Some (indexOf x l).
Proof.
  induction l as [|y l IH]; [by intros ?%elem_of_nil|]. cbn.
  destruct (String.eqb_spec y x) as [->|Hne]; [by eauto|].
  intros [->|Hin]%elem_of_cons; [done|]. destruct (IH Hin) as [k ->]. by eexists.
Qed.

Lemma indexOf_first x (above : list string) rest :
  x ∉ above → indexOf x (above ++ x :: rest) = Some (length above).
Proof.
  induction above as [|y above IH]; cbn.
  - intros _. by rewrite String.eqb_refl.
  - intros [Hne Hnot]%not_elem_of_cons.
    destruct (String.eqb_spec y x) as [->|_]; [done|]. by rewrite IH.
Qed.

Lemma indexOf_split x l i :
  indexOf x l = Some i →
  l = take i l ++ x :: drop (S i) l ∧ length (take i l) = i ∧ x ∉ take i l.
Proof.
  intros [Hi Hnot]%indexOf_Some. split; [|split; [|done]].
  - by rewrite <- (take_drop_middle _ _ _ Hi) at 1.
  - apply length_take_le. apply lookup_lt_Some in Hi. lia.
Qed.

Lemma eraseAt_middle (l1 l2 : list string) x :
  eraseAt (length l1) (l1 ++ x :: l2) = l1 ++ l2.
Proof.
  unfold eraseAt. rewrite take_app_length.
  by rewrite (drop_app_length' l1 [x] _ eq_refl) || rewrite drop_app_ge, Nat.sub_succ_l, Nat.sub_diag by lia.
Qed.

Lemma insertAt_middle (l1 l2 : list string) x :
  insertAt (length l1) x (l1 ++ l2) = l1 ++ x :: l2.
Proof. unfold insertAt. by rewrite take_app_length, drop_app_length. Qed.

(** Moving [x] from behind [passed] to in front of it, as [erase] followed
    by [insert] does. *)
Lemma move_up (above passed below : list string) x :
  insertAt (length above) x (eraseAt (length (above ++ passed)) (above ++ passed ++ x :: below))
  = above ++ x :: passed ++ below.
Proof.
  rewrite (app_assoc above passed), eraseAt_middle, <- app_assoc. apply insertAt_middle.
Qed.

(** ** The upward search for the new position *)

Lemma rankingAt_Some i s x : ranking s !! i = Some x → rankingAt i s = Ok (x, s).
Proof. intros H. unfold rankingAt. by rewrite H. Qed.

Lemma quiet_findNewRank t k : quiet (findNewRank t k).
Proof.
  induction k as [|k IH]; [apply quiet_ret|]. cbn [findNewRank].
  apply quiet_bind; [apply quiet_rankingAt|]. intros above.
  apply quiet_bind; [apply quiet_compareTeams|]. intros [|]; [apply IH|apply quiet_ret].
Qed.

Lemma compareTeams_before a b s :
  is_Some (teams s !! a) → is_Some (teams s !! b) →
  ∃ r s', compareTeams a b s = Ok (r, s') ∧ (r = true ↔ before s a b).
Proof.
  intros [ta Ha] [tb Hb]. eexists _, _. split; [by apply compareTeams_spec|].
  rewrite before_iff. split.
  - intros H. eauto.
  - intros (ta' & tb' & ? & ? & H). by simplify_eq.
Qed.

Lemma findNewRank_spec t s (k : nat) :
  registered s → is_Some (teams s !! t) → (k ≤ length (ranking s))%nat →
  ∃ (k' : nat) s',
    findNewRank t k s = Ok (k', s') ∧ storeEquiv s s' ∧ ranking s' = ranking s ∧
    (k' ≤ k)%nat ∧
    Forall (before s t) (drop k' (take k (ranking s))) ∧
    (∀ x, last (take k' (ranking s)) = Some x → ¬ before s t x).
Proof.
  revert s. induction k as [|k IH]; intros s Hreg Ht Hk.
  - exists O, s. by repeat split.
  - destruct (lookup_lt_is_Some_2 (ranking s) k) as [above Habove]; [lia|].
    assert (is_Some (teams s !! above)) as Hab.
    { apply Hreg. by eapply list_elem_of_lookup_2. }
    destruct (compareTeams_before t above s Ht Hab) as (r & s1 & Hcmp & Hr).
    destruct (quiet_compareTeams _ _ _ _ _ Hcmp) as [E1 R1].
    cbn [findNewRank]. rewrite (bind_eq _ _ _ _ _ (rankingAt_Some _ _ _ Habove)); cbv beta.
    rewrite (bind_eq _ _ _ _ _ Hcmp); cbv beta.
    rewrite (take_S_r _ _ _ Habove).
    destruct r.
    + destruct (IH s1) as (k' & s' & Hfind & E & R & Hle & Hpassed & Hstop).
      { by apply (storeEquiv_registered s). }
      { by apply (storeEquiv_is_Some _ _ _ E1). }
      { rewrite R1. lia. }
      exists k', s'. split; [done|]. split; [by etrans|]. split; [congruence|].
      split; [lia|]. rewrite R1 in *. split.
      * rewrite drop_app_le by (rewrite length_take; lia).
        apply Forall_app. split.
        -- eapply Forall_impl; [exact Hpassed|]. intros x. by apply storeEquiv_before.
        -- constructor; [|done]. by apply Hr.
      * intros x Hx. rewrite (storeEquiv_before _ _ _ _ E1). by apply Hstop.
    + exists (S k), s1. split; [done|]. split; [done|]. split; [done|]. split; [lia|].
      split.
      * rewrite drop_ge; [done|]. rewrite length_app, length_take. cbn. lia.
      * intros x. rewrite (take_S_r _ _ _ Habove), last_snoc. intros [= <-].
        intros Hb. apply Hr in Hb. done.
Qed.

(** ** One pass of the scroll loop *)

Lemma quiet_selectTarget : quiet selectTarget.
Proof.
  unfold selectTarget. apply quiet_bind; [apply quiet_get|]. intros s. apply quiet_findFrozen.
Qed.

Lemma findFrozen_elem names s n p s' :
  findFrozen names s = Ok (Some (n, p), s') → n ∈ names.
Proof.
  revert s. induction names as [|n0 names IH]; intros s; [done|].
  cbn [findFrozen]. intros (s0 & s0' & [= <- <-] & (sm & s1 & Hscan & H)%bind_Ok)%bind_Ok.
  destruct (_ <=? _).
  - injection H as [= <- <- <-]. by left.
  - right. by eapply IH.
Qed.

Lemma selectTarget_elem s n p s' :
  selectTarget s = Ok (Some (n, p), s') → n ∈ ranking s.
Proof.
  unfold selectTarget. intros (s0 & s0' & [= <- <-] & H)%bind_Ok.
  apply findFrozen_elem in H. by apply elem_of_reverse.
Qed.

Lemma freshMetrics_view t t' :
  (∀ c, problems t !!! c = problems t' !!! c) → freshMetrics t = freshMetrics t'.
Proof.
  intros H. unfold freshMetrics, metricsOf, updateCache. cbn [invalidateCache cacheValid problems].
  rewrite (cache_fold_ext (problems t) (problems t')) by done.
  by destruct (foldl _ _ _) as [[??]?].
Qed.

Lemma metricsOf_invalid t : cacheValid t = false → metricsOf t = freshMetrics t.
Proof.
  intros H. unfold freshMetrics, metricsOf, updateCache. rewrite H. cbn [invalidateCache cacheValid problems].
  by destruct (foldl _ _ _) as [[??]?].
Qed.

(** ** What a recomputed cache holds *)

Lemma freshMetrics_fold t :
  freshMetrics t =
  let '(cs, cp, ct) :=
    foldl cacheStep (0, 0, []) ((λ c, (c, problems t !!! c)) <$> charsInOrder) in
  (cs, cp, sortDescending ct).
Proof.
  unfold freshMetrics, metricsOf, updateCache. cbn [invalidateCache cacheValid problems].
  unfold problemsInOrder. rewrite cache_fold_view. by destruct (foldl _ _ _) as [[??]?].
Qed.

Lemma wrapInt_fits z : fitsInt (wrapInt z).
Proof.
  unfold fitsInt, wrapInt.
  pose proof (Z.mod_pos_bound (z + 2147483648) 4294967296 eq_refl). lia.
Qed.

Lemma wrapInt_small z : fitsInt z → wrapInt z = z.
Proof. unfold fitsInt, wrapInt. intros H. rewrite Z.mod_small; lia. Qed.

Lemma wrapInt_add_r a b : wrapInt (a + wrapInt b) = wrapInt (a + b).
Proof.
  unfold wrapInt. f_equal.
  replace (a + ((b + 2147483648) mod 4294967296 - 2147483648) + 2147483648)
    with (a + (b + 2147483648) mod 4294967296) by lia.
  rewrite Zplus_mod_idemp_r. f_equal. lia.
Qed.

Lemma wrapInt_add_l a b : wrapInt (wrapInt a + b) = wrapInt (a + b).
Proof. by rewrite (Z.add_comm (wrapInt a)), wrapInt_add_r, Z.add_comm. Qed.

(** The three [int] operations of the penalty line amount to one
    reduction of the exact sum. *)
Lemma wrapInt_penalty cp st wa :
  wrapInt (cp + wrapInt (st + wrapInt (20 * wa))) = wrapInt (cp + (st + 20 * wa)).
Proof. by rewrite (wrapInt_add_r st), wrapInt_add_r. Qed.

Lemma cacheStep_fits l acc : fitsInt acc.1.2 → fitsInt (foldl cacheStep acc l).1.2.
Proof.
  revert acc. induction l as [|p l IH]; intros acc Hacc; [done|].
  cbn [foldl]. apply IH. destruct acc as [[cs cp] ct]. unfold cacheStep.
  destruct (solved p.2); cbn [fst snd] in *; [apply wrapInt_fits|done].
Qed.

Lemma cacheStep_count_sum (t : Team) l acc :
  let r := foldl cacheStep acc ((λ c, (c, problems t !!! c)) <$> l) in
  r.1.1 = acc.1.1 + Z.of_nat (length (filter (λ c, solved (problems t !!! c) = true) l)) ∧
  wrapInt r.1.2 =
    wrapInt (acc.1.2 +
             foldr Z.add 0
               ((λ c, solveTime (problems t !!! c) + 20 * wrongAttempts (problems t !!! c))
                  <$> filter (λ c, solved (problems t !!! c) = true) l)).
Proof.
  revert acc. induction l as [|c l IH]; intros acc.
  - cbn. split; [lia|]. f_equal. lia.
  - cbn [fmap list_fmap foldl]. rewrite filter_cons.
    destruct (IH (cacheStep acc (c, problems t !!! c))) as [IH1 IH2].
    cbn zeta in *. rewrite IH1, IH2. clear IH IH1 IH2.
    destruct acc as [[cs cp] ct]. unfold cacheStep. cbn [snd].
    destruct (solved (problems t !!! c)) eqn:Hs.
    + rewrite decide_True by done. cbn [fst snd fmap list_fmap foldr length].
      split; [lia|]. rewrite wrapInt_penalty, wrapInt_add_l. f_equal. lia.
    + rewrite decide_False by done. done.
Qed.

(** A recomputed cache holds the number of solved problems and the [int]
    value of the penalty sum. *)
Lemma freshMetrics_spec t :
  (freshMetrics t).1.1 = solvedCountOf t ∧ (freshMetrics t).1.2 = wrapInt (penaltyOf t).
Proof.
  rewrite freshMetrics_fold.
  pose proof (cacheStep_count_sum t charsInOrder (0, 0, [])) as [H1 H2].
  pose proof (cacheStep_fits ((λ c, (c, problems t !!! c)) <$> charsInOrder) (0, 0, [])) as H3.
  destruct (foldl _ _ _) as [[cs cp] ct]. cbn [fst snd] in *.
  unfold solvedCountOf, penaltyOf, solvedLetters. split; [lia|].
  rewrite <- (wrapInt_small cp) by (apply H3; unfold fitsInt; lia).
  rewrite H2. f_equal.
Qed.

Lemma resolveAt_fst p t : (resolveAt p t).1 = (resolveProblem (problems t !!! p)).2.
Proof.
  unfold resolveAt. rewrite (surjective_pairing (problemAt p t)), problemAt_fst.
  by destruct (resolveProblem _).
Qed.

Lemma resolveAt_view p t c :
  problems (resolveAt p t).2 !!! c =
  if decide (p = c) then (resolveProblem (problems t !!! p)).1 else problems t !!! c.
Proof.
  unfold resolveAt. rewrite (surjective_pairing (problemAt p t)), problemAt_fst.
  destruct (resolveProblem _) as [ps' ch]. cbn [snd problems setProblems problemAt fst].
  case_decide as H.
  - subst. by rewrite lookup_total_insert_eq.
  - by rewrite !lookup_total_insert_ne.
Qed.

Lemma registered_insert s n t' :
  is_Some (teams s !! n) → registered s →
  registered (setTeams s (<[n := t']> (teams s))).
Proof.
  intros Hn Hreg k Hk. cbn in *. destruct (decide (n = k)) as [->|Hne].
  - rewrite lookup_insert_eq. eauto.
  - rewrite lookup_insert_ne by done. by apply Hreg.
Qed.

Lemma bind_get {B} (k : ICPCSystem → M B) s : bind get k s = k s s.
Proof. done. Qed.

Lemma bind_modify {B} f (k : unit → M B) s : bind (modify f) k s = k tt (f s).
Proof. done. Qed.

Lemma bind_ret {A B} (a : A) (k : A → M B) s : bind (ret a) k s = k a s.
Proof. done. Qed.

(** ** Problem statuses across a step *)

Lemma viewsRelated_ext f g s s' :
  (∀ n c ps, f n c ps = g n c ps) → viewsRelated f s s' → viewsRelated g s s'.
Proof.
  intros Hfg [H ? ? ?]. split; try done. intros n.
  destruct (H n) as [a b Hab|]; constructor. intros c. by rewrite Hab.
Qed.

Lemma viewsRelated_trans f g s1 s2 s3 :
  viewsRelated f s1 s2 → viewsRelated g s2 s3 →
  viewsRelated (λ n c ps, g n c (f n c ps)) s1 s3.
Proof.
  intros [H12 ? ? ?] [H23 ? ? ?]. split; try congruence. intros n.
  specialize (H12 n). specialize (H23 n).
  destruct H12 as [a b Hab|]; inversion H23 as [b' c' Hbc|]; simplify_eq; constructor.
  intros c. by rewrite Hbc, Hab.
Qed.

Lemma storeEquiv_views s s' : storeEquiv s s' → viewsRelated (λ _ _ ps, ps) s s'.
Proof.
  intros [H ? ? ?]. split; try done. intros n.
  destruct (H n) as [a b [_ Hab]|]; constructor. intros c. by rewrite Hab.
Qed.

Lemma viewsRelated_insert (f : ascii → ProblemStatus → ProblemStatus) s t a b :
  teams s !! t = Some a →
  (∀ c, problems b !!! c = f c (problems a !!! c)) →
  viewsRelated (λ n c ps, if decide (n = t) then f c ps else ps)
               s (setTeams s (<[t := b]> (teams s))).
Proof.
  intros Ha Hb. split; try done. intros n. cbn. destruct (decide (t = n)) as [->|Hne].
  - rewrite lookup_insert_eq, Ha. constructor. intros c. by rewrite decide_True.
  - rewrite lookup_insert_ne by done. destruct (teams s !! n); constructor.
    intros c. by rewrite decide_False.
Qed.

Lemma viewsRelated_lookup f s s' n a :
  viewsRelated f s s' → teams s !! n = Some a →
  ∃ b, teams s' !! n = Some b ∧ ∀ c, problems b !!! c = f n c (problems a !!! c).
Proof. intros [H _ _ _] Hn. specialize (H n). rewrite Hn in H. inversion H. eauto. Qed.

Lemma viewsRelated_is_Some f s s' n :
  viewsRelated f s s' → is_Some (teams s !! n) ↔ is_Some (teams s' !! n).
Proof. intros [H _ _ _]. specialize (H n). destruct H; split; intros [? ?]; eauto; done. Qed.

Lemma resolvedAt_compose t p s s1 s' (tm1 tm3 : Team) :
  storeEquiv s s1 →
  teams s1 !! t = Some tm1 →
  (∀ c, problems tm3 !!! c =
        if decide (p = c) then (resolveProblem (problems tm1 !!! p)).1 else problems tm1 !!! c) →
  storeEquiv (setTeams s1 (<[t := tm3]> (teams s1))) s' →
  resolvedAt t p s s'.
Proof.
  intros E1 Htm1 Hv E3. unfold resolvedAt.
  pose proof (viewsRelated_trans _ _ _ _ _
                (viewsRelated_trans _ _ _ _ _ (storeEquiv_views _ _ E1)
                   (viewsRelated_insert (λ c ps, if decide (p = c)
                                                 then (resolveProblem (problems tm1 !!! p)).1
                                                 else ps) s1 t tm1 tm3 Htm1 Hv))
                (storeEquiv_views _ _ E3)) as H.
  destruct H as [H ? ? ?]. split; try done. intros n.
  destruct (storeEquiv_lookup_inv s s1 t tm1 E1 Htm1) as (tm & Htm & [_ V]).
  specialize (H n). destruct (teams s !! n) as [a|] eqn:Ha;
    inversion H as [a' b Hab|]; subst; constructor.
  intros c. rewrite Hab. unfold resolveOne.
  destruct (decide (n = t)) as [->|Hne].
  - assert (a = tm) as -> by congruence.
    destruct (decide (p = c)) as [->|Hpc].
    + rewrite decide_True by done. by rewrite V.
    + rewrite decide_False; [done|]. intros [_ ?]. done.
  - rewrite decide_False; [done|]. intros [? _]. done.
Qed.

Lemma scrollStep_changed (s s1 : ICPCSystem) t p tm :
  registered s →
  selectTarget s = Ok (Some (t, p), s1) →
  teams s !! t = Some tm →
  (resolveProblem (problems tm !!! p)).2 = true →
  ∃ out s' tm' above passed below,
    scrollStep s = Ok (Some out, s') ∧
    registered s' ∧ resolvedAt t p s s' ∧
    teams s' !! t = Some tm' ∧
    problems tm' !!! p = (resolveProblem (problems tm !!! p)).1 ∧
    metricsOf tm' = freshMetrics tm' ∧
    ranking s = above ++ passed ++ t :: below ∧
    indexOf t (ranking s) = Some (length (above ++ passed)) ∧
    ranking s' = above ++ t :: passed ++ below ∧
    indexOf t (ranking s') = Some (length above) ∧
    Forall (before s' t) passed ∧
    (∀ x, last above = Some x → ¬ before s' t x) ∧
    out = match passed with
          | [] => []
          | x :: _ => [rankChangeLine t x (metricsOf tm').1.1 (metricsOf tm').1.2]
          end.
Proof.
  intros Hreg Hsel Htm Hch.
  destruct (quiet_selectTarget _ _ _ Hsel) as [E1 R1].
  pose proof (selectTarget_elem _ _ _ _ Hsel) as Hin.
  destruct (storeEquiv_lookup _ _ _ _ E1 Htm) as (tm1 & Htm1 & [_ V1]).
  destruct (indexOf_elem _ _ Hin) as [old Hold].
  destruct (indexOf_split _ _ _ Hold) as (Hsplit & Hlen & Hnot).
  (* the resolution *)
  set (tm2 := (resolveAt p tm1).2).
  set (s2 := setTeams s1 (<[t := tm2]> (teams s1))).
  assert (onTeam t (resolveAt p) s1 = Ok (true, s2)) as Hres.
  { rewrite (onTeam_Some _ _ _ _ Htm1), resolveAt_fst, <- V1, Hch. done. }
  set (tm3 := invalidateCache tm2).
  set (s3 := setTeams s2 (<[t := tm3]> (teams s2))).
  assert (teams s2 !! t = Some tm2) as Htm2 by (cbn; apply lookup_insert_eq).
  assert (teams s3 !! t = Some tm3) as Htm3 by (cbn; apply lookup_insert_eq).
  assert (onTeam t (λ t0, (tt, invalidateCache t0)) s2 = Ok (tt, s3)) as Hinv.
  { by rewrite (onTeam_Some _ _ _ _ Htm2). }
  assert (registered s3) as Hreg3.
  { apply registered_insert; [by eauto|]. apply registered_insert; [by eauto|].
    by apply (storeEquiv_registered s). }
  assert (ranking s3 = ranking s) as R3 by done.
  (* the search for the new position *)
  destruct (findNewRank_spec t s3 old Hreg3) as (new & s4 & Hfind & E4 & R4 & Hle & Hpassed & Hstop).
  { eauto. }
  { rewrite R3. apply indexOf_Some in Hold as [Hold _]. apply lookup_lt_Some in Hold. lia. }
  destruct (storeEquiv_lookup _ _ _ _ E4 Htm3) as (tm4 & Htm4 & [M4 V4]).
  rewrite R3 in Hpassed, Hstop.
  set (above := take new (ranking s)) in *.
  set (passed := drop new (take old (ranking s))) in *.
  set (below := drop (S old) (ranking s)) in *.
  assert (take old (ranking s) = above ++ passed) as Htake.
  { unfold above, passed. rewrite <- (take_drop new (take old (ranking s))) at 1.
    by rewrite take_take, Nat.min_l by lia. }
  assert (length above = new) as Habove.
  { unfold above. rewrite length_take. apply indexOf_Some in Hold as [Hold _].
    apply lookup_lt_Some in Hold. lia. }
  assert (ranking s = above ++ passed ++ t :: below) as Hrank.
  { rewrite app_assoc, <- Htake. exact Hsplit. }
  assert (length (above ++ passed) = old) as Hold_len by (by rewrite <- Htake).
  assert (problems tm3 !!! p = (resolveProblem (problems tm !!! p)).1) as Hp3.
  { unfold tm3, tm2. cbn [invalidateCache problems]. rewrite resolveAt_view, decide_True by done.
    by rewrite V1. }
  assert (metricsOf tm3 = freshMetrics tm3) as Hm3 by (by apply metricsOf_invalid).
  assert (freshMetrics tm4 = freshMetrics tm3) as Hf4 by (by apply freshMetrics_view).
  assert (s3 = setTeams s1 (<[t := tm3]> (teams s1))) as Hs3.
  { unfold s3, s2, setTeams. cbn. f_equal. apply insert_insert_eq. }
  assert (∀ c, problems tm3 !!! c =
               if decide (p = c) then (resolveProblem (problems tm1 !!! p)).1
               else problems tm1 !!! c) as Hv3.
  { intros c. unfold tm3, tm2. cbn [invalidateCache problems]. apply resolveAt_view. }
  (* the pass *)
  unfold scrollStep.
  rewrite (bind_eq _ _ _ _ _ Hsel); cbv beta iota.
  rewrite bind_get.
  rewrite (bind_eq _ _ _ _ _ Hres); cbv beta. cbn [negb].
  rewrite (bind_eq _ _ _ _ _ Hinv); cbv beta.
  rewrite R1, Hold. change (default O (Some old)) with old.
  rewrite (bind_eq _ _ _ _ _ Hfind); cbv beta.
  destruct (Nat.ltb_spec new old) as [Hlt|Hge].
  - (* the position changes *)
    destruct passed as [|x passed'] eqn:Hp.
    { rewrite app_nil_r in Hold_len. lia. }
    rewrite bind_modify.
    set (s5 := setRanking s4 (insertAt new t (eraseAt old (ranking s4)))).
    assert (ranking s5 = above ++ t :: x :: passed' ++ below) as R5.
    { unfold s5. cbn [ranking setRanking]. rewrite R4, R3, Hrank, <- Hold_len, <- Habove.
      apply move_up. }
    assert (ranking s5 !! (new + 1)%nat = Some x) as Hbelow.
    { rewrite R5, <- Habove. rewrite lookup_app_r by lia.
      by replace (length above + 1 - length above)%nat with 1%nat by lia. }
    rewrite (bind_eq _ _ _ _ _ (rankingAt_Some _ _ _ Hbelow)); cbv beta.
    assert (teams s5 !! t = Some tm4) as Htm5 by done.
    rewrite (bind_eq _ _ _ _ _ (onTeam_getSolvedCount _ _ _ Htm5)); cbv beta.
    assert (teams (cacheTeam t s5) !! t = Some (updateCache tm4)) as Htm6.
    { rewrite cacheTeam_lookup, decide_True by done. by rewrite Htm5. }
    rewrite (bind_eq _ _ _ _ _ (onTeam_getPenaltyTime _ _ _ Htm6)); cbv beta.
    rewrite (cacheTeam_valid t (cacheTeam t s5) _ Htm6 (updateCache_valid _)).
    rewrite updateCache_idemp.
    assert (storeEquiv s3 (cacheTeam t s5)) as E6.
    { etrans; [exact E4|]. etrans; [|apply storeEquiv_cacheTeam]. by split. }
    exists [rankChangeLine t x (cachedSolved (updateCache tm4)) (cachedPenalty (updateCache tm4))],
      (cacheTeam t s5), (updateCache tm4), above, (x :: passed'), below.
    split; [done|].
    split.
    { intros n Hn. change (ranking (cacheTeam t s5)) with (ranking s5) in Hn.
      apply (storeEquiv_is_Some _ _ _ E6), Hreg3. rewrite R3, Hrank.
      rewrite R5 in Hn. rewrite elem_of_app, elem_of_cons, elem_of_cons, elem_of_app in Hn.
      rewrite elem_of_app, elem_of_app, elem_of_cons, elem_of_cons. tauto. }
    split; [by apply (resolvedAt_compose t p s s1 _ tm1 tm3 E1 Htm1 Hv3); rewrite <- Hs3|].
    split; [done|]. split; [by rewrite updateCache_problems, <- V4|].
    split.
    { rewrite metricsOf_updateCache, <- M4, Hm3, <- Hf4.
      apply freshMetrics_view. intros c. by rewrite updateCache_problems. }
    split; [done|]. split; [by rewrite Hold_len|]. split; [done|].
    split.
    { change (ranking (cacheTeam t s5)) with (ranking s5). rewrite R5.
      apply indexOf_first. intros Hin'. apply Hnot. rewrite Htake. apply elem_of_app. by left. }
    split.
    { eapply Forall_impl; [exact Hpassed|]. intros y.
      exact (proj1 (storeEquiv_before s3 (cacheTeam t s5) t y E6)). }
    split.
    { intros y Hy Hb. apply (Hstop y Hy).
      exact (proj2 (storeEquiv_before s3 (cacheTeam t s5) t y E6) Hb). }
    unfold metricsOf. by rewrite updateCache_idemp.
  - (* the position stays *)
    assert (new = old) as -> by lia.
    assert (passed = []) as Hp.
    { unfold passed. apply drop_ge. rewrite length_take. lia. }
    rewrite Hp in *. rewrite app_nil_r in *. cbn [app] in *.
    exists [], s4, tm4, above, [], below.
    split; [done|]. split; [by apply (storeEquiv_registered s3)|].
    split; [by apply (resolvedAt_compose t p s s1 _ tm1 tm3 E1 Htm1 Hv3); rewrite <- Hs3|].
    split; [done|]. split; [by rewrite <- V4|].
    split; [by rewrite <- M4, Hm3, Hf4|].
    split; [done|]. split; [by rewrite app_nil_r, Habove|]. split; [by rewrite R4, R3|].
    split.
    { rewrite R4, R3, Hrank. apply indexOf_first. by rewrite <- Htake. }
    split; [by constructor|]. split; [|done].
    intros y Hy Hb. apply (Hstop y Hy).
    exact (proj2 (storeEquiv_before s3 s4 t y E4) Hb).
Qed.

Lemma scrollStep_unchanged (s s1 : ICPCSystem) t p tm :
  registered s →
  selectTarget s = Ok (Some (t, p), s1) →
  teams s !! t = Some tm →
  (resolveProblem (problems tm !!! p)).2 = false →
  ∃ s', scrollStep s = Ok (Some [], s') ∧
        registered s' ∧ resolvedAt t p s s' ∧ ranking s' = ranking s.
Proof.
  intros Hreg Hsel Htm Hch.
  destruct (quiet_selectTarget _ _ _ Hsel) as [E1 R1].
  destruct (storeEquiv_lookup _ _ _ _ E1 Htm) as (tm1 & Htm1 & [_ V1]).
  set (tm2 := (resolveAt p tm1).2).
  set (s2 := setTeams s1 (<[t := tm2]> (teams s1))).
  assert (onTeam t (resolveAt p) s1 = Ok (false, s2)) as Hres.
  { rewrite (onTeam_Some _ _ _ _ Htm1), resolveAt_fst, <- V1, Hch. done. }
  exists s2. split.
  { unfold scrollStep. rewrite (bind_eq _ _ _ _ _ Hsel); cbv beta iota.
    rewrite bind_get. by rewrite (bind_eq _ _ _ _ _ Hres). }
  split.
  { apply registered_insert; [by eauto|]. by apply (storeEquiv_registered s). }
  split; [|done].
  apply (resolvedAt_compose t p s s1 s2 tm1 tm2 E1 Htm1); [|done].
  intros c. apply resolveAt_view.
Qed.

Lemma scrollStep_break (s s1 : ICPCSystem) :
  selectTarget s = Ok (None, s1) → scrollStep s = Ok (None, s1).
Proof. intros Hsel. unfold scrollStep. by rewrite (bind_eq _ _ _ _ _ Hsel). Qed.

(** The candidate of the inner search is the sentinel or a contest letter
    with a frozen attempt, whatever the number of problems. *)
Lemma scan_candidate t l acc :
  (acc.1 = charOfInt 91 ∨ ∃ j, acc.1 = problemLetter j ∧ frozenAt t j) →
  (∀ c, problems acc.2 !!! c = problems t !!! c) →
  (foldl scanStep acc l).1 = charOfInt 91 ∨
  ∃ j, (foldl scanStep acc l).1 = problemLetter j ∧ frozenAt t j.
Proof.
  revert acc. induction l as [|j l IH]; intros acc Hacc Hview; [done|].
  cbn [foldl]. apply IH.
  - destruct acc as [sm t1]. unfold scanStep.
    rewrite (surjective_pairing (problemAt _ _)), problemAt_fst. cbn [fst snd] in *.
    rewrite Hview.
    destruct (Z.ltb_spec 0 (frozenSubmissions (problems t !!! problemLetter j))) as [Hf|]; [|done].
    unfold charMin. destruct (_ <? _); [|done]. right. by exists j.
  - intros c. destruct (scanStep_teamEquiv acc j) as [_ <-]. apply Hview.
Qed.

Lemma findFrozen_total names s :
  (∀ n, n ∈ names → is_Some (teams s !! n)) →
  ∃ r s', findFrozen names s = Ok (r, s') ∧
    match r with
    | Some (t, p) => ∃ tm, teams s !! t = Some tm ∧ 0 < frozenSubmissions (problems tm !!! p)
    | None => True
    end.
Proof.
  revert s. induction names as [|n names IH]; intros s Hreg.
  - by exists None, s.
  - destruct (Hreg n) as [t Ht]; [by left|].
    cbn [findFrozen]. rewrite bind_get.
    pose proof (onTeam_Some n (scanTeam (problemCount s)) s t Ht) as Hscan.
    rewrite (bind_eq _ _ _ _ _ Hscan); cbv beta.
    set (s1 := setTeams s _) in *.
    assert (storeEquiv s s1) as E1.
    { eapply (storeEquiv_onTeam n (scanTeam (problemCount s))); [|exact Hscan].
      intros. apply scanTeam_teamEquiv. }
    destruct (Z.leb_spec (charVal (scanTeam (problemCount s) t).1) (charVal "Z")) as [Hle|Hgt].
    + eexists (Some (n, _)), s1. split; [done|]. exists t. split; [done|].
      destruct (scan_candidate t (indices (problemCount s)) (charOfInt 91, t)) as [Hs|(j & Hj & Hf)];
        [by left|done| |].
      * unfold scanTeam in Hle. rewrite Hs, charVal_sentinel, charVal_Z in Hle. lia.
      * unfold scanTeam. by rewrite Hj.
    + destruct (IH s1) as (r & s' & Hr & Hprop).
      { intros n' Hn'. apply (storeEquiv_is_Some _ _ _ E1), Hreg. by right. }
      exists r, s'. split; [done|]. destruct r as [[t0 p]|]; [|done].
      destruct Hprop as (tm & Htm & Hf).
      destruct (storeEquiv_lookup_inv _ _ _ _ E1 Htm) as (tm0 & Htm0 & [_ V]).
      exists tm0. split; [done|]. by rewrite V.
Qed.

Lemma selectTarget_total s :
  registered s →
  ∃ r s', selectTarget s = Ok (r, s') ∧
    match r with
    | Some (t, p) => ∃ tm, teams s !! t = Some tm ∧ 0 < frozenSubmissions (problems tm !!! p)
    | None => True
    end.
Proof.
  intros Hreg. unfold selectTarget. rewrite bind_get. apply findFrozen_total.
  intros n Hn. apply Hreg. by apply elem_of_reverse.
Qed.

(** C4.  When a pass of the scroll loop resolves a problem that becomes
    solved, the resolution is applied and the metrics are recomputed; the
    team moves in front of the run of teams just above it that it now
    beats, and stops below the first team it does not beat.  Exactly one
    record is printed when that run is not empty, that is when the
    position changed: the line made of the name of the team, the name of
    the team now immediately below, the new solved count (the number of
    its solved problems) and the new penalty (the [int] value of the sum
    over them of solve time plus 20 per wrong attempt), in decimal and
    separated by single spaces.  When the run is empty the scoreboard is
    unchanged and nothing is printed. *)
Theorem scrollStep_moves_up_and_reports (s s1 : ICPCSystem) t p tm :
  registered s →
  selectTarget s = Ok (Some (t, p), s1) →
  teams s !! t = Some tm →
  (resolveProblem (problems tm !!! p)).2 = true →
  ∃ out s' tm' above passed below,
    scrollStep s = Ok (Some out, s') ∧
    teams s' !! t = Some tm' ∧
    problems tm' !!! p = (resolveProblem (problems tm !!! p)).1 ∧
    metricsOf tm' = freshMetrics tm' ∧
    ranking s = above ++ passed ++ t :: below ∧
    indexOf t (ranking s) = Some (length (above ++ passed)) ∧
    ranking s' = above ++ t :: passed ++ below ∧
    indexOf t (ranking s') = Some (length above) ∧
    Forall (before s' t) passed ∧
    (∀ x, last above = Some x → ¬ before s' t x) ∧
    (metricsOf tm').1.1 = solvedCountOf tm' ∧
    (metricsOf tm').1.2 = wrapInt (penaltyOf tm') ∧
    out = match passed with
          | [] => []
          | x :: _ =>
              [t +:+ " " +:+ x
                 +:+ " " +:+ NilZero.string_of_int (Z.to_int (metricsOf tm').1.1)
                 +:+ " " +:+ NilZero.string_of_int (Z.to_int (metricsOf tm').1.2)]
          end.
Proof.
  intros Hreg Hsel Htm Hch.
  destruct (scrollStep_changed s s1 t p tm Hreg Hsel Htm Hch)
    as (out & s' & tm' & above & passed & below & H1 & _ & _ & H2 & H3 & H4 & H5 & H6 & H7
        & H8 & H9 & H10 & Hout).
  exists out, s', tm', above, passed, below.
  destruct (freshMetrics_spec tm') as [Hcount Hpen]. rewrite <- H4 in Hcount, Hpen.
  split_and!; try done.
Qed.

Lemma scrollStep_moves_up_and_reports_witness :
  ∃ out s' tm' above passed below,
    scrollStep (stateAfter scrollTrace) = Ok (Some out, s') ∧
    teams s' !! "bob" = Some tm' ∧
    problems tm' !!! "B"%char =
      (resolveProblem (problems (default (newTeam "bob") (teams (stateAfter scrollTrace) !! "bob"))
                         !!! "B"%char)).1 ∧
    metricsOf tm' = freshMetrics tm' ∧
    ranking (stateAfter scrollTrace) = above ++ passed ++ "bob" :: below ∧
    indexOf "bob" (ranking (stateAfter scrollTrace)) = Some (length (above ++ passed)) ∧
    ranking s' = above ++ "bob" :: passed ++ below ∧
    indexOf "bob" (ranking s') = Some (length above) ∧
    Forall (before s' "bob") passed ∧
    (∀ x, last above = Some x → ¬ before s' "bob" x) ∧
    (metricsOf tm').1.1 = solvedCountOf tm' ∧
    (metricsOf tm').1.2 = wrapInt (penaltyOf tm') ∧
    out = match passed with
          | [] => []
          | x :: _ =>
              ["bob" +:+ " " +:+ x
                 +:+ " " +:+ NilZero.string_of_int (Z.to_int (metricsOf tm').1.1)
                 +:+ " " +:+ NilZero.string_of_int (Z.to_int (metricsOf tm').1.2)]
          end.
Proof.
  apply (scrollStep_moves_up_and_reports (stateAfter scrollTrace) scrollTraceSelected
           "bob" "B"%char
           (default (newTeam "bob") (teams (stateAfter scrollTrace) !! "bob"))).
  - apply (bool_decide_unpack (registered (stateAfter scrollTrace))). vm_compute. reflexivity.
  - vm_compute. reflexivity.
  - vm_compute. reflexivity.
  - vm_compute. reflexivity.
Defined.

Example scrollStep_scrollTrace :
  ∃ s', scrollStep (stateAfter scrollTrace) = Ok (Some ["bob ann 2 310"], s') ∧
        ranking s' = ["bob"; "ann"].
Proof. eexists. split; vm_compute; reflexivity. Qed.

(** ** The number of frozen (team, problem) pairs *)

Lemma frozenProblems_view t t' :
  (∀ c, problems t' !!! c = problems t !!! c) → frozenProblems t' = frozenProblems t.
Proof.
  intros H. unfold frozenProblems. f_equal. apply list_filter_iff. intros c. by rewrite H.
Qed.

Lemma filter_ext_in {A} (P Q : A → Prop)
    `{!∀ x, Decision (P x)} `{!∀ x, Decision (Q x)} (l : list A) :
  (∀ x, x ∈ l → (P x ↔ Q x)) → filter P l = filter Q l.
Proof.
  induction l as [|x l IH]; intros Hl; [done|]. rewrite !filter_cons.
  rewrite IH by (intros y Hy; apply Hl; by right).
  destruct (decide (P x)) as [HP|HP].
  - rewrite decide_True; [done|]. apply Hl; [by left|done].
  - rewrite decide_False; [done|]. intros HQ. apply HP. apply Hl; [by left|done].
Qed.

Lemma filter_one_less {A} `{!EqDecision A} (P Q : A → Prop)
    `{!∀ x, Decision (P x)} `{!∀ x, Decision (Q x)}
    (l : list A) (p : A) :
  NoDup l → p ∈ l → P p → ¬ Q p → (∀ c, c ≠ p → (P c ↔ Q c)) →
  length (filter P l) = S (length (filter Q l)).
Proof.
  intros Hnd Hin HP HQ Hother. induction l as [|x l IH]; [by apply elem_of_nil in Hin|].
  apply NoDup_cons in Hnd as [Hx Hnd]. rewrite !filter_cons.
  destruct (decide (x = p)) as [->|Hne].
  - rewrite decide_True, decide_False by done. cbn. f_equal. f_equal.
    apply filter_ext_in. intros c Hc. apply Hother. intros ->. done.
  - apply elem_of_cons in Hin as [->|Hin]; [done|]. specialize (IH Hnd Hin).
    destruct (decide (P x)) as [HPx|HPx].
    + rewrite decide_True by (by apply Hother). cbn. by rewrite IH.
    + rewrite decide_False; [done|]. intros HQx. apply HPx. by apply Hother.
Qed.

Lemma resolveProblem_clears ps : frozenSubmissions (resolveProblem ps).1 = 0.
Proof. unfold resolveProblem. by destruct (foldl _ _ _). Qed.

Lemma frozenProblems_resolved t t' p :
  0 < frozenSubmissions (problems t !!! p) →
  (∀ c, problems t' !!! c =
        if decide (c = p) then (resolveProblem (problems t !!! c)).1 else problems t !!! c) →
  frozenProblems t = S (frozenProblems t').
Proof.
  intros Hf Hv. unfold frozenProblems.
  apply (filter_one_less _ _ charsInOrder p).
  - apply NoDup_charsInOrder.
  - apply elem_of_charsInOrder.
  - done.
  - rewrite Hv, decide_True by done. rewrite resolveProblem_clears. lia.
  - intros c Hc. by rewrite Hv, decide_False.
Qed.

Lemma sum_insert (m : gmap string nat) k v v0 :
  m !! k = Some v0 →
  (map_fold (λ _ k n, (k + n)%nat) O (<[k := v]> m) + v0 =
   map_fold (λ _ k n, (k + n)%nat) O m + v)%nat.
Proof.
  intros Hk.
  rewrite (map_fold_delete_L _ _ k v0 m); [|intros; lia|done].
  rewrite <- (insert_delete_eq m k v).
  rewrite map_fold_insert_L; [lia|intros; lia|apply lookup_delete_eq].
Qed.

Lemma frozenPairs_views s s' :
  viewsRelated (λ _ _ ps, ps) s s' → frozenPairs s' = frozenPairs s.
Proof.
  intros [H _ _ _]. unfold frozenPairs. f_equal. apply map_eq. intros n.
  rewrite !lookup_fmap. destruct (H n) as [a b Hab|]; [|done]. cbn. f_equal.
  by apply frozenProblems_view.
Qed.

Lemma frozenPairs_storeEquiv s s' : storeEquiv s s' → frozenPairs s' = frozenPairs s.
Proof. intros H. by apply frozenPairs_views, storeEquiv_views. Qed.

Lemma frozenPairs_resolved s s' t p tm :
  resolvedAt t p s s' → teams s !! t = Some tm →
  0 < frozenSubmissions (problems tm !!! p) →
  frozenPairs s = S (frozenPairs s').
Proof.
  intros [H _ _ _] Htm Hf. unfold frozenPairs.
  pose proof (H t) as Ht. rewrite Htm in Ht. inversion Ht as [a tm' Hv Ha Htm'|]; subst.
  assert (frozenProblems <$> teams s' = <[t := frozenProblems tm']> (frozenProblems <$> teams s)) as ->.
  { apply map_eq. intros n. destruct (decide (t = n)) as [->|Hne].
    - by rewrite lookup_insert_eq, lookup_fmap, <- Htm'.
    - rewrite lookup_insert_ne by done. rewrite !lookup_fmap.
      destruct (H n) as [a b Hab|]; [|done]. cbn. f_equal. apply frozenProblems_view.
      intros c. rewrite Hab. unfold resolveOne. rewrite decide_False; [done|]. intros [? _]. done. }
  pose proof (sum_insert (frozenProblems <$> teams s) t (frozenProblems tm') (frozenProblems tm)) as Hs.
  rewrite lookup_fmap, Htm in Hs. specialize (Hs eq_refl).
  rewrite (frozenProblems_resolved tm tm' p Hf) in Hs.
  - lia.
  - intros c. rewrite Hv. unfold resolveOne. destruct (decide (c = p)) as [->|Hne].
    + by rewrite decide_True.
    + rewrite decide_False; [done|]. intros [_ ?]. done.
Qed.

(** ** Solved problems across a step *)

#[global] Instance solvedKept_preorder : PreOrder solvedKept.
Proof.
  split.
  - intros s n tm c Hn. exists tm. by split.
  - intros s1 s2 s3 H12 H23 n tm c Hn.
    destruct (H12 n tm c Hn) as (tm2 & Hn2 & K12).
    destruct (H23 n tm2 c Hn2) as (tm3 & Hn3 & K23).
    exists tm3. split; [done|]. intros Hs. destruct (K12 Hs) as (Hs2 & E1 & E2).
    destruct (K23 Hs2) as (? & E3 & E4). split; [done|]. split; congruence.
Qed.

Lemma viewsRelated_solvedKept f s s' :
  (∀ n c ps, keepsSolved ps (f n c ps)) → viewsRelated f s s' → solvedKept s s'.
Proof.
  intros Hf Hv n tm c Hn. destruct (viewsRelated_lookup _ _ _ _ _ Hv Hn) as (tm' & Hn' & Hc).
  exists tm'. split; [done|]. rewrite Hc. apply Hf.
Qed.

Lemma storeEquiv_solvedKept s s' : storeEquiv s s' → solvedKept s s'.
Proof.
  intros H. apply (viewsRelated_solvedKept (λ _ _ ps, ps)); [|by apply storeEquiv_views].
  by intros n c ps Hs.
Qed.

Lemma resolveOne_keepsSolved t p n c ps : keepsSolved ps (resolveOne t p n c ps).
Proof.
  unfold resolveOne. case_decide; [|done]. intros Hs. by rewrite (resolveProblem_solved _ Hs).
Qed.

Lemma resolvedAt_solvedKept t p s s' : resolvedAt t p s s' → solvedKept s s'.
Proof. apply viewsRelated_solvedKept. intros n c ps. apply resolveOne_keepsSolved. Qed.

(** ** Termination of the scroll loop *)

(** A pass either leaves the loop, having changed no problem status, or
    resolves one frozen problem status of a registered team. *)
Lemma scrollStep_effect s :
  registered s →
  ∃ r s', scrollStep s = Ok (r, s') ∧ registered s' ∧
    match r with
    | None => storeEquiv s s' ∧ ranking s' = ranking s
    | Some _ => ∃ t p tm, teams s !! t = Some tm ∧
                          0 < frozenSubmissions (problems tm !!! p) ∧ resolvedAt t p s s'
    end.
Proof.
  intros Hreg. destruct (selectTarget_total s Hreg) as (r & s1 & Hsel & Hr).
  destruct r as [[t p]|].
  - destruct Hr as (tm & Htm & Hf).
    destruct (resolveProblem (problems tm !!! p)).2 eqn:Hch.
    + destruct (scrollStep_changed s s1 t p tm Hreg Hsel Htm Hch)
        as (out & s' & tm' & above & passed & below & Hstep & Hreg' & Hres & _).
      exists (Some out), s'. split; [done|]. split; [done|]. by exists t, p, tm.
    + destruct (scrollStep_unchanged s s1 t p tm Hreg Hsel Htm Hch)
        as (s' & Hstep & Hreg' & Hres & _).
      exists (Some []), s'. split; [done|]. split; [done|]. by exists t, p, tm.
  - exists None, s1. split; [by apply scrollStep_break|].
    destruct (quiet_selectTarget _ _ _ Hsel) as [E R].
    split; [by apply (storeEquiv_registered s)|done].
Qed.

Lemma scrollLoop_S fuel s r s1 :
  scrollStep s = Ok (r, s1) →
  scrollLoop (S fuel) s =
  match r with
  | None => Ok (Some [], s1)
  | Some out => bind (scrollLoop fuel) (λ rest, ret ((λ l, out ++ l) <$> rest)) s1
  end.
Proof. intros H. cbn [scrollLoop]. rewrite (bind_eq _ _ _ _ _ H). by destruct r. Qed.

Lemma scrollLoop_passes s :
  registered s →
  ∃ (passes : nat) out s',
    (frozenPairs s' + passes = frozenPairs s)%nat ∧
    registered s' ∧ solvedKept s s' ∧
    frozen s' = frozen s ∧ started s' = started s ∧ problemCount s' = problemCount s ∧
    (∀ fuel, (passes < fuel)%nat → scrollLoop fuel s = Ok (Some out, s')) ∧
    (∀ fuel, (fuel ≤ passes)%nat → ∃ s'', scrollLoop fuel s = Ok (None, s'')).
Proof.
  remember (frozenPairs s) as k eqn:Hk. revert s Hk.
  induction k as [k IH] using lt_wf_ind. intros s Hk Hreg.
  destruct (scrollStep_effect s Hreg) as (r & s1 & Hstep & Hreg1 & Hr).
  destruct r as [out|].
  - destruct Hr as (t & p & tm & Htm & Hf & Hres).
    pose proof (frozenPairs_resolved _ _ _ _ _ Hres Htm Hf) as Hdec.
    destruct (IH (frozenPairs s1)) with (s := s1)
      as (passes & rest & s' & Hsum & Hreg' & Hkept & Hfr & Hst & Hpc & Hdone & Hshort);
      [lia|done|done|].
    exists (S passes), (out ++ rest), s'. split; [lia|]. split; [done|].
    split; [etrans; [by eapply resolvedAt_solvedKept|done]|].
    destruct Hres as [_ ? ? ?]. split; [congruence|]. split; [congruence|]. split; [congruence|].
    split.
    + intros [|fuel] Hfuel; [lia|]. rewrite (scrollLoop_S _ _ _ _ Hstep).
      by rewrite (bind_eq _ _ _ _ _ (Hdone fuel ltac:(lia))).
    + intros [|fuel] Hfuel; [by exists s|]. rewrite (scrollLoop_S _ _ _ _ Hstep).
      destruct (Hshort fuel ltac:(lia)) as [s'' Hs'']. exists s''.
      by rewrite (bind_eq _ _ _ _ _ Hs'').
  - destruct Hr as [E R]. exists O, [], s1. split; [|split; [done|]].
    { rewrite (frozenPairs_storeEquiv _ _ E). lia. }
    split; [by apply storeEquiv_solvedKept|].
    destruct E as [_ ? ? ?]. split; [done|]. split; [done|]. split; [done|]. split.
    + intros [|fuel] Hfuel; [lia|]. by rewrite (scrollLoop_S _ _ _ _ Hstep).
    + intros fuel Hfuel. assert (fuel = O) as -> by lia. by exists s.
Qed.

(** ** The replay within a pass *)

Lemma replay_submissions l ps changed :
  submissions (foldl replayStep (ps, changed) l).1 = submissions ps.
Proof.
  revert ps changed. induction l as [|x l IH]; intros ps changed; [done|].
  cbn [foldl]. unfold replayStep at 2. destruct (negb (solved ps)); [|apply IH].
  destruct (String.eqb _ _); by rewrite IH.
Qed.

Lemma resolveProblem_submissions ps : submissions (resolveProblem ps).1 = submissions ps.
Proof.
  unfold resolveProblem. pose proof (replay_submissions (frozenSubs ps) ps false) as H.
  by destruct (foldl _ _ _).
Qed.

Lemma scrollStep_resolves (s s1 : ICPCSystem) t p tm :
  registered s →
  selectTarget s = Ok (Some (t, p), s1) →
  teams s !! t = Some tm →
  ∃ out s' tm',
    scrollStep s = Ok (Some out, s') ∧ teams s' !! t = Some tm' ∧
    problems tm' !!! p = (resolveProblem (problems tm !!! p)).1 ∧
    ((resolveProblem (problems tm !!! p)).2 = false → out = []).
Proof.
  intros Hreg Hsel Htm. destruct (resolveProblem (problems tm !!! p)).2 eqn:Hch.
  - destruct (scrollStep_changed s s1 t p tm Hreg Hsel Htm Hch)
      as (out & s' & tm' & above & passed & below & Hstep & _ & _ & Htm' & Hp & _).
    by exists out, s', tm'.
  - destruct (scrollStep_unchanged s s1 t p tm Hreg Hsel Htm Hch)
      as (s' & Hstep & _ & Hres & _).
    destruct (viewsRelated_lookup _ _ _ _ _ Hres Htm) as (tm' & Htm' & Hv).
    exists [], s', tm'. split; [done|]. split; [done|]. split; [|done].
    rewrite Hv. unfold resolveOne. by rewrite decide_True.
Qed.

(** A pass of the scroll loop on an unsolved problem replays its
    [frozenSubs] in order, whatever the state it starts from. *)
Lemma scrollStep_replays (s s1 : ICPCSystem) t p tm :
  registered s →
  selectTarget s = Ok (Some (t, p), s1) →
  teams s !! t = Some tm →
  solved (problems tm !!! p) = false →
  ∃ out s' tm',
    scrollStep s = Ok (Some out, s') ∧ teams s' !! t = Some tm' ∧
    frozenSubmissions (problems tm' !!! p) = 0 ∧
    frozenSubs (problems tm' !!! p) = [] ∧
    submissions (problems tm' !!! p) = submissions (problems tm !!! p) ∧
    (∀ before sub after,
       frozenSubs (problems tm !!! p) = before ++ sub :: after →
       Forall (λ x, ¬ isAccepted x) before → isAccepted sub →
       solved (problems tm' !!! p) = true ∧
       solveTime (problems tm' !!! p) = time sub ∧
       wrongAttempts (problems tm' !!! p) =
         wrongAttempts (problems tm !!! p) + Z.of_nat (length before)) ∧
    (Forall (λ x, ¬ isAccepted x) (frozenSubs (problems tm !!! p)) →
       solved (problems tm' !!! p) = false ∧
       solveTime (problems tm' !!! p) = solveTime (problems tm !!! p) ∧
       wrongAttempts (problems tm' !!! p) =
         wrongAttempts (problems tm !!! p) + Z.of_nat (length (frozenSubs (problems tm !!! p))) ∧
       out = []).
Proof.
  intros Hreg Hsel Htm Hs.
  destruct (scrollStep_resolves s s1 t p tm Hreg Hsel Htm) as (out & s' & tm' & Hstep & Htm' & Hp & Hout).
  exists out, s', tm'. split; [done|]. split; [done|]. rewrite Hp.
  destruct (resolveProblem_spec (problems tm !!! p)) as ([Hc1 Hc2] & Hacc & Hrej).
  split; [done|]. split; [done|]. split.
  { apply resolveProblem_submissions. }
  split.
  - intros before sub after Hl Hb Hsub. by destruct (Hacc Hs before sub after Hl Hb Hsub) as (? & ? & ? & _).
  - intros Hall. destruct (Hrej Hs Hall) as (? & ? & ? & Hch). repeat split; try done. by apply Hout.
Qed.

Example scrollTraceTarget_resolved :
  frozenSubs (problems scrollTraceTarget !!! "B"%char) =
    [mkSubmission "B" "Wrong_Answer" 220; mkSubmission "B" "Accepted" 230] ∧
  resolveProblem (problems scrollTraceTarget !!! "B"%char) =
    (mkProblemStatus true 230 1 0
       [mkSubmission "B" "Wrong_Answer" 220; mkSubmission "B" "Accepted" 230] [], true).
Proof. split; vm_compute; reflexivity. Qed.

(** ** [flushScoreboard] and [printScoreboard] *)

Lemma insertRanked_total x l s :
  is_Some (teams s !! x) → (∀ n, n ∈ l → is_Some (teams s !! n)) →
  ∃ l' s', insertRanked x l s = Ok (l', s') ∧ storeEquiv s s' ∧
           ranking s' = ranking s ∧ l' ≡ₚ x :: l.
Proof.
  revert s. induction l as [|y l IH]; intros s Hx Hl.
  - by exists [x], s.
  - cbn [insertRanked].
    destruct (compareTeams_before y x s) as (r & s1 & Hcmp & _); [apply Hl; by left|done|].
    destruct (quiet_compareTeams _ _ _ _ _ Hcmp) as [E1 R1].
    rewrite (bind_eq _ _ _ _ _ Hcmp); cbv beta. destruct r.
    + destruct (IH s1) as (l' & s' & Hins & E & R & Hperm).
      { by apply (storeEquiv_is_Some _ _ _ E1). }
      { intros n Hn. apply (storeEquiv_is_Some _ _ _ E1), Hl. by right. }
      exists (y :: l'), s'. rewrite (bind_eq _ _ _ _ _ Hins); cbv beta.
      split; [done|]. split; [by etrans|]. split; [congruence|].
      rewrite Hperm. apply Permutation_swap.
    + by exists (x :: y :: l), s1.
Qed.

Lemma sortRanked_total l s :
  (∀ n, n ∈ l → is_Some (teams s !! n)) →
  ∃ l' s', sortRanked l s = Ok (l', s') ∧ storeEquiv s s' ∧
           ranking s' = ranking s ∧ l' ≡ₚ l.
Proof.
  revert s. induction l as [|x l IH]; intros s Hl.
  - by exists [], s.
  - cbn [sortRanked]. destruct (IH s) as (l1 & s1 & Hsort & E1 & R1 & P1).
    { intros n Hn. apply Hl. by right. }
    rewrite (bind_eq _ _ _ _ _ Hsort); cbv beta.
    destruct (insertRanked_total x l1 s1) as (l' & s' & Hins & E & R & Hperm).
    { apply (storeEquiv_is_Some _ _ _ E1), Hl. by left. }
    { intros n Hn. apply (storeEquiv_is_Some _ _ _ E1), Hl. right. by rewrite <- P1. }
    exists l', s'. split; [done|]. split; [by etrans|]. split; [congruence|].
    by rewrite Hperm, P1.
Qed.

Lemma elem_of_teamNames (m : gmap string Team) n : n ∈ teamNames m ↔ is_Some (m !! n).
Proof.
  unfold teamNames, sortStrings. rewrite (isort_Permutation String.ltb).
  rewrite list_elem_of_fmap. split.
  - intros ([k t] & -> & Hin). apply elem_of_map_to_list in Hin. by eexists.
  - intros [t Ht]. exists (n, t). split; [done|]. by apply elem_of_map_to_list.
Qed.

(** [flushScoreboard] always returns; it leaves a scoreboard that lists
    exactly the registered teams. *)
Lemma flushScoreboard_total s :
  ∃ s', flushScoreboard s = Ok (tt, s') ∧ storeEquiv s s' ∧
        ranking s' ≡ₚ teamNames (teams s) ∧ registered s'.
Proof.
  unfold flushScoreboard. rewrite bind_modify, bind_get.
  set (s0 := setRanking s (teamNames (teams s))).
  destruct (sortRanked_total (ranking s0) s0) as (l' & s1 & Hsort & E1 & R1 & P1).
  { intros n Hn. by apply elem_of_teamNames. }
  rewrite (bind_eq _ _ _ _ _ Hsort); cbv beta.
  exists (setRanking s1 l'). split; [done|].
  assert (storeEquiv s (setRanking s1 l')) as E.
  { destruct E1 as [? ? ? ?]. by split. }
  split; [done|]. split; [done|].
  intros n Hn. cbn in Hn. rewrite P1 in Hn. apply (storeEquiv_is_Some _ _ _ E).
  by apply elem_of_teamNames.
Qed.

Lemma printCell_teamEquiv b j t : teamEquiv t (printCell b j t).2.
Proof. unfold printCell. rewrite (surjective_pairing (problemAt _ _)). apply teamEquiv_problemAt. Qed.

Lemma getSolvedCount_teamEquiv t : teamEquiv t (getSolvedCount t).2.
Proof. apply teamEquiv_updateCache. Qed.

Lemma getPenaltyTime_teamEquiv t : teamEquiv t (getPenaltyTime t).2.
Proof. apply teamEquiv_updateCache. Qed.

Lemma onTeam_total {A} n (f : Team → A * Team) s :
  is_Some (teams s !! n) → (∀ t, teamEquiv t (f t).2) →
  ∃ a s', onTeam n f s = Ok (a, s') ∧ storeEquiv s s' ∧ ranking s' = ranking s.
Proof.
  intros [t Ht] Hf. eexists _, _. split; [by apply onTeam_Some|].
  eapply storeEquiv_onTeam; [exact Hf|]. by apply onTeam_Some.
Qed.

Lemma printCells_total n js s :
  is_Some (teams s !! n) →
  ∃ cells s', printCells n js s = Ok (cells, s') ∧ storeEquiv s s' ∧ ranking s' = ranking s.
Proof.
  revert s. induction js as [|j js IH]; intros s Hn.
  - by exists "", s.
  - cbn [printCells]. rewrite bind_get.
    destruct (onTeam_total n (printCell (frozen s) j) s Hn) as (cell & s1 & H1 & E1 & R1).
    { intros t. apply printCell_teamEquiv. }
    rewrite (bind_eq _ _ _ _ _ H1); cbv beta.
    destruct (IH s1) as (rest & s' & H2 & E2 & R2); [by apply (storeEquiv_is_Some _ _ _ E1)|].
    rewrite (bind_eq _ _ _ _ _ H2); cbv beta.
    eexists _, s'. split; [done|]. split; [by etrans|congruence].
Qed.

Lemma printRow_total n s :
  is_Some (teams s !! n) →
  ∃ out s', printRow n s = Ok (out, s') ∧ storeEquiv s s' ∧ ranking s' = ranking s.
Proof.
  intros Hn. unfold printRow. rewrite bind_get.
  destruct (onTeam_total n getSolvedCount s Hn getSolvedCount_teamEquiv) as (sc & s1 & H1 & E1 & R1).
  rewrite (bind_eq _ _ _ _ _ H1); cbv beta.
  assert (is_Some (teams s1 !! n)) as Hn1 by (by apply (storeEquiv_is_Some _ _ _ E1)).
  destruct (onTeam_total n getPenaltyTime s1 Hn1 getPenaltyTime_teamEquiv) as (pt & s2 & H2 & E2 & R2).
  rewrite (bind_eq _ _ _ _ _ H2); cbv beta.
  assert (is_Some (teams s2 !! n)) as Hn2 by (by apply (storeEquiv_is_Some _ _ _ E2)).
  destruct (printCells_total n (indices (problemCount s)) s2 Hn2) as (cells & s3 & H3 & E3 & R3).
  rewrite (bind_eq _ _ _ _ _ H3); cbv beta.
  eexists _, s3. split; [done|]. split; [by repeat (etrans; [eassumption|])|congruence].
Qed.

Lemma forEach_printRow_total l s :
  (∀ n, n ∈ l → is_Some (teams s !! n)) →
  ∃ out s', forEach printRow l s = Ok (out, s') ∧ storeEquiv s s' ∧ ranking s' = ranking s.
Proof.
  revert s. induction l as [|n l IH]; intros s Hl.
  - by exists [], s.
  - cbn [forEach]. destruct (printRow_total n s) as (out & s1 & H1 & E1 & R1); [apply Hl; by left|].
    rewrite (bind_eq _ _ _ _ _ H1); cbv beta.
    destruct (IH s1) as (rest & s' & H2 & E2 & R2).
    { intros k Hk. apply (storeEquiv_is_Some _ _ _ E1), Hl. by right. }
    rewrite (bind_eq _ _ _ _ _ H2); cbv beta.
    eexists _, s'. split; [done|]. split; [by etrans|congruence].
Qed.

Lemma printScoreboard_total s :
  registered s →
  ∃ out s', printScoreboard s = Ok (out, s') ∧ storeEquiv s s' ∧ ranking s' = ranking s.
Proof. intros Hreg. unfold printScoreboard. rewrite bind_get. by apply forEach_printRow_total. Qed.

(** [scroll] on a frozen scoreboard always returns: no pointer it follows
    is null, no index is out of range, and the fuel given to the loop is
    never used up.  It leaves the scoreboard unfrozen and changes no solved
    problem. *)
Lemma scroll_effect s :
  frozen s = true →
  ∃ out s', scroll s = Ok (out, s') ∧ solvedKept s s' ∧ registered s' ∧
            frozen s' = false ∧ started s' = started s ∧ problemCount s' = problemCount s.
Proof.
  intros Hfr. unfold scroll. rewrite bind_get, Hfr. cbn [negb].
  destruct (flushScoreboard_total s) as (s1 & H1 & E1 & _ & Hreg1).
  rewrite (bind_eq _ _ _ _ _ H1); cbv beta.
  destruct (printScoreboard_total s1 Hreg1) as (out1 & s2 & H2 & E2 & R2).
  rewrite (bind_eq _ _ _ _ _ H2); cbv beta. rewrite bind_get.
  assert (registered s2) as Hreg2 by (by apply (storeEquiv_registered s1)).
  destruct (scrollLoop_passes s2 Hreg2)
    as (passes & out & s3 & Hsum & Hreg3 & Hkept & Hfr3 & Hst3 & Hpc3 & Hdone & _).
  rewrite (bind_eq _ _ _ _ _ (Hdone (S (frozenPairs s2)) ltac:(lia))); cbv beta iota.
  rewrite bind_modify.
  destruct (printScoreboard_total (setFrozen s3 false)) as (out3 & s4 & H4 & E4 & R4); [done|].
  rewrite (bind_eq _ _ _ _ _ H4); cbv beta. eexists _, s4. split; [done|].
  assert (solvedKept s3 (setFrozen s3 false)) as K3.
  { intros n tm c Hn. exists tm. by split. }
  split.
  { etrans; [by apply storeEquiv_solvedKept|]. etrans; [by apply storeEquiv_solvedKept|].
    etrans; [exact Hkept|]. etrans; [exact K3|]. by apply storeEquiv_solvedKept. }
  split; [by apply (storeEquiv_registered (setFrozen s3 false))|].
  destruct E4 as [_ -> -> ->]. destruct E1 as [_ ? ? ?], E2 as [_ ? ? ?].
  cbn. split; [done|]. split; congruence.
Qed.

Lemma scroll_total s : ∃ out s', scroll s = Ok (out, s').
Proof.
  destruct (frozen s) eqn:Hfr.
  - destruct (scroll_effect s Hfr) as (out & s' & H & _). eauto.
  - unfold scroll. rewrite bind_get, Hfr. by eexists _, _.
Qed.

(** C10.  On a scoreboard of registered teams, a pass of the scroll loop
    either leaves the loop with the number of (team, problem) pairs with
    [frozenSubmissions > 0] unchanged, or clears one problem's frozen
    submissions and lowers that number by one.  Hence the loop ends: there
    is a number of resolving passes, at most the number of such pairs at
    the start, after which the loop is left; any fuel above it yields the
    same result, any fuel up to it runs out. *)
Theorem scrollLoop_terminates (s : ICPCSystem) :
  registered s →
  (∃ r s1, scrollStep s = Ok (r, s1) ∧
           match r with
           | None => frozenPairs s1 = frozenPairs s
           | Some _ => frozenPairs s = S (frozenPairs s1)
           end) ∧
  ∃ (passes : nat) out s',
    (passes ≤ frozenPairs s)%nat ∧
    (frozenPairs s' + passes = frozenPairs s)%nat ∧
    (∀ fuel, (passes < fuel)%nat → scrollLoop fuel s = Ok (Some out, s')) ∧
    (∀ fuel, (fuel ≤ passes)%nat → ∃ s'', scrollLoop fuel s = Ok (None, s'')).
Proof.
  intros Hreg. split.
  - destruct (scrollStep_effect s Hreg) as (r & s1 & Hstep & _ & Hr).
    exists r, s1. split; [done|]. destruct r as [out|].
    + destruct Hr as (t & p & tm & Htm & Hf & Hres). by eapply frozenPairs_resolved.
    + destruct Hr as [E _]. by apply frozenPairs_storeEquiv.
  - destruct (scrollLoop_passes s Hreg)
      as (passes & out & s' & Hsum & _ & _ & _ & _ & _ & Hdone & Hshort).
    exists passes, out, s'. split; [lia|]. done.
Qed.

Lemma scrollLoop_terminates_witness :
  (∃ r s1, scrollStep (stateAfter scrollTrace) = Ok (r, s1) ∧
           match r with
           | None => frozenPairs s1 = frozenPairs (stateAfter scrollTrace)
           | Some _ => frozenPairs (stateAfter scrollTrace) = S (frozenPairs s1)
           end) ∧
  ∃ (passes : nat) out s',
    (passes ≤ frozenPairs (stateAfter scrollTrace))%nat ∧
    (frozenPairs s' + passes = frozenPairs (stateAfter scrollTrace))%nat ∧
    (∀ fuel, (passes < fuel)%nat → scrollLoop fuel (stateAfter scrollTrace) = Ok (Some out, s')) ∧
    (∀ fuel, (fuel ≤ passes)%nat →
             ∃ s'', scrollLoop fuel (stateAfter scrollTrace) = Ok (None, s'')).
Proof.
  apply (scrollLoop_terminates (stateAfter scrollTrace)).
  apply (bool_decide_unpack (registered (stateAfter scrollTrace))). vm_compute. reflexivity.
Defined.

Example scrollTrace_passes :
  frozenPairs (stateAfter scrollTrace) = 3%nat ∧
  (∃ s', scrollLoop 4 (stateAfter scrollTrace) = Ok (Some ["bob ann 2 310"; "ann bob 2 260"], s')) ∧
  (∃ s', scrollLoop 3 (stateAfter scrollTrace) = Ok (None, s')).
Proof.
  split; [vm_compute; reflexivity|]. split; eexists; vm_compute; reflexivity.
Qed.

(** ** Submissions *)

Lemma submit_Ok problemName teamName statusName at_ s out s' :
  submit problemName teamName statusName at_ s = Ok (out, s') ↔
  ∃ team, teams s !! teamName = Some team ∧ out = [] ∧
          s' = setTeams s (<[teamName :=
                 (recordSubmission (frozen s) (mkSubmission problemName statusName at_) team).2]>
                 (teams s)).
Proof.
  unfold submit. rewrite bind_get. split.
  - intros (u & s1 & H1 & H2)%bind_Ok. injection H2 as [= <- <-].
    unfold onTeam in H1. destruct (teams s !! teamName) as [team|]; [|done].
    exists team. destruct (recordSubmission _ _ _) as [[] team']. by simplify_eq.
  - intros (team & Ht & -> & ->). rewrite (bind_eq _ _ _ _ _ (onTeam_Some _ _ _ _ Ht)). done.
Qed.

Lemma submit_unregistered problemName teamName statusName at_ s :
  teams s !! teamName = None →
  submit problemName teamName statusName at_ s = Undefined NullDeref.
Proof. intros H. unfold submit. rewrite bind_get. unfold bind. by rewrite onTeam_None. Qed.

(** A submission to a solved problem is appended to [submissions] and
    changes nothing else; a submission to another problem leaves this one
    alone. *)
Lemma recordSubmission_solved isFrozen sub team c :
  solved (problems team !!! c) = true →
  problems (recordSubmission isFrozen sub team).2 !!! c =
  if decide (firstChar (problem sub) = c)
  then mkProblemStatus (solved (problems team !!! c)) (solveTime (problems team !!! c))
         (wrongAttempts (problems team !!! c)) (frozenSubmissions (problems team !!! c))
         (submissions (problems team !!! c) ++ [sub]) (frozenSubs (problems team !!! c))
  else problems team !!! c.
Proof.
  intros Hs. unfold recordSubmission. case_decide as Hc.
  - subst c. rewrite Hs. rewrite andb_false_r. cbn [negb snd problems setProblems].
    by rewrite lookup_total_insert_eq.
  - repeat case_match; cbn [snd problems setProblems invalidateCache];
      by rewrite lookup_total_insert_ne.
Qed.

(** C8.  Once a problem status is solved, neither a submission (to any
    team and problem, frozen or not) nor a scroll changes its [solved]
    flag, its [solveTime] or its [wrongAttempts].  A submission to the
    solved problem itself is only appended to its [submissions]. *)
Theorem solved_problem_is_final (s : ICPCSystem) n tm c :
  teams s !! n = Some tm →
  solved (problems tm !!! c) = true →
  (∀ problemName teamName statusName at_ out s',
     submit problemName teamName statusName at_ s = Ok (out, s') →
     ∃ tm', teams s' !! n = Some tm' ∧
       solved (problems tm' !!! c) = true ∧
       solveTime (problems tm' !!! c) = solveTime (problems tm !!! c) ∧
       wrongAttempts (problems tm' !!! c) = wrongAttempts (problems tm !!! c) ∧
       frozenSubmissions (problems tm' !!! c) = frozenSubmissions (problems tm !!! c) ∧
       frozenSubs (problems tm' !!! c) = frozenSubs (problems tm !!! c) ∧
       submissions (problems tm' !!! c) =
         if decide (teamName = n ∧ firstChar problemName = c)
         then submissions (problems tm !!! c) ++ [mkSubmission problemName statusName at_]
         else submissions (problems tm !!! c)) ∧
  (∀ out s', scroll s = Ok (out, s') →
     ∃ tm', teams s' !! n = Some tm' ∧
       solved (problems tm' !!! c) = true ∧
       solveTime (problems tm' !!! c) = solveTime (problems tm !!! c) ∧
       wrongAttempts (problems tm' !!! c) = wrongAttempts (problems tm !!! c)).
Proof.
  intros Hn Hs. split.
  - intros p tn st a out s' (team & Ht & -> & ->)%submit_Ok. cbn [teams setTeams].
    destruct (decide (tn = n)) as [->|Hne].
    + assert (team = tm) as -> by congruence.
      rewrite lookup_insert_eq. eexists. split; [done|].
      rewrite (recordSubmission_solved _ _ _ _ Hs). cbn [problem].
      destruct (decide (firstChar p = c)) as [Hc|Hc].
      * rewrite decide_True by done. by cbn.
      * rewrite decide_False by (intros [_ ?]; done). by rewrite Hs.
    + rewrite lookup_insert_ne by done. exists tm. split; [done|].
      rewrite decide_False by (intros [? _]; done). by rewrite Hs.
  - intros out s' Hscroll. destruct (frozen s) eqn:Hfr.
    + destruct (scroll_effect s Hfr) as (out0 & s0 & H0 & Hkept & _).
      rewrite Hscroll in H0. simplify_eq.
      destruct (Hkept n tm c Hn) as (tm' & Hn' & K). exists tm'. split; [done|]. by apply K.
    + unfold scroll in Hscroll. rewrite bind_get, Hfr in Hscroll. cbn in Hscroll.
      unfold ret in Hscroll. simplify_eq. exists tm. by repeat split.
Qed.

Lemma solved_problem_is_final_witness :
  (∀ problemName teamName statusName at_ out s',
     submit problemName teamName statusName at_ (stateAfter solvedTrace) = Ok (out, s') →
     ∃ tm', teams s' !! "ann" = Some tm' ∧
       solved (problems tm' !!! "A"%char) = true ∧
       solveTime (problems tm' !!! "A"%char) = solveTime (problems solvedTeam !!! "A"%char) ∧
       wrongAttempts (problems tm' !!! "A"%char) =
         wrongAttempts (problems solvedTeam !!! "A"%char) ∧
       frozenSubmissions (problems tm' !!! "A"%char) =
         frozenSubmissions (problems solvedTeam !!! "A"%char) ∧
       frozenSubs (problems tm' !!! "A"%char) = frozenSubs (problems solvedTeam !!! "A"%char) ∧
       submissions (problems tm' !!! "A"%char) =
         if decide (teamName = "ann" ∧ firstChar problemName = "A"%char)
         then submissions (problems solvedTeam !!! "A"%char)
              ++ [mkSubmission problemName statusName at_]
         else submissions (problems solvedTeam !!! "A"%char)) ∧
  (∀ out s', scroll (stateAfter solvedTrace) = Ok (out, s') →
     ∃ tm', teams s' !! "ann" = Some tm' ∧
       solved (problems tm' !!! "A"%char) = true ∧
       solveTime (problems tm' !!! "A"%char) = solveTime (problems solvedTeam !!! "A"%char) ∧
       wrongAttempts (problems tm' !!! "A"%char) =
         wrongAttempts (problems solvedTeam !!! "A"%char)).
Proof.
  apply (solved_problem_is_final (stateAfter solvedTrace) "ann" solvedTeam "A"%char).
  - vm_compute. reflexivity.
  - vm_compute. reflexivity.
Defined.

Example solvedTeam_status :
  problems solvedTeam !!! "A"%char =
  mkProblemStatus true 10 1 0
    [mkSubmission "A" "Wrong_Answer" 3; mkSubmission "A" "Accepted" 10] [].
Proof. vm_compute. reflexivity. Qed.

(** ** Failing operations *)

Lemma addTeam_started teamName s :
  started s = true →
  addTeam teamName s = Ok (["[Error]Add failed: competition has started."], s).
Proof. intros H. unfold addTeam. by rewrite bind_get, H. Qed.

Lemma addTeam_duplicate teamName s :
  started s = false → is_Some (teams s !! teamName) →
  addTeam teamName s = Ok (["[Error]Add failed: duplicated team name."], s).
Proof. intros H [t Ht]. unfold addTeam. by rewrite bind_get, H, Ht. Qed.

Lemma startCompetition_started duration count s :
  started s = true →
  startCompetition duration count s =
  Ok (["[Error]Start failed: competition has started."], s).
Proof. intros H. unfold startCompetition. by rewrite bind_get, H. Qed.

Lemma freeze_frozen s :
  frozen s = true →
  freeze s = Ok (["[Error]Freeze failed: scoreboard has been frozen."], s).
Proof. intros H. unfold freeze. by rewrite bind_get, H. Qed.

Lemma scroll_unfrozen s :
  frozen s = false →
  scroll s = Ok (["[Error]Scroll failed: scoreboard has not been frozen."], s).
Proof. intros H. unfold scroll. by rewrite bind_get, H. Qed.

Lemma queryRanking_unknown teamName s :
  teams s !! teamName = None →
  queryRanking teamName s = Ok (["[Error]Query ranking failed: cannot find the team."], s).
Proof. intros H. unfold queryRanking. by rewrite bind_get, H. Qed.

Lemma querySubmission_unknown teamName problemFilter statusFilter s :
  teams s !! teamName = None →
  querySubmission teamName problemFilter statusFilter s =
  Ok (["[Error]Query submission failed: cannot find the team."], s).
Proof. intros H. unfold querySubmission. by rewrite bind_get, H. Qed.

(** After a command that returns, the loop goes on with the next one. *)
Lemma run_continues c rest s out s' :
  c ≠ END → execute c s = Ok (out, s') →
  run (c :: rest) s = bind (run rest) (λ more, ret (out ++ more)) s'.
Proof. intros Hc H. destruct c; try done; cbn [run]; by rewrite (bind_eq _ _ _ _ _ H). Qed.

(** C7 fails in the code: a submission that names an unregistered team is
    not reported and does not leave the state unchanged.  [teams[teamName]]
    yields a null pointer, [submit] dereferences it, and the run is
    undefined from there on: the query that follows is never answered. *)
Theorem submit_unknown_team_undefined :
  run ghostTrace initialSystem = Undefined NullDeref.
Proof. vm_compute. reflexivity. Qed.

(** C6 fails in the code: [startCompetition] resets the problem statuses
    without invalidating the caches.  After [staleTrace] no problem of
    [ann] is solved, yet the ranking still reads one solved problem and a
    penalty of 5. *)
Theorem cache_stale_after_start :
  ∃ out s t,
    run staleTrace initialSystem = Ok (out, s) ∧
    teams s !! "ann" = Some t ∧
    problems t = {["A"%char := newProblemStatus]} ∧
    freshMetrics t = (0, 0, []) ∧
    (getSolvedCount t).1 = 1 ∧ (getPenaltyTime t).1 = 5.
Proof.
  eexists _, _, _. split; [vm_compute; reflexivity|]. split; [vm_compute; reflexivity|].
  repeat split; vm_compute; reflexivity.
Qed.

Example staleTrace_scoreboard :
  ∃ s, run (staleTrace ++ [FREEZE; SCROLL]) initialSystem =
       Ok (["[Info]Add successfully."; "[Info]Freeze scoreboard.";
            "[Info]Scroll scoreboard."; "ann 1 1 5"; "ann 1 1 5";
            "[Info]Competition starts."; "[Info]Freeze scoreboard.";
            "[Info]Scroll scoreboard."; "ann 1 1 5 ."; "ann 1 1 5 ."], s).
Proof. eexists. vm_compute. reflexivity. Qed.

(** ** Invariants of the team records

    A property of team records that the primitive updates of the engine
    keep is kept by every operation.  [startCompetition] is left to the
    instances: what it needs differs from one property to the other. *)

Lemma bind_ext {A B} (m : M A) (k k' : A → M B) s :
  (∀ a s1, k a s1 = k' a s1) → bind m k s = bind m k' s.
Proof. intros H. unfold bind. by destruct (m s) as [[a s1]|]. Qed.

Section TeamInvariant.
Variable P : Team → Prop.
Hypothesis P_newTeam : ∀ n, P (newTeam n).
Hypothesis P_updateCache : ∀ t, P t → P (updateCache t).
Hypothesis P_problemAt : ∀ c t, P t → P (problemAt c t).2.
Hypothesis P_recordSubmission : ∀ b sub t, P t → P (recordSubmission b sub t).2.
Hypothesis P_resolve : ∀ p t, P t → P (resolveAndInvalidate p t).

Lemma preserves_ret {A} (a : A) : preserves P (ret a).
Proof. by intros s a' s' H [= <- <-]. Qed.

Lemma preserves_get : preserves P get.
Proof. by intros s a' s' H [= <- <-]. Qed.

Lemma preserves_bind {A B} (m : M A) (k : A → M B) :
  preserves P m → (∀ a, preserves P (k a)) → preserves P (bind m k).
Proof.
  intros Hm Hk s b s' H (a & s1 & H1 & H2)%bind_Ok.
  exact (Hk a s1 b s' (Hm s a s1 H H1) H2).
Qed.

Lemma preserves_modify f : (∀ s, teams (f s) = teams s) → preserves P (modify f).
Proof. intros Hf s a s' H [= _ <-]. unfold everyTeam. by rewrite Hf. Qed.

Lemma preserves_onTeam {A} n (f : Team → A * Team) :
  (∀ t, P t → P (f t).2) → preserves P (onTeam n f).
Proof.
  intros Hf s a s' H Hon. unfold onTeam in Hon.
  destruct (teams s !! n) as [t|] eqn:Hn; [|done].
  specialize (Hf t (H _ _ Hn)). destruct (f t) as [a' t']. simplify_eq.
  by apply map_Forall_insert_2.
Qed.

Lemma preserves_rankingAt i : preserves P (rankingAt i).
Proof. intros s a s' H Hr. unfold rankingAt in Hr. destruct (ranking s !! i); by simplify_eq. Qed.

Lemma preserves_compareTeams a b : preserves P (compareTeams a b).
Proof.
  unfold compareTeams.
  repeat (first [ apply preserves_bind; [apply preserves_onTeam; intros; by apply P_updateCache|intros ?]
                | apply preserves_ret
                | destruct (negb _)
                | destruct (compareTimes _ _) ]).
Qed.

Lemma preserves_insertRanked x l : preserves P (insertRanked x l).
Proof.
  induction l as [|y l IH]; [apply preserves_ret|]. cbn [insertRanked].
  apply preserves_bind; [apply preserves_compareTeams|]. intros [|]; [|apply preserves_ret].
  apply preserves_bind; [apply IH|]. intros ?. apply preserves_ret.
Qed.

Lemma preserves_sortRanked l : preserves P (sortRanked l).
Proof.
  induction l as [|x l IH]; [apply preserves_ret|]. cbn [sortRanked].
  apply preserves_bind; [apply IH|]. intros ?. apply preserves_insertRanked.
Qed.

Lemma preserves_flushScoreboard : preserves P flushScoreboard.
Proof.
  unfold flushScoreboard.
  apply preserves_bind; [by apply preserves_modify|]. intros _.
  apply preserves_bind; [apply preserves_get|]. intros s.
  apply preserves_bind; [apply preserves_sortRanked|]. intros ?. by apply preserves_modify.
Qed.

Lemma P_printCell b j t : P t → P (printCell b j t).2.
Proof. unfold printCell. rewrite (surjective_pairing (problemAt _ _)). apply P_problemAt. Qed.

Lemma preserves_printCells n js : preserves P (printCells n js).
Proof.
  induction js as [|j js IH]; [apply preserves_ret|]. cbn [printCells].
  apply preserves_bind; [apply preserves_get|]. intros s.
  apply preserves_bind; [apply preserves_onTeam; intros; by apply P_printCell|]. intros ?.
  apply preserves_bind; [apply IH|]. intros ?. apply preserves_ret.
Qed.

Lemma preserves_printRow n : preserves P (printRow n).
Proof.
  unfold printRow. apply preserves_bind; [apply preserves_get|]. intros s.
  apply preserves_bind; [apply preserves_onTeam; intros; by apply P_updateCache|]. intros ?.
  apply preserves_bind; [apply preserves_onTeam; intros; by apply P_updateCache|]. intros ?.
  apply preserves_bind; [apply preserves_printCells|]. intros ?. apply preserves_ret.
Qed.

Lemma preserves_forEach {A} (body : A → M (list string)) l :
  (∀ x, preserves P (body x)) → preserves P (forEach body l).
Proof.
  intros Hb. induction l as [|x l IH]; [apply preserves_ret|]. cbn [forEach].
  apply preserves_bind; [apply Hb|]. intros ?.
  apply preserves_bind; [apply IH|]. intros ?. apply preserves_ret.
Qed.

Lemma preserves_printScoreboard : preserves P printScoreboard.
Proof.
  unfold printScoreboard. apply preserves_bind; [apply preserves_get|]. intros s.
  apply preserves_forEach, preserves_printRow.
Qed.

Lemma P_scan acc l : P acc.2 → P (foldl scanStep acc l).2.
Proof.
  revert acc. induction l as [|j l IH]; intros acc Hacc; [done|].
  cbn [foldl]. apply IH. destruct acc as [sm t]. unfold scanStep.
  rewrite (surjective_pairing (problemAt _ _)). by apply P_problemAt.
Qed.

Lemma preserves_findFrozen names : preserves P (findFrozen names).
Proof.
  induction names as [|n names IH]; [apply preserves_ret|]. cbn [findFrozen].
  apply preserves_bind; [apply preserves_get|]. intros s.
  apply preserves_bind; [apply preserves_onTeam; intros; by apply (P_scan (_, _))|]. intros ?.
  destruct (_ <=? _); [apply preserves_ret|apply IH].
Qed.

Lemma preserves_selectTarget : preserves P selectTarget.
Proof.
  unfold selectTarget. apply preserves_bind; [apply preserves_get|]. intros s.
  apply preserves_findFrozen.
Qed.

Lemma preserves_findNewRank t k : preserves P (findNewRank t k).
Proof.
  induction k as [|k IH]; [apply preserves_ret|]. cbn [findNewRank].
  apply preserves_bind; [apply preserves_rankingAt|]. intros ?.
  apply preserves_bind; [apply preserves_compareTeams|]. intros [|]; [apply IH|apply preserves_ret].
Qed.

(** The replay and the invalidation that follows it are two calls in the
    source; between them [P] may fail of the target team, so the pass is
    rewritten with the two fused. *)
Lemma scrollStep_fused s :
  scrollStep s =
  (found <- selectTarget ;;
   match found with
   | None => ret None
   | Some (targetTeam, targetProblem) =>
       s <- get ;;
       let oldRank := default O (indexOf targetTeam (ranking s)) in
       changed <- onTeam targetTeam (λ t, ((resolveAt targetProblem t).1,
                                           resolveAndInvalidate targetProblem t)) ;;
       if negb changed then ret (Some [])
       else
         newRank <- findNewRank targetTeam oldRank ;;
         if (newRank <? oldRank)%nat then
           _ <- modify (λ s, setRanking s (insertAt newRank targetTeam
                                             (eraseAt oldRank (ranking s)))) ;;
           below <- rankingAt (newRank + 1) ;;
           solvedCount <- onTeam targetTeam getSolvedCount ;;
           penalty <- onTeam targetTeam getPenaltyTime ;;
           ret (Some [rankChangeLine targetTeam below solvedCount penalty])
         else ret (Some [])
   end) s.
Proof.
  unfold scrollStep. apply bind_ext. intros [[t p]|] s1; [|done].
  rewrite !bind_get. unfold bind, onTeam.
  destruct (teams s1 !! t) as [tm|] eqn:Ht; [|done].
  unfold resolveAndInvalidate. destruct (resolveAt p tm) as [[|] tm2]; cbn [fst snd negb]; [|done].
  cbn [teams setTeams]. rewrite lookup_insert_eq.
  cbn [ranking setTeams started frozen freezeTime durationTime problemCount].
  by rewrite insert_insert_eq.
Qed.

Lemma preserves_scrollStep : preserves P scrollStep.
Proof.
  intros s a s' H. rewrite scrollStep_fused. revert s a s' H.
  apply preserves_bind; [apply preserves_selectTarget|]. intros [[t p]|]; [|apply preserves_ret].
  apply preserves_bind; [apply preserves_get|]. intros s.
  apply preserves_bind; [apply preserves_onTeam; intros; by apply P_resolve|]. intros [|];
    cbn [negb]; [|apply preserves_ret].
  apply preserves_bind; [apply preserves_findNewRank|]. intros newRank.
  destruct (_ <? _)%nat; [|apply preserves_ret].
  apply preserves_bind; [by apply preserves_modify|]. intros _.
  apply preserves_bind; [apply preserves_rankingAt|]. intros ?.
  apply preserves_bind; [apply preserves_onTeam; intros; by apply P_updateCache|]. intros ?.
  apply preserves_bind; [apply preserves_onTeam; intros; by apply P_updateCache|]. intros ?.
  apply preserves_ret.
Qed.

Lemma preserves_scrollLoop fuel : preserves P (scrollLoop fuel).
Proof.
  induction fuel as [|fuel IH]; [apply preserves_ret|]. cbn [scrollLoop].
  apply preserves_bind; [apply preserves_scrollStep|]. intros [out|]; [|apply preserves_ret].
  apply preserves_bind; [apply IH|]. intros ?. apply preserves_ret.
Qed.

Lemma preserves_scroll : preserves P scroll.
Proof.
  unfold scroll. apply preserves_bind; [apply preserves_get|]. intros s.
  destruct (negb _); [apply preserves_ret|].
  apply preserves_bind; [apply preserves_flushScoreboard|]. intros _.
  apply preserves_bind; [apply preserves_printScoreboard|]. intros ?.
  apply preserves_bind; [apply preserves_get|]. intros s1.
  apply preserves_bind; [apply preserves_scrollLoop|]. intros [lines|]; [|by intros ? ? ? ?].
  apply preserves_bind; [by apply preserves_modify|]. intros _.
  apply preserves_bind; [apply preserves_printScoreboard|]. intros ?. apply preserves_ret.
Qed.

Lemma preserves_addTeam n : preserves P (addTeam n).
Proof.
  unfold addTeam. apply preserves_bind; [apply preserves_get|]. intros s.
  destruct (started s); [apply preserves_ret|].
  destruct (teams s !! n); [apply preserves_ret|].
  apply preserves_bind.
  { intros s0 a s0' H [= _ <-]. by apply map_Forall_insert_2. }
  intros _. apply preserves_bind; [by apply preserves_modify|]. intros _. apply preserves_ret.
Qed.

Lemma preserves_submit p n st a : preserves P (submit p n st a).
Proof.
  unfold submit. apply preserves_bind; [apply preserves_get|]. intros s.
  apply preserves_bind; [apply preserves_onTeam; intros; by apply P_recordSubmission|].
  intros ?. apply preserves_ret.
Qed.

Lemma preserves_freeze : preserves P freeze.
Proof.
  unfold freeze. apply preserves_bind; [apply preserves_get|]. intros s.
  destruct (frozen s); [apply preserves_ret|].
  apply preserves_bind; [by apply preserves_modify|]. intros _. apply preserves_ret.
Qed.

Lemma preserves_flush : preserves P flush.
Proof.
  unfold flush. apply preserves_bind; [apply preserves_flushScoreboard|]. intros _.
  apply preserves_ret.
Qed.

Lemma preserves_queryRanking n : preserves P (queryRanking n).
Proof.
  unfold queryRanking. apply preserves_bind; [apply preserves_get|]. intros s.
  destruct (teams s !! n); apply preserves_ret.
Qed.

Lemma preserves_querySubmission n pf sf : preserves P (querySubmission n pf sf).
Proof.
  unfold querySubmission. apply preserves_bind; [apply preserves_get|]. intros s.
  destruct (teams s !! n); apply preserves_ret.
Qed.

Lemma preserves_querySubmissionCommand n rest : preserves P (querySubmissionCommand n rest).
Proof.
  unfold querySubmissionCommand. destruct (extractFilters rest) as [[pf sf]|].
  - apply preserves_querySubmission.
  - by intros s a s' _ [=].
Qed.

(** Every command but a START that takes effect keeps the property. *)
Lemma preserves_execute c :
  (∀ d p, c ≠ START d p) → preserves P (execute c).
Proof.
  intros Hc. destruct c; cbn [execute].
  - apply preserves_addTeam.
  - by destruct (Hc duration count).
  - apply preserves_submit.
  - apply preserves_flush.
  - apply preserves_freeze.
  - apply preserves_scroll.
  - apply preserves_queryRanking.
  - apply preserves_querySubmissionCommand.
  - apply preserves_ret.
  - apply preserves_ret.
Qed.

(** The same without the closure under [recordSubmission], for the
    commands that are not submissions. *)
Lemma preserves_execute_no_submit c :
  (∀ d p, c ≠ START d p) → (∀ p n st a, c ≠ SUBMIT p n st a) → preserves P (execute c).
Proof.
  intros Hc Hs. destruct c; cbn [execute].
  - apply preserves_addTeam.
  - by destruct (Hc duration count).
  - by destruct (Hs problemName teamName statusName at_).
  - apply preserves_flush.
  - apply preserves_freeze.
  - apply preserves_scroll.
  - apply preserves_queryRanking.
  - apply preserves_querySubmissionCommand.
  - apply preserves_ret.
  - apply preserves_ret.
Qed.

End TeamInvariant.

(** ** The shape of the caches in reachable states *)

(** An update that leaves the cache fields alone, or invalidates the
    cache, keeps its shape. *)
Lemma cacheShaped_kept t t' :
  cacheValid t' = false ∨
  (cacheValid t' = cacheValid t ∧ cachedSolved t' = cachedSolved t ∧
   cachedTimes t' = cachedTimes t) →
  cacheShaped t → cacheShaped t'.
Proof.
  intros [Hinv|(Hv & Hs & Ht)] H Hvalid; [congruence|].
  rewrite Hs, Ht. apply H. congruence.
Qed.

Lemma cacheShaped_newTeam n : cacheShaped (newTeam n).
Proof. by intros ?. Qed.

Lemma cacheShaped_problemAt c t : cacheShaped t → cacheShaped (problemAt c t).2.
Proof. apply cacheShaped_kept. by right. Qed.

Lemma cacheShaped_recordSubmission b sub t :
  cacheShaped t → cacheShaped (recordSubmission b sub t).2.
Proof.
  apply cacheShaped_kept. unfold recordSubmission.
  repeat case_match; cbn; auto.
Qed.

Lemma cacheShaped_resolve p t : cacheShaped t → cacheShaped (resolveAndInvalidate p t).
Proof.
  apply cacheShaped_kept. unfold resolveAndInvalidate, resolveAt.
  rewrite (surjective_pairing (problemAt p t)). destruct (resolveProblem _) as [ps' [|]]; cbn; auto.
Qed.

Lemma resetProblems_cache count t :
  cacheValid (resetProblems count t) = cacheValid t ∧
  cachedSolved (resetProblems count t) = cachedSolved t ∧
  cachedPenalty (resetProblems count t) = cachedPenalty t ∧
  cachedTimes (resetProblems count t) = cachedTimes t.
Proof.
  unfold resetProblems. generalize (indices count). intros l. revert t.
  induction l as [|j l IH]; intros t; [done|]. cbn [foldl].
  destruct (IH (setProblems t (<[problemLetter j := newProblemStatus]> (problems t))))
    as (-> & -> & -> & ->). done.
Qed.

Lemma cacheShaped_resetProblems count t : cacheShaped t → cacheShaped (resetProblems count t).
Proof.
  apply cacheShaped_kept. right. destruct (resetProblems_cache count t) as (? & ? & _ & ?). done.
Qed.

Lemma startCompetition_Ok duration count s out s' :
  startCompetition duration count s = Ok (out, s') →
  (started s = true ∧ s' = s) ∨
  (started s = false ∧
   s' = mkSystem (resetProblems count <$> teams s) true (frozen s) (freezeTime s)
                 duration count (ranking s)).
Proof.
  unfold startCompetition. rewrite bind_get. destruct (started s).
  - intros [= <- <-]. by left.
  - rewrite bind_modify. intros [= <- <-]. by right.
Qed.

Lemma everyTeam_cacheShaped_execute c :
  preserves cacheShaped (execute c).
Proof.
  destruct c as [| d p | | | | | | | |] eqn:Hc;
    try (rewrite <- Hc; apply preserves_execute;
         [apply cacheShaped_newTeam|apply updateCache_shaped|apply cacheShaped_problemAt
         |apply cacheShaped_recordSubmission|apply cacheShaped_resolve|by subst]).
  intros s out s' H [[_ ->]|[_ ->]]%startCompetition_Ok; [done|].
  apply map_Forall_fmap. eapply map_Forall_impl; [exact H|].
  intros n t. apply cacheShaped_resetProblems.
Qed.

Lemma run_cons c rest s out s' :
  run (c :: rest) s = Ok (out, s') →
  (c = END ∧ s' = s) ∨
  (c ≠ END ∧ ∃ out1 s1 out2, execute c s = Ok (out1, s1) ∧ run rest s1 = Ok (out2, s')).
Proof.
  destruct c; try (intros [= <- <-]; by left);
    cbn [run]; intros (out1 & s1 & H1 & (out2 & s2 & H2 & [= <- <-])%bind_Ok)%bind_Ok;
    right; (split; [done|]); by exists out1, s1, out2.
Qed.

Lemma run_preserves (P : Team → Prop) cmds :
  (∀ c, preserves P (execute c)) → preserves P (run cmds).
Proof.
  intros Hc. induction cmds as [|c cmds IH]; intros s out s' H.
  - by intros [= <- <-].
  - intros [[_ ->]|(_ & out1 & s1 & out2 & H1 & H2)]%run_cons; [done|].
    eapply IH; [|exact H2]. by eapply Hc.
Qed.

(** In every reachable state the caches have the shape the comparator
    relies on. *)
Lemma reachable_cacheShaped s : reachable s → everyTeam cacheShaped s.
Proof.
  intros (cmds & out & Hrun).
  eapply (run_preserves cacheShaped cmds everyTeam_cacheShaped_execute); [|exact Hrun].
  apply map_Forall_empty.
Qed.

(** ** The scoreboard in reachable states *)

Lemma addTeam_Ok teamName s out s' :
  addTeam teamName s = Ok (out, s') →
  s' = s ∨
  (started s = false ∧ teams s !! teamName = None ∧
   s' = setRanking (setTeams s (<[teamName := newTeam teamName]> (teams s)))
                   (sortStrings (ranking s ++ [teamName]))).
Proof.
  unfold addTeam. rewrite bind_get. destruct (started s); [intros [= <- <-]; by left|].
  destruct (teams s !! teamName) eqn:Hn; [intros [= <- <-]; by left|].
  rewrite !bind_modify. intros [= <- <-]. by right.
Qed.

Lemma freeze_Ok s out s' : freeze s = Ok (out, s') → s' = s ∨ s' = setFrozen s true.
Proof.
  unfold freeze. rewrite bind_get. destruct (frozen s); [intros [= <- <-]; by left|].
  rewrite bind_modify. intros [= <- <-]. by right.
Qed.

Lemma flush_Ok s out s' :
  flush s = Ok (out, s') → storeEquiv s s' ∧ registered s'.
Proof.
  unfold flush. destruct (flushScoreboard_total s) as (s1 & H1 & E1 & _ & Hreg1).
  rewrite (bind_eq _ _ _ _ _ H1). by intros [= <- <-].
Qed.

Lemma queryRanking_state n s out s' : queryRanking n s = Ok (out, s') → s' = s.
Proof.
  unfold queryRanking. rewrite bind_get. destruct (teams s !! n); by intros [= <- <-].
Qed.

Lemma querySubmission_state n pf sf s out s' :
  querySubmission n pf sf s = Ok (out, s') → s' = s.
Proof.
  unfold querySubmission. rewrite bind_get. destruct (teams s !! n); by intros [= <- <-].
Qed.

Lemma querySubmissionCommand_Ok n rest s out s' :
  querySubmissionCommand n rest s = Ok (out, s') →
  ∃ pf sf, extractFilters rest = Some (pf, sf) ∧ querySubmission n pf sf s = Ok (out, s').
Proof.
  unfold querySubmissionCommand. destruct (extractFilters rest) as [[pf sf]|]; [|done].
  intros H. by exists pf, sf.
Qed.

Lemma querySubmissionCommand_state n rest s out s' :
  querySubmissionCommand n rest s = Ok (out, s') → s' = s.
Proof. intros (pf & sf & _ & H)%querySubmissionCommand_Ok. by eapply querySubmission_state. Qed.

Lemma scroll_Ok s out s' :
  scroll s = Ok (out, s') →
  (frozen s = false ∧ s' = s) ∨
  (frozen s = true ∧ solvedKept s s' ∧ registered s' ∧ frozen s' = false ∧
   started s' = started s ∧ problemCount s' = problemCount s).
Proof.
  intros H. destruct (frozen s) eqn:Hfr.
  - right. destruct (scroll_effect s Hfr) as (out0 & s0 & H0 & ?). rewrite H in H0.
    by simplify_eq.
  - left. rewrite (scroll_unfrozen s Hfr) in H. by simplify_eq.
Qed.

Lemma execute_registered c s out s' :
  registered s → execute c s = Ok (out, s') → registered s'.
Proof.
  intros Hreg. destruct c; cbn [execute].
  - intros [->|(_ & _ & ->)]%addTeam_Ok; [done|]. intros n Hn. cbn in *.
    unfold sortStrings in Hn. rewrite (isort_Permutation String.ltb) in Hn.
    apply elem_of_app in Hn as [Hn|Hn%list_elem_of_singleton].
    + destruct (decide (teamName = n)) as [->|Hne]; [rewrite lookup_insert_eq; eauto|].
      rewrite lookup_insert_ne by done. by apply Hreg.
    + subst. rewrite lookup_insert_eq. eauto.
  - intros [[_ ->]|[_ ->]]%startCompetition_Ok; [done|]. intros n Hn. cbn in *.
    rewrite lookup_fmap. destruct (Hreg n Hn) as [t ->]. by eexists.
  - intros (team & Ht & _ & ->)%submit_Ok. by apply registered_insert.
  - by intros [_ ?]%flush_Ok.
  - by intros [->| ->]%freeze_Ok.
  - by intros [[_ ->]|(_ & _ & ? & _)]%scroll_Ok.
  - by intros ->%queryRanking_state.
  - by intros ->%querySubmissionCommand_state.
  - by intros [= <- <-].
  - by intros [= <- <-].
Qed.

(** In every reachable state the scoreboard names registered teams only. *)
Lemma reachable_registered s : reachable s → registered s.
Proof.
  intros (cmds & out & Hrun). revert Hrun.
  assert (registered initialSystem) as H0 by (intros n Hn; by apply elem_of_nil in Hn).
  revert H0. generalize initialSystem. revert out.
  induction cmds as [|c cmds IH]; intros out s0 H0.
  - by intros [= <- <-].
  - intros [[_ ->]|(_ & out1 & s1 & out2 & H1 & H2)]%run_cons; [done|].
    eapply IH; [|exact H2]. by eapply execute_registered.
Qed.

(** ** The cache against the problem statuses *)

Lemma cacheStep_scored acc c c' ps ps' :
  scored ps = scored ps' → cacheStep acc (c, ps) = cacheStep acc (c', ps').
Proof.
  destruct acc as [[cs cp] ct]. unfold scored, cacheStep. cbn [snd].
  destruct (solved ps), (solved ps'); try done. by intros [= -> ->].
Qed.

Lemma freshMetrics_scored t t' :
  (∀ c, scored (problems t' !!! c) = scored (problems t !!! c)) →
  freshMetrics t' = freshMetrics t.
Proof.
  intros H. rewrite !freshMetrics_fold.
  assert (∀ l acc,
            foldl cacheStep acc ((λ c, (c, problems t' !!! c)) <$> l) =
            foldl cacheStep acc ((λ c, (c, problems t !!! c)) <$> l)) as ->; [|done].
  induction l as [|c l IH]; intros acc; [done|]. cbn [fmap list_fmap foldl].
  rewrite (cacheStep_scored acc c c _ _ (H c)). apply IH.
Qed.

Lemma coherent_kept t t' :
  cacheValid t' = false ∨
  (cacheValid t' = cacheValid t ∧ cachedSolved t' = cachedSolved t ∧
   cachedPenalty t' = cachedPenalty t ∧ cachedTimes t' = cachedTimes t ∧
   ∀ c, scored (problems t' !!! c) = scored (problems t !!! c)) →
  coherent t → coherent t'.
Proof.
  unfold coherent. intros [Hinv|(Hv & Hs & Hp & Ht & Hsc)] H; [by apply metricsOf_invalid|].
  rewrite (freshMetrics_scored _ _ Hsc), <- H.
  destruct (cacheValid t) eqn:Hvalid.
  - unfold metricsOf. rewrite !updateCache_of_valid by congruence. congruence.
  - rewrite !metricsOf_invalid by congruence. by apply freshMetrics_scored.
Qed.

Lemma coherent_newTeam n : coherent (newTeam n).
Proof. by apply metricsOf_invalid. Qed.

Lemma coherent_updateCache t : coherent t → coherent (updateCache t).
Proof.
  unfold coherent. intros H. rewrite metricsOf_updateCache, H. symmetry.
  apply freshMetrics_view. intros c. by rewrite updateCache_problems.
Qed.

Lemma coherent_problemAt c t : coherent t → coherent (problemAt c t).2.
Proof.
  apply coherent_kept. right. repeat split; try done. intros k. cbn.
  by rewrite materialise_view.
Qed.

Lemma coherent_recordSubmission b sub t : coherent t → coherent (recordSubmission b sub t).2.
Proof.
  apply coherent_kept. unfold recordSubmission.
  destruct (solved (problems t !!! firstChar (problem sub))) eqn:Hs.
  - rewrite andb_false_r. cbn [negb]. right. repeat split; try done. intros c.
    cbn [snd problems setProblems]. destruct (decide (firstChar (problem sub) = c)) as [<-|Hne].
    + rewrite lookup_total_insert_eq. unfold scored. cbn. by rewrite Hs.
    + by rewrite lookup_total_insert_ne.
  - cbn [negb]. rewrite andb_true_r. destruct b.
    + right. repeat split; try done. intros c. cbn [snd problems setProblems].
      destruct (decide (firstChar (problem sub) = c)) as [<-|Hne].
      * rewrite lookup_total_insert_eq. unfold scored. cbn. by rewrite Hs.
      * by rewrite lookup_total_insert_ne.
    + left. by destruct (String.eqb _ _).
Qed.

(** The flag [changed] of the replay loop, once set, stays set; while it is
    not set an unsolved problem stays unsolved. *)
Lemma replay_changed l ps changed :
  (changed = true → (foldl replayStep (ps, changed) l).2 = true) ∧
  (solved ps = false → (foldl replayStep (ps, changed) l).2 = false →
   solved (foldl replayStep (ps, changed) l).1 = false).
Proof.
  revert ps changed. induction l as [|x l IH]; intros ps changed; [done|].
  cbn [foldl]. unfold replayStep at 2 4 6. destruct (solved ps) eqn:Hs; cbn [negb].
  - split; [apply IH|done].
  - destruct (String.eqb (status x) "Accepted").
    + split; [intros _; by apply IH|]. intros _ H.
      destruct (IH (mkProblemStatus true (time x) (wrongAttempts ps) (frozenSubmissions ps)
                      (submissions ps) (frozenSubs ps)) true) as [Ht _].
      rewrite Ht in H; done.
    + split; [apply IH|]. intros _. by apply IH.
Qed.

Lemma resolveProblem_unchanged ps :
  (resolveProblem ps).2 = false → scored (resolveProblem ps).1 = scored ps.
Proof.
  destruct (solved ps) eqn:Hs.
  - intros _. rewrite (resolveProblem_solved _ Hs). unfold scored. cbn. by rewrite Hs.
  - unfold resolveProblem.
    destruct (replay_changed (frozenSubs ps) ps false) as [_ H]. specialize (H Hs).
    destruct (foldl _ _ _) as [ps' ch]. cbn [fst snd] in *. intros ->.
    unfold scored. cbn. by rewrite H, Hs.
Qed.

Lemma coherent_resolve p t : coherent t → coherent (resolveAndInvalidate p t).
Proof.
  apply coherent_kept. unfold resolveAndInvalidate.
  destruct (resolveAt p t).1 eqn:Hch; [by left|]. right.
  rewrite resolveAt_fst in Hch.
  assert (∀ c, scored (problems (resolveAt p t).2 !!! c) = scored (problems t !!! c)) as Hsc.
  { intros c. rewrite resolveAt_view. case_decide; [|done]. subst.
    by apply resolveProblem_unchanged. }
  unfold resolveAt in *. rewrite (surjective_pairing (problemAt p t)) in *.
  destruct (resolveProblem _) as [ps' ch]. by repeat split.
Qed.

Lemma preserves_coherent_execute c :
  isStart c = false → preserves coherent (execute c).
Proof.
  intros Hc. apply preserves_execute.
  - apply coherent_newTeam.
  - apply coherent_updateCache.
  - apply coherent_problemAt.
  - apply coherent_recordSubmission.
  - apply coherent_resolve.
  - intros d p ->. done.
Qed.

(** ** Untouched problem statuses *)

Lemma pristineTeam_newTeam n : pristineTeam (newTeam n).
Proof. intros c. cbn. by rewrite lookup_total_empty. Qed.

Lemma pristineTeam_updateCache t : pristineTeam t → pristineTeam (updateCache t).
Proof. intros H c. by rewrite updateCache_problems. Qed.

Lemma pristineTeam_problemAt c t : pristineTeam t → pristineTeam (problemAt c t).2.
Proof. intros H k. cbn. by rewrite materialise_view. Qed.

Lemma pristineTeam_resolve p t : pristineTeam t → pristineTeam (resolveAndInvalidate p t).
Proof.
  intros H. unfold resolveAndInvalidate. rewrite resolveAt_fst, (H p).
  change ((resolveProblem newProblemStatus).2) with false. cbv iota.
  intros c. rewrite resolveAt_view, !H. by case_decide.
Qed.

Lemma pristineTeam_resetProblems count t : pristineTeam t → pristineTeam (resetProblems count t).
Proof.
  unfold resetProblems. generalize (indices count). intros l. revert t.
  induction l as [|j l IH]; intros t H; [done|]. cbn [foldl]. apply IH.
  intros c. cbn. destruct (decide (problemLetter j = c)) as [<-|Hne].
  - by rewrite lookup_total_insert_eq.
  - by rewrite lookup_total_insert_ne.
Qed.

Lemma pristineTeam_scored t c : pristineTeam t → scored (problems t !!! c) = None.
Proof. intros H. by rewrite H. Qed.

Lemma coherent_resetProblems count t :
  pristineTeam t → coherent t → coherent (resetProblems count t).
Proof.
  intros Hp. apply coherent_kept. right.
  destruct (resetProblems_cache count t) as (? & ? & ? & ?). repeat split; try done.
  intros c. rewrite !pristineTeam_scored; [done|done|]. by apply pristineTeam_resetProblems.
Qed.

(** ** The contest state across commands *)

Lemma execute_started c s out s' :
  isStart c = false → execute c s = Ok (out, s') → started s' = started s.
Proof.
  intros Hc. destruct c; try done; cbn [execute].
  - by intros [->|(_ & _ & ->)]%addTeam_Ok.
  - by intros (team & Ht & _ & ->)%submit_Ok.
  - intros [E _]%flush_Ok. apply E.
  - by intros [->| ->]%freeze_Ok.
  - by intros [[_ ->]|(_ & _ & _ & _ & ? & _)]%scroll_Ok.
  - by intros ->%queryRanking_state.
  - by intros ->%querySubmissionCommand_state.
  - by intros [= <- <-].
  - by intros [= <- <-].
Qed.

Lemma isStart_false c : isStart c = false → ∀ d p, c ≠ START d p.
Proof. intros H d p ->. done. Qed.

Lemma isSubmit_false c : isSubmit c = false → ∀ p n st a, c ≠ SUBMIT p n st a.
Proof. intros H p n st a ->. done. Qed.

(** ** Runs in which no submission precedes START *)

Lemma run_coherent_started cmds s out s' :
  everyTeam coherent s → started s = true →
  run cmds s = Ok (out, s') → everyTeam coherent s'.
Proof.
  revert s out. induction cmds as [|c cmds IH]; intros s out H Hst.
  - by intros [= <- <-].
  - intros [[_ ->]|(_ & out1 & s1 & out2 & H1 & H2)]%run_cons; [done|].
    destruct (isStart c) eqn:Hc.
    + destruct c; try done. cbn [execute] in H1.
      rewrite (startCompetition_started _ _ _ Hst) in H1. simplify_eq. by eapply IH.
    + eapply IH; [| |exact H2].
      * by eapply (preserves_coherent_execute c Hc).
      * by rewrite (execute_started _ _ _ _ Hc H1).
Qed.

Lemma run_coherent_no_start cmds s out s' :
  everyTeam coherent s → forallb (λ c, negb (isStart c)) cmds = true →
  run cmds s = Ok (out, s') → everyTeam coherent s'.
Proof.
  revert s out. induction cmds as [|c cmds IH]; intros s out H Hns.
  - by intros [= <- <-].
  - cbn in Hns. apply andb_prop in Hns as [Hc%negb_true_iff Hns].
    intros [[_ ->]|(_ & out1 & s1 & out2 & H1 & H2)]%run_cons; [done|].
    eapply IH; [|done|exact H2]. by eapply (preserves_coherent_execute c Hc).
Qed.

Lemma run_coherent_pristine cmds s out s' :
  everyTeam coherent s → everyTeam pristineTeam s → started s = false →
  submitsFollowStart cmds = true →
  run cmds s = Ok (out, s') → everyTeam coherent s'.
Proof.
  revert s out. induction cmds as [|c cmds IH]; intros s out H Hp Hst Hok.
  - by intros [= <- <-].
  - intros [[_ ->]|(_ & out1 & s1 & out2 & H1 & H2)]%run_cons; [done|].
    cbn [submitsFollowStart] in Hok. destruct (isStart c) eqn:Hc.
    + destruct c; try done. cbn [execute] in H1.
      apply startCompetition_Ok in H1 as [[? _]|[_ ->]]; [congruence|].
      eapply run_coherent_started; [| |exact H2]; [|done].
      apply map_Forall_fmap. intros n t Hn. cbn.
      apply coherent_resetProblems; [exact (Hp n t Hn)|exact (H n t Hn)].
    + pose proof (preserves_coherent_execute c Hc s out1 s1 H H1) as Hcoh1.
      destruct (isSubmit c) eqn:Hs.
      * by eapply run_coherent_no_start.
      * eapply IH; [exact Hcoh1| | |exact Hok|exact H2].
        -- eapply (preserves_execute_no_submit pristineTeam); [..|exact Hp|exact H1].
           ++ apply pristineTeam_newTeam.
           ++ apply pristineTeam_updateCache.
           ++ apply pristineTeam_problemAt.
           ++ apply pristineTeam_resolve.
           ++ by apply isStart_false.
           ++ by apply isSubmit_false.
        -- by rewrite (execute_started _ _ _ _ Hc H1).
Qed.

(** ** What a fresh cache holds *)

Lemma coherent_reads_exact t :
  coherent t →
  (getSolvedCount t).1 = solvedCountOf t ∧ (getPenaltyTime t).1 = wrapInt (penaltyOf t).
Proof.
  intros H. destruct (freshMetrics_spec t) as [<- <-]. rewrite <- H. done.
Qed.

(** In a run in which no submission precedes the START that takes effect
    no cache is ever stale: what the ranking reads is the number of solved
    problems and the [int] value of the sum over them of solve time plus
    20 per wrong attempt, which is that sum when it fits an [int]. *)
Lemma penalty_exact_when_start_precedes_submissions cmds out s :
  submitsFollowStart cmds = true →
  run cmds initialSystem = Ok (out, s) →
  ∀ n t, teams s !! n = Some t →
    (getSolvedCount t).1 = solvedCountOf t ∧
    (getPenaltyTime t).1 = wrapInt (penaltyOf t) ∧
    (fitsInt (penaltyOf t) → (getPenaltyTime t).1 = penaltyOf t).
Proof.
  intros Hok Hrun n t Hn.
  assert (everyTeam coherent s) as H.
  { eapply (run_coherent_pristine cmds initialSystem); [| | |exact Hok|exact Hrun]; try done;
      apply map_Forall_empty. }
  destruct (coherent_reads_exact t (H n t Hn)) as [-> ->].
  split_and!; [done|done|]. apply wrapInt_small.
Qed.

(** ** Frozen attempts are attempts on unsolved problems *)

Lemma charMin_le a b :
  charVal (charMin a b) ≤ charVal a ∧ charVal (charMin a b) ≤ charVal b.
Proof. unfold charMin. destruct (Z.ltb_spec (charVal b) (charVal a)); lia. Qed.

Lemma scanStep_fst acc j :
  (scanStep acc j).1 =
  if 0 <? frozenSubmissions (problems acc.2 !!! problemLetter j)
  then charMin acc.1 (problemLetter j) else acc.1.
Proof.
  destruct acc as [sm t]. unfold scanStep. by rewrite (surjective_pairing (problemAt _ _)).
Qed.

Lemma scanStep_view acc j c : problems (scanStep acc j).2 !!! c = problems acc.2 !!! c.
Proof. by destruct (scanStep_teamEquiv acc j) as [_ <-]. Qed.

(** The candidate only decreases, and ends up not above any frozen letter
    the search has looked at. *)
Lemma scan_min t l acc :
  (∀ c, problems acc.2 !!! c = problems t !!! c) →
  charVal (foldl scanStep acc l).1 ≤ charVal acc.1 ∧
  ∀ j, j ∈ l → frozenAt t j → charVal (foldl scanStep acc l).1 ≤ charVal (problemLetter j).
Proof.
  revert acc. induction l as [|j0 l IH]; intros acc Hview.
  - split; [done|]. intros j Hj. by apply elem_of_nil in Hj.
  - cbn [foldl]. destruct (IH (scanStep acc j0)) as [Hle Hmin].
    { intros c. by rewrite scanStep_view. }
    assert (charVal (scanStep acc j0).1 ≤ charVal acc.1) as Hstep.
    { rewrite scanStep_fst. destruct (_ <? _); [|done]. apply charMin_le. }
    split; [lia|]. intros j [->|Hj]%elem_of_cons Hf; [|by apply Hmin].
    etrans; [exact Hle|]. rewrite scanStep_fst, Hview.
    unfold frozenAt in Hf. rewrite (proj2 (Z.ltb_lt _ _) Hf). apply charMin_le.
Qed.

(** The candidate is the sentinel or one of the letters looked at, with a
    frozen attempt. *)
Lemma scan_candidate_in (P : Z → Prop) t l acc :
  (acc.1 = charOfInt 91 ∨ ∃ j, P j ∧ acc.1 = problemLetter j ∧ frozenAt t j) →
  (∀ j, j ∈ l → P j) →
  (∀ c, problems acc.2 !!! c = problems t !!! c) →
  (foldl scanStep acc l).1 = charOfInt 91 ∨
  ∃ j, P j ∧ (foldl scanStep acc l).1 = problemLetter j ∧ frozenAt t j.
Proof.
  revert acc. induction l as [|j0 l IH]; intros acc Hacc HP Hview; [done|].
  cbn [foldl]. apply IH.
  - rewrite scanStep_fst, Hview.
    destruct (Z.ltb_spec 0 (frozenSubmissions (problems t !!! problemLetter j0))) as [Hf|]; [|done].
    unfold charMin. destruct (_ <? _); [|done]. right. exists j0. split; [|done].
    apply HP. by left.
  - intros j Hj. apply HP. by right.
  - intros c. by rewrite scanStep_view.
Qed.

Lemma scanTeam_selectable count t :
  charVal (scanTeam count t).1 ≤ charVal "Z" →
  selectable count (scanTeam count t).1 ∧
  0 < frozenSubmissions (problems t !!! (scanTeam count t).1).
Proof.
  intros Hle. unfold scanTeam in *.
  destruct (scan_candidate_in (λ j, 0 ≤ j < count) t (indices count) (charOfInt 91, t))
    as [Hs|(j & Hj & Hl & Hf)]; [by left|by intros j ?%elem_of_indices|done| |].
  - rewrite Hs, charVal_sentinel, charVal_Z in Hle. lia.
  - split; [exists j; by rewrite <- Hl|]. by rewrite Hl.
Qed.

Lemma scanTeam_drained count t c :
  ¬ charVal (scanTeam count t).1 ≤ charVal "Z" →
  selectable count c → ¬ 0 < frozenSubmissions (problems t !!! c).
Proof.
  intros Hgt (j & Hj & -> & Hz) Hf. apply Hgt.
  destruct (scan_min t (indices count) (charOfInt 91, t)) as [_ Hmin]; [done|].
  etrans; [|exact Hz]. apply Hmin; [by apply elem_of_indices|done].
Qed.

Lemma findFrozen_selectable names s t p s' :
  findFrozen names s = Ok (Some (t, p), s') →
  ∃ tm, teams s !! t = Some tm ∧ selectable (problemCount s) p ∧
        0 < frozenSubmissions (problems tm !!! p).
Proof.
  revert s. induction names as [|n names IH]; intros s; [done|].
  cbn [findFrozen]. rewrite bind_get.
  destruct (teams s !! n) as [tm|] eqn:Hn.
  2:{ unfold bind. by rewrite (onTeam_None _ _ _ Hn). }
  pose proof (onTeam_Some n (scanTeam (problemCount s)) s tm Hn) as Hscan.
  rewrite (bind_eq _ _ _ _ _ Hscan); cbv beta.
  set (s1 := setTeams s _) in *.
  assert (storeEquiv s s1) as E1.
  { eapply (storeEquiv_onTeam n (scanTeam (problemCount s))); [|exact Hscan].
    intros. apply scanTeam_teamEquiv. }
  destruct (Z.leb_spec (charVal (scanTeam (problemCount s) tm).1) (charVal "Z")) as [Hle|Hgt].
  - intros [= <- <- <-]. exists tm. split; [done|]. by apply scanTeam_selectable.
  - intros (tm1 & Htm1 & Hsel & Hf)%IH.
    destruct (storeEquiv_lookup_inv _ _ _ _ E1 Htm1) as (tm0 & Htm0 & [_ V]).
    exists tm0. split; [done|]. rewrite V. by rewrite <- (equiv_count _ _ E1).
Qed.

Lemma findFrozen_drained names s s' n t c :
  findFrozen names s = Ok (None, s') →
  n ∈ names → teams s !! n = Some t → selectable (problemCount s) c →
  ¬ 0 < frozenSubmissions (problems t !!! c).
Proof.
  revert s t. induction names as [|n0 names IH]; intros s t Hfind Hin Ht Hsel.
  { by apply elem_of_nil in Hin. }
  revert Hfind. cbn [findFrozen]. rewrite bind_get.
  destruct (teams s !! n0) as [tm|] eqn:Hn.
  2:{ unfold bind. by rewrite (onTeam_None _ _ _ Hn). }
  pose proof (onTeam_Some n0 (scanTeam (problemCount s)) s tm Hn) as Hscan.
  rewrite (bind_eq _ _ _ _ _ Hscan); cbv beta.
  set (s1 := setTeams s _) in *.
  assert (storeEquiv s s1) as E1.
  { eapply (storeEquiv_onTeam n0 (scanTeam (problemCount s))); [|exact Hscan].
    intros. apply scanTeam_teamEquiv. }
  destruct (Z.leb_spec (charVal (scanTeam (problemCount s) tm).1) (charVal "Z")) as [Hle|Hgt];
    [done|].
  intros Hrest. apply elem_of_cons in Hin as [->|Hin].
  - simplify_eq. apply (scanTeam_drained (problemCount s)); [lia|done].
  - destruct (storeEquiv_lookup _ _ _ _ E1 Ht) as (t1 & Ht1 & [_ V]).
    rewrite V. apply (IH s1 t1 Hrest Hin Ht1). by rewrite (equiv_count _ _ E1).
Qed.

Lemma selectTarget_selectable s t p s' :
  selectTarget s = Ok (Some (t, p), s') →
  ∃ tm, teams s !! t = Some tm ∧ selectable (problemCount s) p ∧
        0 < frozenSubmissions (problems tm !!! p).
Proof. unfold selectTarget. rewrite bind_get. apply findFrozen_selectable. Qed.

Lemma selectTarget_drained s s' : selectTarget s = Ok (None, s') → drained s.
Proof.
  unfold selectTarget. rewrite bind_get. intros Hfind n t c Hn.
  apply (findFrozen_drained _ _ _ _ _ _ Hfind). by apply elem_of_reverse.
Qed.

Lemma frozenSound_views s s' :
  viewsRelated (λ _ _ ps, ps) s s' → frozenSound s → frozenSound s'.
Proof.
  intros [V _ Hfr Hpc] H n t' c Hn. rewrite Hfr, Hpc.
  pose proof (V n) as Vn. rewrite Hn in Vn. inversion Vn as [t ? Hv Ht|]; subst.
  rewrite Hv. by apply (H n).
Qed.

Lemma frozenSound_storeEquiv s s' : storeEquiv s s' → frozenSound s → frozenSound s'.
Proof. intros E. by apply frozenSound_views, storeEquiv_views. Qed.

Lemma frozenSound_resolvedAt t p s s' : resolvedAt t p s s' → frozenSound s → frozenSound s'.
Proof.
  intros [V _ Hfr Hpc] H n t' c Hn. rewrite Hfr, Hpc.
  pose proof (V n) as Vn. rewrite Hn in Vn. inversion Vn as [t0 ? Hv Ht|]; subst.
  rewrite Hv. unfold resolveOne. case_decide; [|by apply (H n)].
  rewrite resolveProblem_clears. lia.
Qed.

Lemma drained_storeEquiv s s' :
  storeEquiv s s' → ranking s' = ranking s → drained s → drained s'.
Proof.
  intros E R H n t' c. rewrite R, (equiv_count _ _ E). intros Hin Hn.
  destruct (storeEquiv_lookup_inv _ _ _ _ E Hn) as (t & Ht & [_ V]).
  rewrite <- V. by apply (H n).
Qed.

(** What a pass of the loop does, read off its result. *)
Lemma scrollStep_cases s r s' :
  registered s → scrollStep s = Ok (r, s') →
  registered s' ∧ (∀ n, n ∈ ranking s' ↔ n ∈ ranking s) ∧
  match r with
  | None => storeEquiv s s' ∧ drained s
  | Some _ => ∃ t p, resolvedAt t p s s'
  end.
Proof.
  intros Hreg Hstep. destruct (selectTarget_total s Hreg) as (r0 & s1 & Hsel & Hr).
  destruct r0 as [[t p]|].
  - destruct Hr as (tm & Htm & Hf).
    destruct (resolveProblem (problems tm !!! p)).2 eqn:Hch.
    + destruct (scrollStep_changed s s1 t p tm Hreg Hsel Htm Hch)
        as (out & s0 & tm' & above & passed & below & H0 & Hreg' & Hres & _ & _ & _ & R & _ & R' & _).
      rewrite Hstep in H0. simplify_eq. split; [done|]. split; [|by exists t, p].
      intros n. rewrite R, R'.
      rewrite !elem_of_app, !elem_of_cons, !elem_of_app. tauto.
    + destruct (scrollStep_unchanged s s1 t p tm Hreg Hsel Htm Hch)
        as (s0 & H0 & Hreg' & Hres & R).
      rewrite Hstep in H0. simplify_eq. split; [done|]. split; [by rewrite R|by exists t, p].
  - pose proof (scrollStep_break _ _ Hsel) as H0. rewrite Hstep in H0. simplify_eq.
    destruct (quiet_selectTarget _ _ _ Hsel) as [E R].
    split; [by apply (storeEquiv_registered s)|]. split; [by rewrite R|].
    split; [done|]. by eapply selectTarget_drained.
Qed.

Lemma complete_kept s s' :
  (∀ n, is_Some (teams s' !! n) → is_Some (teams s !! n)) →
  (∀ n, n ∈ ranking s' ↔ n ∈ ranking s) → complete s → complete s'.
Proof. intros Ht Hr H n Hn. apply Hr, H, Ht, Hn. Qed.

(** When the loop is left, no registered team has a frozen attempt on a
    selectable letter. *)
Lemma scrollLoop_drains fuel s out s' :
  registered s → complete s → frozenSound s →
  scrollLoop fuel s = Ok (Some out, s') →
  registered s' ∧ frozenSound s' ∧ drained s' ∧ complete s'.
Proof.
  revert s out. induction fuel as [|fuel IH]; intros s out Hreg Hc Hs; [done|].
  cbn [scrollLoop]. intros ([pass|] & s1 & Hstep & Hrest)%bind_Ok.
  - apply bind_Ok in Hrest as (rest & s2 & Hloop & Hret).
    destruct rest as [rest|]; [|done]. injection Hret as [= <- <-].
    destruct (scrollStep_cases _ _ _ Hreg Hstep) as (Hreg1 & R1 & t & p & Hres).
    apply (IH s1 rest); [done| |by eapply frozenSound_resolvedAt|done].
    apply (complete_kept s); [|done|done].
    intros n. by apply (viewsRelated_is_Some _ _ _ _ Hres).
  - injection Hrest as [= <- <-].
    destruct (scrollStep_cases _ _ _ Hreg Hstep) as (Hreg1 & R1 & E & Hd).
    split; [done|]. split; [by apply (frozenSound_storeEquiv s)|]. split.
    + intros n t' c Hin Hn. rewrite (equiv_count _ _ E).
      destruct (storeEquiv_lookup_inv _ _ _ _ E Hn) as (t & Ht & [_ V]).
      rewrite <- V. apply (Hd n); [by apply R1|done].
    + apply (complete_kept s); [|done|done]. intros n. by apply (storeEquiv_is_Some _ _ _ E).
Qed.

Lemma scroll_frozenSound s out s' :
  frozenSound s → scroll s = Ok (out, s') → frozenSound s'.
Proof.
  intros Hs. destruct (frozen s) eqn:Hfr.
  2:{ rewrite (scroll_unfrozen s Hfr). by intros [= <- <-]. }
  unfold scroll. rewrite bind_get, Hfr. cbn [negb].
  destruct (flushScoreboard_total s) as (s1 & H1 & E1 & P1 & Hreg1).
  rewrite (bind_eq _ _ _ _ _ H1); cbv beta.
  destruct (printScoreboard_total s1 Hreg1) as (out1 & s2 & H2 & E2 & R2).
  rewrite (bind_eq _ _ _ _ _ H2); cbv beta. rewrite bind_get.
  assert (registered s2) as Hreg2 by (by apply (storeEquiv_registered s1)).
  assert (complete s2) as Hc2.
  { intros n Hn. rewrite R2, P1. apply elem_of_teamNames.
    by apply (storeEquiv_is_Some _ _ _ E1), (storeEquiv_is_Some _ _ _ E2). }
  assert (frozenSound s2) as Hs2.
  { by apply (frozenSound_storeEquiv s1), (frozenSound_storeEquiv s). }
  intros ([lines|] & s3 & Hloop & Hrest)%bind_Ok; [|done].
  destruct (scrollLoop_drains _ _ _ _ Hreg2 Hc2 Hs2 Hloop) as (Hreg3 & Hs3 & Hd3 & Hc3).
  revert Hrest. rewrite bind_modify.
  intros (after & s4 & H4 & [= <- <-])%bind_Ok.
  destruct (printScoreboard_total (setFrozen s3 false) Hreg3) as (out4 & s4' & H4' & E4 & R4).
  rewrite H4 in H4'. simplify_eq.
  apply (frozenSound_storeEquiv (setFrozen s3 false)); [done|].
  intros n t c Hn Hsel Hf. cbn in *. exfalso.
  apply (Hd3 n t c); [apply Hc3; by eexists|done|done|done].
Qed.

Lemma recordSubmission_frozenSound isFrozen sub team c :
  (0 < frozenSubmissions (problems team !!! c) →
   solved (problems team !!! c) = false ∧ isFrozen = true) →
  0 < frozenSubmissions (problems (recordSubmission isFrozen sub team).2 !!! c) →
  solved (problems (recordSubmission isFrozen sub team).2 !!! c) = false ∧ isFrozen = true.
Proof.
  intros H. unfold recordSubmission.
  destruct (decide (firstChar (problem sub) = c)) as [<-|Hne].
  - destruct isFrozen, (solved (problems team !!! _)) eqn:Hs; cbn [andb negb];
      repeat case_match; cbn [snd problems setProblems invalidateCache];
      rewrite lookup_total_insert_eq; cbn [solved frozenSubmissions];
      intros Hf; try done; by destruct (H Hf).
  - repeat case_match; cbn [snd problems setProblems invalidateCache];
      by rewrite lookup_total_insert_ne.
Qed.

Lemma resetProblems_view count t j :
  0 ≤ j < count → problems (resetProblems count t) !!! problemLetter j = newProblemStatus.
Proof.
  intros Hj%elem_of_indices. unfold resetProblems. revert Hj.
  generalize (indices count). intros l. induction l as [|i l IH] using rev_ind.
  - intros Hj. by apply elem_of_nil in Hj.
  - rewrite foldl_snoc. cbn [problems setProblems]. intros Hj.
    destruct (decide (problemLetter i = problemLetter j)) as [->|Hne].
    + by rewrite lookup_total_insert_eq.
    + rewrite lookup_total_insert_ne by done. apply IH.
      apply elem_of_app in Hj as [Hj|Hj%list_elem_of_singleton]; [done|]. by subst.
Qed.

Lemma execute_frozenSound c s out s' :
  frozenSound s → execute c s = Ok (out, s') → frozenSound s'.
Proof.
  intros Hs. destruct c; cbn [execute].
  - intros [->|(_ & Hnone & ->)]%addTeam_Ok; [done|]. intros n t c. cbn.
    destruct (decide (teamName = n)) as [->|Hne].
    + rewrite lookup_insert_eq. intros [= <-]. cbn. rewrite lookup_total_empty. cbn. lia.
    + rewrite lookup_insert_ne by done. apply Hs.
  - intros [[_ ->]|[Hst ->]]%startCompetition_Ok; [done|]. intros n t c. cbn.
    rewrite lookup_fmap. destruct (teams s !! n) as [t0|]; [|done]. intros [= <-].
    intros (j & Hj & -> & _). rewrite resetProblems_view by done. cbn. lia.
  - intros (team & Ht & _ & ->)%submit_Ok. intros n t c. cbn.
    destruct (decide (teamName = n)) as [->|Hne].
    + rewrite lookup_insert_eq. intros [= <-] Hsel.
      apply recordSubmission_frozenSound. by apply (Hs n).
    + rewrite lookup_insert_ne by done. apply Hs.
  - intros [E _]%flush_Ok. by apply (frozenSound_storeEquiv s).
  - intros [->| ->]%freeze_Ok; [done|]. intros n t c Hn Hsel Hf. cbn in *.
    split; [|done]. by apply (Hs n t c).
  - by apply scroll_frozenSound.
  - by intros ->%queryRanking_state.
  - by intros ->%querySubmissionCommand_state.
  - by intros [= <- <-].
  - by intros [= <- <-].
Qed.

(** In every reachable state, a frozen attempt on a selectable letter is an
    attempt on an unsolved problem, made while the scoreboard is frozen. *)
Lemma reachable_frozenSound s : reachable s → frozenSound s.
Proof.
  intros (cmds & out & Hrun). revert Hrun.
  assert (frozenSound initialSystem) as H0 by (intros n t c Hn; done).
  revert H0. generalize initialSystem. revert out.
  induction cmds as [|c cmds IH]; intros out s0 H0.
  - by intros [= <- <-].
  - intros [[_ ->]|(_ & out1 & s1 & out2 & H1 & H2)]%run_cons; [done|].
    apply (IH out2 s1); [|done]. by eapply execute_frozenSound.
Qed.

Lemma reachable_visited s : reachable s → visited s.
Proof.
  intros (cmds & out & Hrun). revert Hrun.
  pose proof visited_initial as H0.
  revert H0. generalize initialSystem. revert out.
  induction cmds as [|c cmds IH]; intros out s0 H0.
  - by intros [= <- <-].
  - intros [[_ ->]|(_ & out1 & s1 & out2 & H1 & H2)]%run_cons; [done|].
    apply (IH out2 s1); [|done]. by eapply visited_command.
Qed.

Lemma visited_registered s : visited s → registered s.
Proof.
  induction 1 as [|c s out s' _ IH H|s s' _ IH H|s out s' _ IH H|s r s' _ IH H].
  - intros n Hn. by apply elem_of_nil in Hn.
  - by eapply execute_registered.
  - destruct (flushScoreboard_total s) as (s0 & H0 & _ & _ & Hreg). rewrite H in H0.
    by simplify_eq.
  - destruct (printScoreboard_total s IH) as (out0 & s0 & H0 & E & R). rewrite H in H0.
    simplify_eq. by apply (storeEquiv_registered s).
  - by destruct (scrollStep_cases _ _ _ IH H).
Qed.

Lemma visited_frozenSound s : visited s → frozenSound s.
Proof.
  induction 1 as [|c s out s' Hv IH H|s s' Hv IH H|s out s' Hv IH H|s r s' Hv IH H].
  - intros n t c Hn. done.
  - by eapply execute_frozenSound.
  - destruct (flushScoreboard_total s) as (s0 & H0 & E & _). rewrite H in H0.
    simplify_eq. by apply (frozenSound_storeEquiv s).
  - destruct (printScoreboard_total s (visited_registered s Hv)) as (out0 & s0 & H0 & E & R).
    rewrite H in H0. simplify_eq. by apply (frozenSound_storeEquiv s).
  - destruct (scrollStep_cases _ _ _ (visited_registered s Hv) H) as (_ & _ & Hr).
    destruct r as [out|].
    + destruct Hr as (t & p & Hres). by eapply frozenSound_resolvedAt.
    + destruct Hr as [E _]. by apply (frozenSound_storeEquiv s).
Qed.

(** The problem a pass of the loop selects is unsolved, in every state the
    engine goes through. *)
Lemma selectTarget_unsolved s t p s1 tm :
  visited s → selectTarget s = Ok (Some (t, p), s1) → teams s !! t = Some tm →
  solved (problems tm !!! p) = false ∧ 0 < frozenSubmissions (problems tm !!! p) ∧
  frozen s = true.
Proof.
  intros Hv Hsel Htm. destruct (selectTarget_selectable _ _ _ _ Hsel) as (tm0 & Htm0 & Hp & Hf).
  simplify_eq. destruct (visited_frozenSound s Hv t tm p Htm Hp Hf). done.
Qed.

(** C3.  In every state the engine goes through, the problem a pass of the
    scroll loop selects is unsolved and has frozen attempts, and the pass
    replays its [frozenSubs] in order.  The first accepted submission sets
    [solved] and [solveTime] to its time, each submission before it adds
    one to [wrongAttempts], and whatever follows it has no effect; when no
    submission is accepted every one of them adds one to [wrongAttempts]
    and nothing is printed.  [frozenSubmissions] and [frozenSubs] are
    cleared in both cases, and [submissions] is left as it is. *)
Theorem scrollStep_replays_frozen_submissions (s s1 : ICPCSystem) t p tm :
  visited s →
  selectTarget s = Ok (Some (t, p), s1) →
  teams s !! t = Some tm →
  solved (problems tm !!! p) = false ∧
  0 < frozenSubmissions (problems tm !!! p) ∧
  ∃ out s' tm',
    scrollStep s = Ok (Some out, s') ∧ teams s' !! t = Some tm' ∧
    frozenSubmissions (problems tm' !!! p) = 0 ∧
    frozenSubs (problems tm' !!! p) = [] ∧
    submissions (problems tm' !!! p) = submissions (problems tm !!! p) ∧
    (∀ before sub after,
       frozenSubs (problems tm !!! p) = before ++ sub :: after →
       Forall (λ x, ¬ isAccepted x) before → isAccepted sub →
       solved (problems tm' !!! p) = true ∧
       solveTime (problems tm' !!! p) = time sub ∧
       wrongAttempts (problems tm' !!! p) =
         wrongAttempts (problems tm !!! p) + Z.of_nat (length before)) ∧
    (Forall (λ x, ¬ isAccepted x) (frozenSubs (problems tm !!! p)) →
       solved (problems tm' !!! p) = false ∧
       solveTime (problems tm' !!! p) = solveTime (problems tm !!! p) ∧
       wrongAttempts (problems tm' !!! p) =
         wrongAttempts (problems tm !!! p) + Z.of_nat (length (frozenSubs (problems tm !!! p))) ∧
       out = []).
Proof.
  intros Hv Hsel Htm.
  destruct (selectTarget_unsolved s t p s1 tm Hv Hsel Htm) as (Hs & Hf & _).
  split; [done|]. split; [done|].
  exact (scrollStep_replays s s1 t p tm (visited_registered s Hv) Hsel Htm Hs).
Qed.

Lemma scrollStep_replays_frozen_submissions_witness :
  solved (problems scrollTraceTarget !!! "B"%char) = false ∧
  0 < frozenSubmissions (problems scrollTraceTarget !!! "B"%char) ∧
  ∃ out s' tm',
    scrollStep (stateAfter scrollTrace) = Ok (Some out, s') ∧ teams s' !! "bob" = Some tm' ∧
    frozenSubmissions (problems tm' !!! "B"%char) = 0 ∧
    frozenSubs (problems tm' !!! "B"%char) = [] ∧
    submissions (problems tm' !!! "B"%char) = submissions (problems scrollTraceTarget !!! "B"%char) ∧
    (∀ before sub after,
       frozenSubs (problems scrollTraceTarget !!! "B"%char) = before ++ sub :: after →
       Forall (λ x, ¬ isAccepted x) before → isAccepted sub →
       solved (problems tm' !!! "B"%char) = true ∧
       solveTime (problems tm' !!! "B"%char) = time sub ∧
       wrongAttempts (problems tm' !!! "B"%char) =
         wrongAttempts (problems scrollTraceTarget !!! "B"%char) + Z.of_nat (length before)) ∧
    (Forall (λ x, ¬ isAccepted x) (frozenSubs (problems scrollTraceTarget !!! "B"%char)) →
       solved (problems tm' !!! "B"%char) = false ∧
       solveTime (problems tm' !!! "B"%char) = solveTime (problems scrollTraceTarget !!! "B"%char) ∧
       wrongAttempts (problems tm' !!! "B"%char) =
         wrongAttempts (problems scrollTraceTarget !!! "B"%char)
         + Z.of_nat (length (frozenSubs (problems scrollTraceTarget !!! "B"%char))) ∧
       out = []).
Proof.
  apply (scrollStep_replays_frozen_submissions (stateAfter scrollTrace) scrollTraceSelected
           "bob" "B"%char scrollTraceTarget).
  - apply reachable_visited. exists scrollTrace, (outputAfter scrollTrace).
    vm_compute. reflexivity.
  - vm_compute. reflexivity.
  - vm_compute. reflexivity.
Defined.

(** ** The filters of a QUERY_SUBMISSION line *)

Lemma findList_Some pat l i :
  findList pat l = Some i ↔ occursAt pat l i ∧ ∀ j, (j < i)%nat → ¬ occursAt pat l j.
Proof.
  unfold occursAt. revert i. induction l as [|c l IH]; intros i; cbn [findList].
  - case_decide as H.
    + split.
      * intros [= <-]. split; [done|]. lia.
      * intros [_ Hmin]. destruct i as [|i]; [done|]. destruct (Hmin O); [lia|done].
    + split; [done|]. intros [Hi _]. destruct i; by rewrite ?drop_nil in Hi.
  - case_decide as H.
    + split.
      * intros [= <-]. split; [done|]. lia.
      * intros [_ Hmin]. destruct i as [|i]; [done|]. destruct (Hmin O); [lia|done].
    + rewrite fmap_Some. split.
      * intros (k & Hk%IH & ->). destruct Hk as [Hk Hmin]. split; [done|].
        intros [|j] Hj; [done|]. cbn [drop]. apply Hmin. lia.
      * intros [Hi Hmin]. destruct i as [|i]; [done|]. exists i. split; [|done].
        apply IH. split; [done|]. intros j Hj. apply (Hmin (S j)). lia.
Qed.

Lemma findList_None pat l : findList pat l = None ↔ ∀ j, ¬ occursAt pat l j.
Proof.
  unfold occursAt. split.
  - induction l as [|c l IH]; cbn [findList]; case_decide as H; try done.
    + intros _ j. by rewrite drop_nil.
    + intros Hnone%fmap_None [|j]; [done|]. cbn [drop]. by apply IH.
  - intros Hno. destruct (findList pat l) as [i|] eqn:H; [|done].
    apply findList_Some in H as [H _]. by destruct (Hno i).
Qed.

Lemma chars_app a b :
  list_ascii_of_string (a +:+ b) = list_ascii_of_string a ++ list_ascii_of_string b.
Proof. induction a as [|c a IH]; [done|]. simpl. by f_equal. Qed.

Lemma chars_length s : length (list_ascii_of_string s) = String.length s.
Proof. induction s as [|c s IH]; [done|]. simpl. by f_equal. Qed.

Lemma occursAt_lookup pat l j k c :
  occursAt pat l j → pat !! k = Some c → l !! (j + k)%nat = Some c.
Proof.
  unfold occursAt. intros H Hk. rewrite <- H in Hk.
  apply lookup_take_Some in Hk as [Hk _]. by rewrite lookup_drop in Hk.
Qed.

Lemma occursAt_app pre pat post : occursAt pat (pre ++ pat ++ post) (length pre).
Proof. unfold occursAt. by rewrite drop_app_length, take_app_length. Qed.

Lemma occursAt_inside pat (pre inner post : list ascii) j :
  (length pre ≤ j)%nat → (j + length pat ≤ length pre + length inner)%nat →
  occursAt pat (pre ++ inner ++ post) j → occursAt pat inner (j - length pre).
Proof.
  unfold occursAt. intros H1 H2.
  rewrite drop_app_ge by done. rewrite drop_app_le by lia.
  rewrite take_app_le; [done|]. rewrite length_drop. lia.
Qed.

Lemma findList_at pat l i :
  occursAt pat l i → (∀ j, (j < i)%nat → ¬ occursAt pat l j) → findList pat l = Some i.
Proof. intros. by apply findList_Some. Qed.

Lemma queryTail_chars p st :
  list_ascii_of_string (queryTail p st) =
  list_ascii_of_string " PROBLEM=" ++ list_ascii_of_string p ++
  list_ascii_of_string " AND STATUS=" ++ list_ascii_of_string st.
Proof. unfold queryTail. by rewrite !chars_app. Qed.

Lemma queryTail_find_problem p st : find "PROBLEM=" (queryTail p st) = 1.
Proof.
  unfold find. rewrite queryTail_chars. rewrite (findList_at _ _ 1%nat); [done|done|].
  intros j Hj. assert (j = O) as -> by lia. done.
Qed.

Lemma queryTail_find_and p st :
  " "%char ∉ list_ascii_of_string p →
  find " AND " (queryTail p st) = 9 + Z.of_nat (String.length p).
Proof.
  intros Hsp. unfold find. rewrite queryTail_chars.
  set (P := list_ascii_of_string p). set (St := list_ascii_of_string st).
  rewrite (findList_at _ _ (9 + length P)%nat).
  - unfold P. rewrite chars_length. lia.
  - change (list_ascii_of_string " PROBLEM=" ++ P ++ list_ascii_of_string " AND STATUS=" ++ St)
      with (list_ascii_of_string " PROBLEM=" ++ P ++ list_ascii_of_string " AND " ++
            list_ascii_of_string "STATUS=" ++ St).
    rewrite (app_assoc _ P).
    replace (9 + length P)%nat with (length (list_ascii_of_string " PROBLEM=" ++ P))
      by (by rewrite length_app).
    apply occursAt_app.
  - intros j Hj Hocc.
    destruct (decide (j = O)) as [->|Hj0].
    { pose proof (occursAt_lookup _ _ O 1%nat "A"%char Hocc eq_refl) as H. done. }
    pose proof (occursAt_lookup _ _ j O " "%char Hocc eq_refl) as H.
    rewrite Nat.add_0_r in H.
    destruct (decide (j < 9)%nat) as [Hlt|Hge].
    + do 9 (destruct j as [|j]; [done|]). lia.
    + rewrite lookup_app_r in H by (cbn; lia). rewrite lookup_app_l in H by (cbn; lia).
      apply Hsp. by eapply list_elem_of_lookup_2.
Qed.

Lemma queryTail_find_status p st :
  " "%char ∉ list_ascii_of_string p →
  findList (list_ascii_of_string "STATUS=") (list_ascii_of_string p) = None →
  find "STATUS=" (queryTail p st) = 14 + Z.of_nat (String.length p).
Proof.
  intros Hsp Hno. unfold find. rewrite queryTail_chars.
  set (P := list_ascii_of_string p). set (St := list_ascii_of_string st).
  rewrite (findList_at _ _ (14 + length P)%nat).
  - unfold P. rewrite chars_length. lia.
  - change (list_ascii_of_string " PROBLEM=" ++ P ++ list_ascii_of_string " AND STATUS=" ++ St)
      with (list_ascii_of_string " PROBLEM=" ++ P ++ list_ascii_of_string " AND " ++
            list_ascii_of_string "STATUS=" ++ St).
    rewrite (app_assoc _ P), (app_assoc _ (list_ascii_of_string " AND ")).
    replace (14 + length P)%nat
      with (length ((list_ascii_of_string " PROBLEM=" ++ P) ++ list_ascii_of_string " AND "))
      by (rewrite !length_app; cbn; lia).
    apply occursAt_app.
  - intros j Hj Hocc.
    pose proof (occursAt_lookup _ _ j O "S"%char Hocc eq_refl) as H.
    rewrite Nat.add_0_r in H.
    destruct (decide (j < 9)%nat) as [Hlt|Hge].
    { do 9 (destruct j as [|j]; [done|]). lia. }
    destruct (decide (j < 9 + length P)%nat) as [Hin|Hout].
    + destruct (decide (j + 7 ≤ 9 + length P)%nat) as [Hfit|Hcut].
      * apply (occursAt_inside _ (list_ascii_of_string " PROBLEM=") P) in Hocc;
          [|cbn; lia|cbn; lia].
        by apply (proj1 (findList_None _ _) Hno) in Hocc.
      * (* the occurrence would run over the space that follows the filter *)
        assert (∃ k, (k < 7)%nat ∧ (j + k = 9 + length P)%nat) as (k & Hk & Hpos).
        { exists (9 + length P - j)%nat. lia. }
        assert (is_Some (list_ascii_of_string "STATUS=" !! k)) as [c Hc].
        { apply lookup_lt_is_Some. cbn. lia. }
        pose proof (occursAt_lookup _ _ j k c Hocc Hc) as Hl. rewrite Hpos in Hl.
        rewrite lookup_app_r in Hl by (cbn; lia). rewrite lookup_app_r in Hl by (cbn; lia).
        replace (9 + length P - length (list_ascii_of_string " PROBLEM=") - length P)%nat
          with O in Hl by (cbn; lia).
        cbn in Hl. injection Hl as <-.
        do 7 (destruct k as [|k]; [done|]). lia.
    + rewrite lookup_app_r in H by (cbn; lia). rewrite lookup_app_r in H by (cbn; lia).
      rewrite lookup_app_l in H by (cbn; lia).
      remember (j - length (list_ascii_of_string " PROBLEM=") - length P)%nat as k eqn:Hk.
      assert (k < 5)%nat as Hk5 by (cbn in Hk; lia).
      do 5 (destruct k as [|k]; [done|]). lia.
Qed.

Lemma substr_middle (pre mid post : string) :
  Z.of_nat (String.length (pre +:+ mid +:+ post)) < 2 ^ 64 →
  substr (Z.of_nat (String.length pre)) (Z.of_nat (String.length mid)) (pre +:+ mid +:+ post)
  = Some mid.
Proof.
  intros Hsize. unfold substr. rewrite <- !chars_length, !chars_app, !length_app in *.
  rewrite (proj2 (Z.ltb_ge _ _)) by lia. f_equal.
  rewrite Nat2Z.id, drop_app_length.
  rewrite Z.min_l by lia. rewrite Nat2Z.id, take_app_length.
  apply string_of_list_ascii_of_string.
Qed.

Lemma substr_tail (pre post : string) :
  Z.of_nat (String.length (pre +:+ post)) < 2 ^ 64 →
  substr (Z.of_nat (String.length pre)) npos (pre +:+ post) = Some post.
Proof.
  intros Hsize. unfold substr, npos. rewrite <- !chars_length, !chars_app, !length_app in *.
  rewrite (proj2 (Z.ltb_ge _ _)) by lia. f_equal.
  rewrite Nat2Z.id, drop_app_length.
  rewrite Z.min_r by lia.
  replace (Z.to_nat _) with (length (list_ascii_of_string post)) by lia.
  rewrite firstn_all. apply string_of_list_ascii_of_string.
Qed.

Lemma string_app_assoc (a b c : string) : (a +:+ b) +:+ c = a +:+ b +:+ c.
Proof.
  induction a as [|x a IH]; [done|].
  change (String x ((a +:+ b) +:+ c) = String x (a +:+ b +:+ c)). by f_equal.
Qed.

Lemma string_length_app (a b : string) :
  String.length (a +:+ b) = (String.length a + String.length b)%nat.
Proof.
  induction a as [|x a IH]; [done|].
  change (S (String.length (a +:+ b)) = S (String.length a + String.length b)). by f_equal.
Qed.

(** X1.  A well-formed line gives back the two filters it was written
    from: for a problem filter without a space that does not contain
    [STATUS=], and any status filter, the tail
    [ PROBLEM=<problem> AND STATUS=<status>] is cut into exactly these two
    strings, and neither [substr] throws. *)
Theorem extractFilters_round_trip p st :
  " "%char ∉ list_ascii_of_string p →
  findList (list_ascii_of_string "STATUS=") (list_ascii_of_string p) = None →
  Z.of_nat (String.length (queryTail p st)) < 2 ^ 64 →
  extractFilters (queryTail p st) = Some (p, st).
Proof.
  intros Hsp Hno Hsize. unfold extractFilters.
  rewrite queryTail_find_problem, queryTail_find_and, queryTail_find_status by done.
  pose proof (substr_middle " PROBLEM=" p (" AND STATUS=" +:+ st) Hsize) as H1.
  pose proof (substr_tail (" PROBLEM=" +:+ p +:+ " AND STATUS=") st) as H2.
  rewrite !string_app_assoc in H2. specialize (H2 Hsize).
  unfold queryTail in *. rewrite !string_length_app in H2. rewrite !string_length_app in Hsize.
  change (String.length " PROBLEM=") with 9%nat in *.
  change (String.length " AND STATUS=") with 12%nat in *.
  unfold sizeT.
  rewrite (Z.mod_small (1 + 8)) by lia.
  rewrite (Z.mod_small (9 + _ - _)) by lia.
  rewrite (Z.mod_small (14 + _ + 7)) by lia.
  replace (9 + Z.of_nat (String.length p) - (1 + 8)) with (Z.of_nat (String.length p)) by lia.
  change (1 + 8) with (Z.of_nat 9). rewrite H1.
  replace (14 + Z.of_nat (String.length p) + 7)
    with (Z.of_nat (9 + (String.length p + 12))) by lia.
  by rewrite H2.
Qed.

(** X2.  A tail shorter than seven characters makes [substr] throw
    [std::out_of_range], which [main] does not catch: [PROBLEM=] does not
    fit in it, [find] answers [npos], and [npos + 8] wraps around to 7, a
    position past the end of the tail. *)
Theorem extractFilters_short_tail_throws rest :
  (String.length rest < 7)%nat → extractFilters rest = None.
Proof.
  intros Hlen. unfold extractFilters.
  assert (find "PROBLEM=" rest = npos) as ->.
  { unfold find.
    destruct (findList _ _) as [i|] eqn:Hf; [|done].
    apply findList_Some in Hf as [Hocc _]. unfold occursAt in Hocc.
    apply (f_equal length) in Hocc. rewrite length_take, length_drop, !chars_length in Hocc.
    change (String.length "PROBLEM=") with 8%nat in Hocc. lia. }
  unfold substr. change (sizeT (npos + 8)) with 7.
  by rewrite (proj2 (Z.ltb_lt _ _)) by lia.
Qed.

Lemma extractFilters_round_trip_witness :
  extractFilters (queryTail "ALL" "Wrong_Answer") = Some ("ALL", "Wrong_Answer").
Proof.
  apply extractFilters_round_trip.
  - apply (bool_decide_unpack _). vm_compute. reflexivity.
  - vm_compute. reflexivity.
  - vm_compute. reflexivity.
Defined.

Lemma extractFilters_short_tail_throws_witness : extractFilters EmptyString = None.
Proof. apply extractFilters_short_tail_throws. vm_compute. lia. Defined.

(** [find] answers [npos] or a position at which the pattern fits. *)
Lemma find_cases pat s :
  (0 < String.length pat)%nat →
  find pat s = npos ∨
  ∃ i : nat, find pat s = Z.of_nat i ∧ (i + String.length pat ≤ String.length s)%nat.
Proof.
  intros Hpat. unfold find. destruct (findList _ _) as [i|] eqn:Hf; [right|by left].
  exists i. split; [done|].
  apply findList_Some in Hf as [Hocc _]. unfold occursAt in Hocc.
  apply (f_equal length) in Hocc. rewrite length_take, length_drop, !chars_length in Hocc. lia.
Qed.

Lemma sizeT_le z : 0 ≤ z → sizeT z ≤ z.
Proof. intros Hz. unfold sizeT. apply Z.mod_le; lia. Qed.

Lemma substr_None pos len s : substr pos len s = None ↔ Z.of_nat (String.length s) < pos.
Proof.
  unfold substr. destruct (Z.ltb_spec (Z.of_nat (String.length s)) pos); split; try done; lia.
Qed.

(** The only tails on which a [substr] call of [main] throws are those
    shorter than seven characters. *)
Lemma extractFilters_None rest : extractFilters rest = None ↔ (String.length rest < 7)%nat.
Proof.
  unfold extractFilters.
  assert (substr (sizeT (find "PROBLEM=" rest + 8))
                 (sizeT (find " AND " rest - sizeT (find "PROBLEM=" rest + 8))) rest = None ↔
          (String.length rest < 7)%nat) as H1.
  { rewrite substr_None. destruct (find_cases "PROBLEM=" rest) as [->|(i & -> & Hi)]; [cbn; lia| |].
    - change (sizeT (npos + 8)) with 7. lia.
    - change (String.length "PROBLEM=") with 8%nat in Hi.
      pose proof (sizeT_le (Z.of_nat i + 8)). lia. }
  assert ((6 ≤ String.length rest)%nat →
          substr (sizeT (find "STATUS=" rest + 7)) npos rest ≠ None) as H2.
  { intros Hlen. rewrite substr_None. destruct (find_cases "STATUS=" rest) as [->|(j & -> & Hj)]; [cbn; lia| |].
    - change (sizeT (npos + 7)) with 6. lia.
    - change (String.length "STATUS=") with 7%nat in Hj.
      pose proof (sizeT_le (Z.of_nat j + 7)). lia. }
  destruct (substr (sizeT (find "PROBLEM=" rest + 8)) _ rest) as [pf|].
  - destruct (substr (sizeT (find "STATUS=" rest + 7)) npos rest) as [sf|].
    + split; [done|]. intros Hl. by apply H1 in Hl.
    + split; [|done]. intros _. destruct (decide (String.length rest < 7)%nat); [done|].
      destruct H2; [lia|done].
  - split; [|done]. intros _. by apply H1.
Qed.

(** ** Invariants of the problem statuses *)

Lemma recordSubmission_view isFrozen sub team c :
  problems (recordSubmission isFrozen sub team).2 !!! c =
  if decide (firstChar (problem sub) = c)
  then recordOn isFrozen sub (problems team !!! c)
  else problems team !!! c.
Proof.
  unfold recordSubmission, recordOn. case_decide as Hc.
  - subst c. repeat case_match; cbn [snd problems setProblems invalidateCache];
      by rewrite lookup_total_insert_eq.
  - repeat case_match; cbn [snd problems setProblems invalidateCache];
      by rewrite lookup_total_insert_ne.
Qed.

Lemma resetProblems_views count t c :
  problems (resetProblems count t) !!! c =
  if bool_decide (c ∈ problemLetter <$> indices count)
  then newProblemStatus else problems t !!! c.
Proof.
  unfold resetProblems. generalize (indices count). intros l.
  induction l as [|i l IH] using rev_ind.
  - by rewrite bool_decide_eq_false_2 by (by intros ?%elem_of_nil).
  - rewrite foldl_snoc, fmap_app. cbn [problems setProblems fmap list_fmap].
    destruct (decide (problemLetter i = c)) as [<-|Hne].
    + rewrite lookup_total_insert_eq, bool_decide_eq_true_2; [done|].
      apply elem_of_app. right. by left.
    + rewrite lookup_total_insert_ne by done. rewrite IH.
      apply (f_equal (λ b : bool, if b then _ else _)). apply bool_decide_ext.
      rewrite elem_of_app, list_elem_of_singleton. intuition congruence.
Qed.

Lemma resolveAndInvalidate_view p t c :
  problems (resolveAndInvalidate p t) !!! c =
  if decide (p = c) then (resolveProblem (problems t !!! p)).1 else problems t !!! c.
Proof.
  rewrite <- resolveAt_view. unfold resolveAndInvalidate. by destruct (resolveAt p t).1.
Qed.

Section StatusInvariant.
Variable Q : ascii → ProblemStatus → Prop.
Hypothesis Q_new : ∀ c, Q c newProblemStatus.
Hypothesis Q_record : ∀ b sub ps,
  Q (firstChar (problem sub)) ps → Q (firstChar (problem sub)) (recordOn b sub ps).
Hypothesis Q_resolve : ∀ c ps, Q c ps → Q c (resolveProblem ps).1.

Lemma everyStatus_execute c : preserves (everyStatus Q) (execute c).
Proof.
  destruct c as [| d p | | | | | | | |] eqn:Hc;
    try (rewrite <- Hc; apply preserves_execute; [..|by subst]).
  all: try (intros n c0; cbn; rewrite lookup_total_empty; apply Q_new).
  all: try (intros t H c0; by rewrite updateCache_problems).
  all: try (intros c1 t H c0; destruct (teamEquiv_problemAt c1 t) as [_ <-]; apply H).
  all: try (intros b sub t H c0; rewrite recordSubmission_view; case_decide; [subst; apply Q_record|]; apply H).
  all: try (intros p0 t H c0; rewrite resolveAndInvalidate_view; case_decide; [subst; apply Q_resolve|]; apply H).
  intros s out s' H [[_ ->]|[_ ->]]%startCompetition_Ok; [done|].
  apply map_Forall_fmap. eapply map_Forall_impl; [exact H|].
  intros n t Ht c0. cbn. rewrite resetProblems_views. case_bool_decide; [apply Q_new|apply Ht].
Qed.

Lemma reachable_everyStatus s : reachable s → everyTeam (everyStatus Q) s.
Proof.
  intros (cmds & out & Hrun).
  eapply (run_preserves (everyStatus Q) cmds everyStatus_execute); [|exact Hrun].
  apply map_Forall_empty.
Qed.

End StatusInvariant.

Lemma replay_wrongAttempts l ps changed :
  wrongAttempts ps ≤ wrongAttempts (foldl replayStep (ps, changed) l).1.
Proof.
  revert ps changed. induction l as [|x l IH]; intros ps changed; [done|].
  cbn [foldl]. unfold replayStep at 2. destruct (negb (solved ps)); [|apply IH].
  destruct (String.eqb _ _); (etrans; [|apply IH]); cbn; lia.
Qed.

(** X3.  In every reachable state, for every team and every letter, the
    counter [frozenSubmissions] is the length of [frozenSubs] and
    [wrongAttempts] is not negative. *)
Theorem reachable_counters_agree s :
  reachable s → everyTeam (everyStatus tallied) s.
Proof.
  apply reachable_everyStatus.
  - intros c. split; cbn; lia.
  - intros b sub ps [H1 H2]. unfold recordOn, tallied.
    repeat case_match; cbn; rewrite ?length_app; cbn; lia.
  - intros c ps [H1 H2]. unfold tallied, resolveProblem.
    pose proof (replay_wrongAttempts (frozenSubs ps) ps false) as H.
    destruct (foldl _ _ _) as [ps' ch]. cbn in *. lia.
Qed.

Lemma reachable_counters_agree_witness :
  everyTeam (everyStatus tallied) (stateAfter scrollTrace).
Proof.
  apply reachable_counters_agree. exists scrollTrace, (outputAfter scrollTrace).
  vm_compute. reflexivity.
Defined.

(** X4.  In every reachable state every recorded submission is kept under
    the first character of its problem name, and the frozen submissions of
    a problem are a subsequence of its recorded submissions. *)
Theorem reachable_submissions_filed s :
  reachable s → everyTeam (everyStatus filed) s.
Proof.
  apply reachable_everyStatus.
  - intros c. split; cbn; [constructor|done].
  - intros b sub ps [H1 H2]. unfold recordOn, filed.
    repeat case_match; cbn; (split; [apply Forall_app; split; [done|by constructor]|]).
    all: try (by apply sublist_app).
    all: by apply sublist_inserts_r.
  - intros c ps [H1 H2]. unfold filed. rewrite resolveProblem_submissions.
    split; [done|]. unfold resolveProblem. destruct (foldl _ _ _). cbn. apply sublist_nil_l.
Qed.

Lemma reachable_submissions_filed_witness :
  everyTeam (everyStatus filed) (stateAfter scrollTrace).
Proof.
  apply reachable_submissions_filed. exists scrollTrace, (outputAfter scrollTrace).
  vm_compute. reflexivity.
Defined.

(** ** The scoreboard lists the registered teams *)

Lemma NoDup_teamNames (m : gmap string Team) : NoDup (teamNames m).
Proof.
  unfold teamNames, sortStrings. rewrite (isort_Permutation String.ltb).
  apply NoDup_fst_map_to_list.
Qed.

Lemma teamNames_dom (m m' : gmap string Team) :
  (∀ n, is_Some (m !! n) ↔ is_Some (m' !! n)) → teamNames m ≡ₚ teamNames m'.
Proof.
  intros H. apply NoDup_Permutation; [apply NoDup_teamNames..|].
  intros n. by rewrite !elem_of_teamNames.
Qed.

Lemma teamNames_insert (m : gmap string Team) n t :
  m !! n = None → teamNames (<[n := t]> m) ≡ₚ n :: teamNames m.
Proof.
  intros H. unfold teamNames, sortStrings. rewrite !(isort_Permutation String.ltb).
  by rewrite map_to_list_insert.
Qed.

Lemma teamNames_length (m : gmap string Team) : length (teamNames m) = size m.
Proof.
  unfold teamNames, sortStrings. rewrite (isort_Permutation String.ltb).
  by rewrite length_fmap, length_map_to_list.
Qed.

Lemma listsTeams_kept s s' :
  (∀ n, is_Some (teams s !! n) ↔ is_Some (teams s' !! n)) →
  ranking s' ≡ₚ ranking s → listsTeams s → listsTeams s'.
Proof.
  unfold listsTeams. intros Hdom Hr H. rewrite Hr, H. by apply teamNames_dom.
Qed.

(** A pass of the loop permutes the scoreboard. *)
Lemma scrollStep_Permutation s r s' :
  registered s → scrollStep s = Ok (r, s') →
  ranking s' ≡ₚ ranking s ∧ ∀ n, is_Some (teams s !! n) ↔ is_Some (teams s' !! n).
Proof.
  intros Hreg Hstep. destruct (selectTarget_total s Hreg) as (r0 & s1 & Hsel & Hr).
  destruct r0 as [[t p]|].
  - destruct Hr as (tm & Htm & Hf).
    destruct (resolveProblem (problems tm !!! p)).2 eqn:Hch.
    + destruct (scrollStep_changed s s1 t p tm Hreg Hsel Htm Hch)
        as (out & s0 & tm' & above & passed & below & H0 & Hreg' & Hres & _ & _ & _ & R & _ & R' & _).
      rewrite Hstep in H0. simplify_eq. split.
      * rewrite R, R'. apply Permutation_app_head. apply Permutation_middle.
      * intros n. apply (viewsRelated_is_Some _ _ _ _ Hres).
    + destruct (scrollStep_unchanged s s1 t p tm Hreg Hsel Htm Hch)
        as (s0 & H0 & Hreg' & Hres & R).
      rewrite Hstep in H0. simplify_eq. split; [by rewrite R|].
      intros n. apply (viewsRelated_is_Some _ _ _ _ Hres).
  - pose proof (scrollStep_break _ _ Hsel) as H0. rewrite Hstep in H0. simplify_eq.
    destruct (quiet_selectTarget _ _ _ Hsel) as [E R]. split; [by rewrite R|].
    intros n. apply (storeEquiv_is_Some _ _ _ E).
Qed.

Lemma scrollLoop_Permutation fuel s r s' :
  registered s → scrollLoop fuel s = Ok (r, s') →
  registered s' ∧ ranking s' ≡ₚ ranking s ∧
  ∀ n, is_Some (teams s !! n) ↔ is_Some (teams s' !! n).
Proof.
  revert s r. induction fuel as [|fuel IH]; intros s r Hreg.
  - by intros [= <- <-].
  - cbn [scrollLoop]. intros ([pass|] & s1 & Hstep & Hrest)%bind_Ok.
    + apply bind_Ok in Hrest as (rest & s2 & Hloop & [= <- <-]).
      destruct (scrollStep_Permutation _ _ _ Hreg Hstep) as [R1 D1].
      destruct (scrollStep_cases _ _ _ Hreg Hstep) as (Hreg1 & _).
      destruct (IH _ _ Hreg1 Hloop) as (Hreg2 & R2 & D2).
      split; [done|]. split; [by rewrite R2|]. intros n. by rewrite D1.
    + injection Hrest as [= <- <-].
      destruct (scrollStep_Permutation _ _ _ Hreg Hstep) as [R1 D1].
      by destruct (scrollStep_cases _ _ _ Hreg Hstep) as (Hreg1 & _).
Qed.

Lemma flushScoreboard_listsTeams s s' :
  flushScoreboard s = Ok (tt, s') → listsTeams s' ∧ registered s' ∧ storeEquiv s s'.
Proof.
  intros H. destruct (flushScoreboard_total s) as (s0 & H0 & E & P & Hreg).
  rewrite H in H0. simplify_eq. split; [|done]. unfold listsTeams. rewrite P.
  apply teamNames_dom. intros n. apply (storeEquiv_is_Some _ _ _ E).
Qed.

Lemma scroll_listsTeams s out s' :
  listsTeams s → scroll s = Ok (out, s') → listsTeams s'.
Proof.
  intros Hs. destruct (frozen s) eqn:Hfr.
  2:{ rewrite (scroll_unfrozen s Hfr). by intros [= <- <-]. }
  unfold scroll. rewrite bind_get, Hfr. cbn [negb].
  intros ([] & s1 & H1 & Hrest)%bind_Ok.
  destruct (flushScoreboard_listsTeams _ _ H1) as (L1 & Hreg1 & E1).
  apply bind_Ok in Hrest as (out1 & s2 & H2 & Hrest).
  destruct (printScoreboard_total s1 Hreg1) as (out1' & s2' & H2' & E2 & R2).
  rewrite H2 in H2'. injection H2' as [= <- <-].
  assert (registered s2) as Hreg2 by (by apply (storeEquiv_registered s1)).
  assert (listsTeams s2) as L2.
  { apply (listsTeams_kept s1); [|by rewrite R2|done].
    intros n. apply (storeEquiv_is_Some _ _ _ E2). }
  revert Hrest. rewrite bind_get.
  intros ([lines|] & s3 & Hloop & Hrest)%bind_Ok; [|done].
  destruct (scrollLoop_Permutation _ _ _ _ Hreg2 Hloop) as (Hreg3 & R3 & D3).
  revert Hrest. rewrite bind_modify.
  intros (after & s4 & H4 & [= <- <-])%bind_Ok.
  destruct (printScoreboard_total (setFrozen s3 false) Hreg3) as (out4 & s4' & H4' & E4 & R4).
  rewrite H4 in H4'. injection H4' as [= <- <-].
  apply (listsTeams_kept s2); [|by rewrite R4|done].
  intros n. rewrite D3. apply (storeEquiv_is_Some _ _ _ E4).
Qed.

Lemma execute_listsTeams c s out s' :
  listsTeams s → execute c s = Ok (out, s') → listsTeams s'.
Proof.
  intros Hs. destruct c; cbn [execute].
  - intros [->|(_ & Hnone & ->)]%addTeam_Ok; [done|]. unfold listsTeams in *. cbn.
    unfold sortStrings at 1. rewrite (isort_Permutation String.ltb).
    rewrite teamNames_insert by done. rewrite <- Hs. by rewrite Permutation_app_comm.
  - intros [[_ ->]|[_ ->]]%startCompetition_Ok; [done|].
    apply (listsTeams_kept s); [|done|done]. intros n. cbn. rewrite lookup_fmap.
    by rewrite fmap_is_Some.
  - intros (team & Ht & _ & ->)%submit_Ok.
    apply (listsTeams_kept s); [|done|done]. intros n. cbn.
    destruct (decide (teamName = n)) as [->|Hne].
    + rewrite lookup_insert_eq, Ht. split; eauto.
    + by rewrite lookup_insert_ne.
  - unfold flush. intros ([] & s1 & H1 & [= <- <-])%bind_Ok.
    by destruct (flushScoreboard_listsTeams _ _ H1).
  - by intros [->| ->]%freeze_Ok.
  - by apply scroll_listsTeams.
  - by intros ->%queryRanking_state.
  - by intros ->%querySubmissionCommand_state.
  - by intros [= <- <-].
  - by intros [= <- <-].
Qed.

Lemma reachable_listsTeams s : reachable s → listsTeams s.
Proof.
  intros (cmds & out & Hrun). revert Hrun.
  assert (listsTeams initialSystem) as H0.
  { unfold listsTeams, teamNames. cbn. by rewrite map_to_list_empty. }
  revert H0. generalize initialSystem. revert out.
  induction cmds as [|c cmds IH]; intros out s0 H0.
  - by intros [= <- <-].
  - intros [[_ ->]|(_ & out1 & s1 & out2 & H1 & H2)]%run_cons; [done|].
    apply (IH out2 s1); [|done]. by eapply execute_listsTeams.
Qed.

(** X5.  In every reachable state the scoreboard is a permutation of the
    registered team names: every team that was added is listed exactly
    once, no other name is, and the scoreboard has as many entries as
    there are teams. *)
Theorem reachable_scoreboard_lists_teams s :
  reachable s →
  listsTeams s ∧ NoDup (ranking s) ∧ length (ranking s) = size (teams s) ∧
  ∀ n, n ∈ ranking s ↔ is_Some (teams s !! n).
Proof.
  intros H%reachable_listsTeams. unfold listsTeams in H. split; [done|].
  split; [rewrite H; apply NoDup_teamNames|].
  split; [by rewrite H, teamNames_length|].
  intros n. by rewrite H, elem_of_teamNames.
Qed.

Lemma reachable_scoreboard_lists_teams_witness :
  listsTeams (stateAfter scrollTrace) ∧ NoDup (ranking (stateAfter scrollTrace)) ∧
  length (ranking (stateAfter scrollTrace)) = size (teams (stateAfter scrollTrace)) ∧
  ∀ n, n ∈ ranking (stateAfter scrollTrace) ↔ is_Some (teams (stateAfter scrollTrace) !! n).
Proof.
  apply reachable_scoreboard_lists_teams. exists scrollTrace, (outputAfter scrollTrace).
  vm_compute. reflexivity.
Defined.

(** X6.  In every reachable state a ranking query for a registered team
    changes nothing and reports the position of the team on the
    scoreboard, counted from 1: the team is listed at that position and
    nowhere else, and the position is at most the number of teams.  The
    warning line is printed exactly when the scoreboard is frozen. *)
Theorem queryRanking_reports_position s n t :
  reachable s → teams s !! n = Some t →
  ∃ i : nat,
    ranking s !! i = Some n ∧ (∀ j, ranking s !! j = Some n → j = i) ∧
    (i < size (teams s))%nat ∧
    queryRanking n s =
    Ok (["[Info]Complete query ranking."]
        ++ (if frozen s
            then ["[Warning]Scoreboard is frozen. The ranking may be inaccurate until it were scrolled."]
            else [])
        ++ [n +:+ " NOW AT RANKING " +:+ to_string (Z.of_nat i + 1)], s).
Proof.
  intros H%reachable_listsTeams Hn. unfold listsTeams in H.
  assert (n ∈ ranking s) as Hin by (rewrite H; apply elem_of_teamNames; eauto).
  destruct (indexOf_elem _ _ Hin) as [i Hi]. exists i.
  destruct (indexOf_Some _ _ _ Hi) as [Hl _]. split; [done|]. split.
  - intros j Hj. eapply NoDup_lookup; [|exact Hj|exact Hl]. rewrite H. apply NoDup_teamNames.
  - split.
    + rewrite <- teamNames_length, <- H. by eapply lookup_lt_Some.
    + unfold queryRanking. rewrite bind_get, Hn, Hi. done.
Qed.

Lemma queryRanking_reports_position_witness :
  ∃ i : nat,
    ranking (stateAfter scrollTrace) !! i = Some "bob" ∧
    (∀ j, ranking (stateAfter scrollTrace) !! j = Some "bob" → j = i) ∧
    (i < size (teams (stateAfter scrollTrace)))%nat ∧
    queryRanking "bob" (stateAfter scrollTrace) =
    Ok (["[Info]Complete query ranking."]
        ++ (if frozen (stateAfter scrollTrace)
            then ["[Warning]Scoreboard is frozen. The ranking may be inaccurate until it were scrolled."]
            else [])
        ++ ["bob" +:+ " NOW AT RANKING " +:+ to_string (Z.of_nat i + 1)], stateAfter scrollTrace).
Proof.
  apply (queryRanking_reports_position (stateAfter scrollTrace) "bob" scrollTraceTarget).
  - exists scrollTrace, (outputAfter scrollTrace). vm_compute. reflexivity.
  - vm_compute. reflexivity.
Defined.

(** ** Sorted scoreboards *)

Lemma StronglySorted_impl {A} (R R' : A → A → Prop) l :
  (∀ a b, R a b → R' a b) → StronglySorted R l → StronglySorted R' l.
Proof.
  intros H. induction 1 as [|a l Hl IH Ha]; constructor; [done|].
  eapply Forall_impl; [exact Ha|]. intros b. apply H.
Qed.

Lemma nameLe_trans a b c : nameLe a b → nameLe b c → nameLe a c.
Proof.
  unfold nameLe. intros Hab Hbc. destruct (String.ltb c a) eqn:Hca; [|done].
  destruct (decide (a = b)) as [->|Hne]; [congruence|].
  destruct (ltb_total a b Hne) as [H|H]; [|congruence].
  rewrite (ltb_trans c a b Hca H) in Hbc. done.
Qed.

Lemma insertSorted_names x l :
  StronglySorted nameLe l → StronglySorted nameLe (insertSorted String.ltb x l).
Proof.
  induction 1 as [|y l Hl IH Hy]; cbn [insertSorted].
  - repeat constructor.
  - destruct (String.ltb y x) eqn:Hyx.
    + constructor; [done|]. rewrite (insertSorted_Permutation String.ltb x l).
      constructor; [|done]. unfold nameLe. by apply ltb_asym.
    + constructor; [by constructor|]. constructor; [done|].
      eapply Forall_impl; [exact Hy|]. intros z. by apply nameLe_trans.
Qed.

Lemma sortStrings_sorted l : StronglySorted nameLe (sortStrings l).
Proof.
  unfold sortStrings. induction l as [|x l IH]; cbn [isort]; [constructor|].
  by apply insertSorted_names.
Qed.

(** X7.  Adding a team before the start under a name that is not taken
    registers a fresh team, keeps every other team, and leaves the
    scoreboard holding the old entries and the new name, in non-decreasing
    name order whatever order it was in before. *)
Theorem addTeam_registers_and_sorts s n :
  started s = false → teams s !! n = None →
  ∃ s', addTeam n s = Ok (["[Info]Add successfully."], s') ∧
        teams s' = <[n := newTeam n]> (teams s) ∧
        ranking s' ≡ₚ n :: ranking s ∧
        StronglySorted nameLe (ranking s') ∧
        started s' = false ∧ frozen s' = frozen s ∧ problemCount s' = problemCount s.
Proof.
  intros Hst Hn. eexists. split.
  { unfold addTeam. rewrite bind_get, Hst, Hn. rewrite !bind_modify. done. }
  cbn. split; [done|]. split.
  - unfold sortStrings. rewrite (isort_Permutation String.ltb).
    by rewrite Permutation_app_comm.
  - split; [apply sortStrings_sorted|done].
Qed.

Lemma addTeam_registers_and_sorts_witness :
  ∃ s', addTeam "amy" (stateAfter [ADDTEAM "bob"; ADDTEAM "ann"]) =
          Ok (["[Info]Add successfully."], s') ∧
        teams s' = <["amy" := newTeam "amy"]> (teams (stateAfter [ADDTEAM "bob"; ADDTEAM "ann"])) ∧
        ranking s' ≡ₚ "amy" :: ranking (stateAfter [ADDTEAM "bob"; ADDTEAM "ann"]) ∧
        StronglySorted nameLe (ranking s') ∧
        started s' = false ∧
        frozen s' = frozen (stateAfter [ADDTEAM "bob"; ADDTEAM "ann"]) ∧
        problemCount s' = problemCount (stateAfter [ADDTEAM "bob"; ADDTEAM "ann"]).
Proof.
  apply addTeam_registers_and_sorts.
  - vm_compute. reflexivity.
  - vm_compute. reflexivity.
Defined.

Lemma before_trans s a b c :
  everyTeam cacheShaped s → before s a b → before s b c → before s a c.
Proof.
  intros Hshape (ta & tb & Ha & Hb & Hab)%before_iff (tb' & tc & Hb' & Hc & Hbc)%before_iff.
  simplify_eq. apply before_iff. exists ta, tc. repeat split; try done.
  pose proof (metricsOf_shaped _ (Hshape _ _ Ha)).
  pose proof (metricsOf_shaped _ (Hshape _ _ Hb)).
  pose proof (metricsOf_shaped _ (Hshape _ _ Hc)).
  by eapply (ranksBefore_trans _ _ (metricsOf tb) b).
Qed.

Lemma before_total s a b :
  is_Some (teams s !! a) → is_Some (teams s !! b) → a ≠ b → before s a b ∨ before s b a.
Proof.
  intros [ta Ha] [tb Hb] Hne.
  destruct (ranksBefore_total (metricsOf ta) a (metricsOf tb) b Hne);
    [left|right]; apply before_iff; eauto.
Qed.

Lemma insertRanked_sorted s0 x l s :
  everyTeam cacheShaped s0 → storeEquiv s0 s →
  is_Some (teams s0 !! x) → (∀ n, n ∈ l → is_Some (teams s0 !! n)) → x ∉ l →
  StronglySorted (before s0) l →
  ∃ l' s', insertRanked x l s = Ok (l', s') ∧ storeEquiv s0 s' ∧
           ranking s' = ranking s ∧ l' ≡ₚ x :: l ∧ StronglySorted (before s0) l'.
Proof.
  intros Hshape E Hx Hl Hnot Hsorted. revert s E.
  induction Hsorted as [|y l Hsorted IH Hy]; intros s E.
  - exists [x], s. split; [done|]. split; [done|]. split; [done|]. split; [done|].
    repeat constructor.
  - cbn [insertRanked].
    destruct (compareTeams_before y x s) as (r & s1 & Hcmp & Hr).
    { apply (storeEquiv_is_Some _ _ _ E), Hl. by left. }
    { by apply (storeEquiv_is_Some _ _ _ E). }
    destruct (quiet_compareTeams _ _ _ _ _ Hcmp) as [E1 R1].
    rewrite (bind_eq _ _ _ _ _ Hcmp); cbv beta.
    assert (storeEquiv s0 s1) as E01 by (by etrans).
    apply not_elem_of_cons in Hnot as [Hxy Hnot].
    destruct r.
    + destruct IH with (s := s1) as (l' & s' & Hins & E' & R' & Hperm & Hs'); [|done|done|].
      { intros n Hn. apply Hl. by right. }
      exists (y :: l'), s'. rewrite (bind_eq _ _ _ _ _ Hins); cbv beta.
      split; [done|]. split; [done|]. split; [congruence|].
      split; [rewrite Hperm; apply Permutation_swap|].
      constructor; [done|]. rewrite Hperm. constructor; [|done].
      apply (storeEquiv_before s0 s _ _ E). by apply Hr.
    + exists (x :: y :: l), s1. split; [done|]. split; [done|]. split; [done|].
      split; [done|]. constructor; [by constructor|].
      assert (before s0 x y) as Hxy'.
      { destruct (before_total s0 x y) as [H|H]; [done|apply Hl; by left|done|done|].
        apply (storeEquiv_before s0 s _ _ E), Hr in H. done. }
      constructor; [done|]. eapply Forall_impl; [exact Hy|].
      intros z Hz. by apply (before_trans s0 x y z).
Qed.

Lemma sortRanked_sorted s0 l s :
  everyTeam cacheShaped s0 → storeEquiv s0 s →
  (∀ n, n ∈ l → is_Some (teams s0 !! n)) → NoDup l →
  ∃ l' s', sortRanked l s = Ok (l', s') ∧ storeEquiv s0 s' ∧
           ranking s' = ranking s ∧ l' ≡ₚ l ∧ StronglySorted (before s0) l'.
Proof.
  intros Hshape E Hl Hnd. revert s E Hl.
  induction Hnd as [|x l Hx Hnd IH]; intros s E Hl.
  - exists [], s. split; [done|]. split; [done|]. split; [done|]. split; [done|].
    constructor.
  - cbn [sortRanked]. destruct (IH s E) as (l1 & s1 & Hsort & E1 & R1 & P1 & S1).
    { intros n Hn. apply Hl. by right. }
    rewrite (bind_eq _ _ _ _ _ Hsort); cbv beta.
    destruct (insertRanked_sorted s0 x l1 s1) as (l' & s' & Hins & E' & R' & Hperm & Hs').
    { done. }
    { done. }
    { apply Hl. by left. }
    { intros n Hn. apply Hl. right. by rewrite <- P1. }
    { by rewrite P1. }
    { done. }
    exists l', s'. split; [done|]. split; [done|]. split; [congruence|].
    split; [by rewrite Hperm, P1|done].
Qed.

(** What [flushScoreboard] leaves: the registered teams, each before all
    the teams listed after it. *)
Lemma flushScoreboard_sorted s :
  everyTeam cacheShaped s →
  ∃ s', flushScoreboard s = Ok (tt, s') ∧ storeEquiv s s' ∧
        ranking s' ≡ₚ teamNames (teams s) ∧ StronglySorted (before s') (ranking s').
Proof.
  intros Hshape. unfold flushScoreboard. rewrite bind_modify, bind_get.
  set (s1 := setRanking s (teamNames (teams s))).
  assert (storeEquiv s s1) as E1.
  { by split. }
  destruct (sortRanked_sorted s (ranking s1) s1 Hshape E1)
    as (l' & s2 & Hsort & E2 & R2 & P2 & S2).
  { intros n Hn. by apply elem_of_teamNames. }
  { apply NoDup_teamNames. }
  rewrite (bind_eq _ _ _ _ _ Hsort); cbv beta.
  eexists. split; [done|].
  assert (storeEquiv s (setRanking s2 l')) as E3.
  { destruct E2 as [? ? ? ?]. by split. }
  split; [done|]. split; [done|]. cbn.
  eapply StronglySorted_impl; [|exact S2]. intros a b. by apply (storeEquiv_before s).
Qed.

(** X8.  FLUSH rebuilds the scoreboard from the registered teams and
    orders it by the comparator: the scoreboard it leaves is a permutation
    of the team names in which every team is ranked before each team
    listed after it.  The teams themselves are untouched, up to the caches
    the comparisons fill. *)
Theorem flush_orders_scoreboard s :
  everyTeam cacheShaped s →
  ∃ s', flush s = Ok (["[Info]Flush scoreboard."], s') ∧ storeEquiv s s' ∧
        ranking s' ≡ₚ teamNames (teams s) ∧ StronglySorted (before s') (ranking s').
Proof.
  intros Hshape. destruct (flushScoreboard_sorted s Hshape) as (s' & H & E & P & S).
  exists s'. split; [|done]. unfold flush. by rewrite (bind_eq _ _ _ _ _ H).
Qed.

Lemma flush_orders_scoreboard_witness :
  ∃ s', flush (stateAfter tiedTeamsTrace) = Ok (["[Info]Flush scoreboard."], s') ∧
        storeEquiv (stateAfter tiedTeamsTrace) s' ∧
        ranking s' ≡ₚ teamNames (teams (stateAfter tiedTeamsTrace)) ∧
        StronglySorted (before s') (ranking s').
Proof.
  apply flush_orders_scoreboard.
  apply (bool_decide_unpack
           (map_Forall (λ _ t, cacheShaped t) (teams (stateAfter tiedTeamsTrace)))).
  vm_compute. reflexivity.
Defined.

(** ** The scoreboard after [scroll] *)

Lemma StronglySorted_impl_in {A} (R R' : A → A → Prop) l :
  (∀ a b, a ∈ l → b ∈ l → R a b → R' a b) → StronglySorted R l → StronglySorted R' l.
Proof.
  intros H Hl. induction Hl as [|a l Hl IH Ha]; constructor.
  - apply IH. intros x y Hx Hy. apply H; by right.
  - rewrite Forall_forall in *. intros b Hb. apply H; [by left|by right|by apply Ha].
Qed.

Lemma coherent_metrics_views tm tm' :
  coherent tm → coherent tm' →
  (∀ c, scored (problems tm' !!! c) = scored (problems tm !!! c)) →
  metricsOf tm' = metricsOf tm.
Proof. unfold coherent. intros -> -> H. by apply freshMetrics_scored. Qed.

Lemma before_pair s s' a b :
  metricsOf <$> teams s' !! a = metricsOf <$> teams s !! a →
  metricsOf <$> teams s' !! b = metricsOf <$> teams s !! b →
  before s a b → before s' a b.
Proof.
  intros Hma Hmb (ta & tb & Ha & Hb & Hab)%before_iff.
  rewrite Ha in Hma. rewrite Hb in Hmb.
  apply fmap_Some in Hma as (ta' & Ha' & Ea). apply fmap_Some in Hmb as (tb' & Hb' & Eb).
  apply before_iff. exists ta', tb'. by rewrite <- Ea, <- Eb.
Qed.

Lemma ranksBefore_more_solved m1 n1 m2 n2 :
  m2.1.1 < m1.1.1 → ranksBefore m1 n1 m2 n2 = true.
Proof.
  destruct m1 as [[s1 p1] t1], m2 as [[s2 p2] t2]. cbn. intros H. unfold ranksBefore.
  destruct (Z.eqb_spec s1 s2); [lia|]. cbn. lia.
Qed.

Lemma ranksBefore_solved_ge m1 n1 m2 n2 :
  ranksBefore m1 n1 m2 n2 = true → m2.1.1 ≤ m1.1.1.
Proof.
  destruct m1 as [[s1 p1] t1], m2 as [[s2 p2] t2]. cbn. unfold ranksBefore.
  destruct (Z.eqb_spec s1 s2); cbn; lia.
Qed.

Lemma replay_flag_solved l ps changed :
  (changed = true → solved ps = true) →
  (foldl replayStep (ps, changed) l).2 = true →
  solved (foldl replayStep (ps, changed) l).1 = true.
Proof.
  revert ps changed. induction l as [|x l IH]; intros ps changed Hinv; [done|].
  cbn [foldl]. unfold replayStep at 2 4. destruct (solved ps) eqn:Hs; cbn [negb].
  - apply IH. by rewrite Hs.
  - destruct (String.eqb _ _); apply IH; cbn; intros H; [done|by apply Hinv].
Qed.

Lemma resolveProblem_changed ps :
  (resolveProblem ps).2 = true → solved ps = false ∧ solved (resolveProblem ps).1 = true.
Proof.
  intros H. destruct (solved ps) eqn:Hs.
  - by rewrite (resolveProblem_solved _ Hs) in H.
  - split; [done|]. unfold resolveProblem in *.
    pose proof (replay_flag_solved (frozenSubs ps) ps false) as Hr.
    destruct (foldl _ _ _) as [ps' ch]. cbn in *. by apply Hr.
Qed.

Lemma freshMetrics_one_more tm tm' p :
  solved (problems tm !!! p) = false → solved (problems tm' !!! p) = true →
  (∀ c, c ≠ p → problems tm' !!! c = problems tm !!! c) →
  (freshMetrics tm').1.1 = (freshMetrics tm).1.1 + 1.
Proof.
  intros Hp Hp' Hother.
  destruct (freshMetrics_spec tm) as [-> _]. destruct (freshMetrics_spec tm') as [-> _].
  unfold solvedCountOf, solvedLetters.
  rewrite (filter_one_less (λ c, solved (problems tm' !!! c) = true)
             (λ c, solved (problems tm !!! c) = true) charsInOrder p).
  - lia.
  - apply NoDup_charsInOrder.
  - apply elem_of_charsInOrder.
  - done.
  - by rewrite Hp.
  - intros c Hc. by rewrite (Hother c Hc).
Qed.

(** A pass of the loop leaves an ordered scoreboard ordered, when no cache
    is stale. *)
Lemma scrollStep_ordered s r s' :
  registered s → NoDup (ranking s) →
  everyTeam cacheShaped s → everyTeam coherent s → ordered s →
  scrollStep s = Ok (r, s') → ordered s'.
Proof.
  intros Hreg Hnd Hshape Hcoh Hord Hstep.
  assert (everyTeam cacheShaped s') as Hshape'.
  { eapply (preserves_scrollStep cacheShaped); [| | |exact Hshape|exact Hstep].
    - apply updateCache_shaped.
    - apply cacheShaped_problemAt.
    - apply cacheShaped_resolve. }
  assert (everyTeam coherent s') as Hcoh'.
  { eapply (preserves_scrollStep coherent); [| | |exact Hcoh|exact Hstep].
    - apply coherent_updateCache.
    - apply coherent_problemAt.
    - apply coherent_resolve. }
  unfold ordered in *.
  destruct (selectTarget_total s Hreg) as (r0 & s1 & Hsel & Hr).
  destruct r0 as [[t p]|].
  2:{ pose proof (scrollStep_break _ _ Hsel) as H0. rewrite Hstep in H0.
      injection H0 as [= -> ->]. destruct (quiet_selectTarget _ _ _ Hsel) as [E R].
      rewrite R. eapply StronglySorted_impl; [|exact Hord].
      intros a b. by apply (storeEquiv_before s). }
  destruct Hr as (tm & Htm & Hf).
  (* the metrics of the teams that are not resolved stay the same *)
  assert (∀ s0, resolvedAt t p s s0 → everyTeam coherent s0 →
            ∀ n, n ≠ t → metricsOf <$> teams s0 !! n = metricsOf <$> teams s !! n) as Hothers.
  { intros s0 [V _ _ _] Hcoh0 n Hn. specialize (V n).
    inversion V as [a b Hv Ha Hb|Ha Hb]; [|done]. cbn. f_equal.
    symmetry in Ha, Hb. apply coherent_metrics_views; [by eapply Hcoh|by eapply Hcoh0|].
    intros c. rewrite Hv. unfold resolveOne. rewrite decide_False; [done|]. by intros [? _]. }
  destruct (resolveProblem (problems tm !!! p)).2 eqn:Hch.
  - destruct (scrollStep_changed s s1 t p tm Hreg Hsel Htm Hch)
      as (out & s0 & tm' & above & passed & below & H0 & Hreg' & Hres & Htm' & Hp & _
          & R & _ & R' & _ & Hpassed & Hlast & _).
    rewrite Hstep in H0. injection H0 as [= -> <-].
    specialize (Hothers s' Hres Hcoh').
    rewrite R in Hnd, Hord. rewrite R'.
    (* the target team occurs once *)
    apply NoDup_app in Hnd as (_ & Habove & Hnd).
    apply NoDup_app in Hnd as (_ & Hpassed_t & Hnd).
    apply NoDup_cons in Hnd as [Hbelow_t _].
    assert (t ∉ above) as Habove_t.
    { intros Hin. apply (Habove t Hin). apply elem_of_app. right. by left. }
    assert (t ∉ passed) as Hpassed_t'.
    { intros Hin. apply (Hpassed_t t Hin). by left. }
    clear Habove Hpassed_t.
    (* comparisons between the other teams are unchanged *)
    assert (∀ a b, a ≠ t → b ≠ t → before s a b → before s' a b) as Hkeep.
    { intros a b Ha Hb. apply before_pair; by apply Hothers. }
    (* the target team now has one more solved problem *)
    assert (∀ y, y ≠ t → before s t y → before s' t y) as Hup.
    { intros y Hy (t0 & ty & Ht & Hty & Hb)%before_iff.
      assert (t0 = tm) as -> by congruence. clear Ht.
      pose proof (Hothers y Hy) as Hmy. rewrite Hty in Hmy.
      apply fmap_Some in Hmy as (ty' & Hty' & Ey).
      apply before_iff. exists tm', ty'. split; [done|]. split; [done|].
      apply ranksBefore_more_solved. rewrite <- Ey.
      apply ranksBefore_solved_ge in Hb.
      destruct (resolveProblem_changed _ Hch) as [Hs Hs'].
      assert ((metricsOf tm').1.1 = (metricsOf tm).1.1 + 1) as ->; [|lia].
      rewrite (Hcoh' _ _ Htm'), (Hcoh _ _ Htm).
      apply (freshMetrics_one_more tm tm' p); [done|by rewrite Hp|].
      intros c Hc. destruct Hres as [V _ _ _]. specialize (V t).
      rewrite Htm, Htm' in V. inversion V as [? ? Hv|]; subst. rewrite Hv.
      unfold resolveOne. rewrite decide_False; [done|]. by intros [_ ?]. }
    apply StronglySorted_app in Hord as (Hcross & Sabove & Hord).
    apply StronglySorted_app in Hord as (Hcross2 & Spassed & Hord).
    apply StronglySorted_cons in Hord as [Hbelow Sbelow].
    rewrite Forall_forall in Hbelow, Hpassed.
    assert (∀ l, t ∉ l → StronglySorted (before s) l → StronglySorted (before s') l) as Himpl.
    { intros l Hl. apply StronglySorted_impl_in. intros a b Ha Hb.
      apply Hkeep; intros ->; done. }
    apply StronglySorted_app. split; [|split].
    + intros x1 x2 Hx1 Hx2.
      assert (x1 ≠ t) as Hx1t by (by intros ->).
      apply elem_of_cons in Hx2 as [->|Hx2].
      * (* the team just above the new position is not beaten *)
        destruct (last above) as [x|] eqn:Hx.
        2:{ apply last_None in Hx. subst. by apply elem_of_nil in Hx1. }
        apply last_Some in Hx as [init ->].
        assert (x ≠ t) as Hxt.
        { intros ->. apply Habove_t. apply elem_of_app. right. by left. }
        assert (before s' x t) as Hxbt.
        { destruct (before_total s' x t) as [H|H]; [| |done|done|].
          - apply Hreg'. rewrite R'. rewrite !elem_of_app. left. right. by left.
          - by eexists.
          - by destruct (Hlast x). }
        apply elem_of_app in Hx1 as [Hx1|Hx1%list_elem_of_singleton]; [|by subst].
        apply (before_trans s' x1 x t); [done| |done].
        apply Hkeep; [done|done|].
        apply StronglySorted_app in Sabove as (Hc & _ & _). apply Hc; [done|by left].
      * apply elem_of_app in Hx2 as [Hx2|Hx2].
        -- apply Hkeep; [done|by intros ->|]. apply Hcross; [done|].
           apply elem_of_app. by left.
        -- apply Hkeep; [done|by intros ->|]. apply Hcross; [done|].
           apply elem_of_app. right. by right.
    + by apply Himpl.
    + apply StronglySorted_cons. split.
      * apply Forall_forall. intros y [Hy|Hy]%elem_of_app; [by apply Hpassed|].
        apply Hup; [by intros ->|by apply Hbelow].
      * apply StronglySorted_app. split; [|split; by apply Himpl].
        intros x1 x2 Hx1 Hx2. apply Hkeep; [by intros ->|by intros ->|].
        apply Hcross2; [done|by right].
  - destruct (scrollStep_unchanged s s1 t p tm Hreg Hsel Htm Hch)
      as (s0 & H0 & Hreg' & Hres & R).
    rewrite Hstep in H0. injection H0 as [= -> <-].
    specialize (Hothers s' Hres Hcoh'). rewrite R.
    eapply StronglySorted_impl; [|exact Hord].
    apply before_metrics. intros k.
    destruct (decide (k = t)) as [->|Hk]; [|by apply Hothers].
    destruct Hres as [V _ _ _]. specialize (V t). rewrite Htm in V |- *.
    inversion V as [? tm' Hv|]; subst. cbn. f_equal.
    apply coherent_metrics_views; [by eapply Hcoh|by eapply Hcoh'|].
    intros c. rewrite Hv. unfold resolveOne. case_decide as Hc; [|done].
    destruct Hc as [_ ->]. by apply resolveProblem_unchanged.
Qed.

Lemma scrollLoop_ordered fuel s r s' :
  registered s → NoDup (ranking s) →
  everyTeam cacheShaped s → everyTeam coherent s → ordered s →
  scrollLoop fuel s = Ok (r, s') →
  registered s' ∧ ranking s' ≡ₚ ranking s ∧
  (∀ n, is_Some (teams s !! n) ↔ is_Some (teams s' !! n)) ∧
  everyTeam cacheShaped s' ∧ everyTeam coherent s' ∧ ordered s'.
Proof.
  revert s r. induction fuel as [|fuel IH]; intros s r Hreg Hnd Hshape Hcoh Hord.
  - by intros [= <- <-].
  - cbn [scrollLoop]. intros (pass & s1 & Hstep & Hrest)%bind_Ok.
    destruct (scrollStep_Permutation _ _ _ Hreg Hstep) as [R1 D1].
    destruct (scrollStep_cases _ _ _ Hreg Hstep) as (Hreg1 & _).
    assert (everyTeam cacheShaped s1) as Hshape1.
    { eapply (preserves_scrollStep cacheShaped); [| | |exact Hshape|exact Hstep].
      - apply updateCache_shaped.
      - apply cacheShaped_problemAt.
      - apply cacheShaped_resolve. }
    assert (everyTeam coherent s1) as Hcoh1.
    { eapply (preserves_scrollStep coherent); [| | |exact Hcoh|exact Hstep].
      - apply coherent_updateCache.
      - apply coherent_problemAt.
      - apply coherent_resolve. }
    pose proof (scrollStep_ordered _ _ _ Hreg Hnd Hshape Hcoh Hord Hstep) as Hord1.
    destruct pass as [out|].
    + apply bind_Ok in Hrest as (rest & s2 & Hloop & [= <- <-]).
      destruct (IH s1 rest) as (Hreg2 & R2 & D2 & Hshape2 & Hcoh2 & Hord2); try done.
      { by rewrite R1. }
      split; [done|]. split; [by rewrite R2|]. split; [|done].
      intros n. by rewrite D1.
    + by injection Hrest as [= <- <-].
Qed.

(** What [scroll] leaves when no cache is stale. *)
Lemma scroll_ordered s :
  frozen s = true → everyTeam cacheShaped s → everyTeam coherent s →
  ∃ out s', scroll s = Ok (out, s') ∧ frozen s' = false ∧
            ranking s' ≡ₚ teamNames (teams s') ∧ ordered s'.
Proof.
  intros Hfr Hshape Hcoh.
  destruct (scroll_effect s Hfr) as (out & s' & Hscroll & _ & _ & Hfr' & _).
  exists out, s'. split; [done|]. split; [done|].
  revert Hscroll. unfold scroll. rewrite bind_get, Hfr. cbn [negb].
  intros ([] & s1 & H1 & Hrest)%bind_Ok.
  destruct (flushScoreboard_sorted s Hshape) as (s1' & H1' & E1 & P1 & S1).
  rewrite H1 in H1'. injection H1' as [= <-].
  destruct (flushScoreboard_listsTeams _ _ H1) as (L1 & Hreg1 & _).
  assert (everyTeam cacheShaped s1) as Hshape1.
  { eapply (preserves_flushScoreboard cacheShaped); [|exact Hshape|exact H1].
    apply updateCache_shaped. }
  assert (everyTeam coherent s1) as Hcoh1.
  { eapply (preserves_flushScoreboard coherent); [|exact Hcoh|exact H1].
    apply coherent_updateCache. }
  apply bind_Ok in Hrest as (out1 & s2 & H2 & Hrest).
  destruct (printScoreboard_total s1 Hreg1) as (out1' & s2' & H2' & E2 & R2).
  rewrite H2 in H2'. injection H2' as [= <- <-].
  assert (registered s2) as Hreg2 by (by apply (storeEquiv_registered s1)).
  assert (listsTeams s2) as L2.
  { apply (listsTeams_kept s1); [|by rewrite R2|done].
    intros n. apply (storeEquiv_is_Some _ _ _ E2). }
  assert (everyTeam cacheShaped s2) as Hshape2.
  { eapply (preserves_printScoreboard cacheShaped); [| |exact Hshape1|exact H2].
    - apply updateCache_shaped.
    - apply cacheShaped_problemAt. }
  assert (everyTeam coherent s2) as Hcoh2.
  { eapply (preserves_printScoreboard coherent); [| |exact Hcoh1|exact H2].
    - apply coherent_updateCache.
    - apply coherent_problemAt. }
  assert (ordered s2) as Hord2.
  { unfold ordered. rewrite R2. eapply StronglySorted_impl; [|exact S1].
    intros a b. by apply (storeEquiv_before s1). }
  assert (NoDup (ranking s2)) as Hnd2.
  { unfold listsTeams in L2. rewrite L2. apply NoDup_teamNames. }
  revert Hrest. rewrite bind_get.
  intros ([lines|] & s3 & Hloop & Hrest)%bind_Ok; [|done].
  destruct (scrollLoop_ordered _ _ _ _ Hreg2 Hnd2 Hshape2 Hcoh2 Hord2 Hloop)
    as (Hreg3 & R3 & D3 & Hshape3 & Hcoh3 & Hord3).
  revert Hrest. rewrite bind_modify.
  intros (after & s4 & H4 & [= _ <-])%bind_Ok.
  destruct (printScoreboard_total (setFrozen s3 false) Hreg3) as (out4 & s4' & H4' & E4 & R4).
  rewrite H4 in H4'. injection H4' as [= <- <-].
  split.
  - apply (listsTeams_kept s2); [|by rewrite R4|done].
    intros n. rewrite D3. apply (storeEquiv_is_Some _ _ _ E4).
  - unfold ordered. rewrite R4. eapply StronglySorted_impl; [|exact Hord3].
    intros a b Hab. apply (storeEquiv_before (setFrozen s3 false)); [done|].
    apply before_iff in Hab. by apply before_iff.
Qed.

(** X9.  When no cache is stale, SCROLL on a frozen scoreboard returns
    with the scoreboard unfrozen, listing the registered teams in the order
    of the comparator as it stands once every frozen problem has been
    resolved: each team is ranked before every team listed after it. *)
Theorem scroll_leaves_scoreboard_ordered s :
  frozen s = true → everyTeam cacheShaped s → everyTeam coherent s →
  ∃ out s', scroll s = Ok (out, s') ∧ frozen s' = false ∧
            ranking s' ≡ₚ teamNames (teams s') ∧ ordered s'.
Proof.
  intros Hfr Hshape Hcoh.
  destruct (scroll_ordered s Hfr Hshape Hcoh) as (out & s' & H & Hfr' & P & O).
  by exists out, s'.
Qed.

Lemma scroll_leaves_scoreboard_ordered_witness :
  ∃ out s', scroll (stateAfter scrollTrace) = Ok (out, s') ∧ frozen s' = false ∧
            ranking s' ≡ₚ teamNames (teams s') ∧ ordered s'.
Proof.
  apply scroll_leaves_scoreboard_ordered.
  - vm_compute. reflexivity.
  - apply (bool_decide_unpack
             (map_Forall (λ _ t, cacheShaped t) (teams (stateAfter scrollTrace)))).
    vm_compute. reflexivity.
  - apply (bool_decide_unpack
             (map_Forall (λ _ t, coherent t) (teams (stateAfter scrollTrace)))).
    vm_compute. reflexivity.
Defined.

(** ** The memoised solve times *)

Lemma cacheStep_times (t : Team) l acc :
  (foldl cacheStep acc ((λ c, (c, problems t !!! c)) <$> l)).2 =
  acc.2 ++ ((λ c, solveTime (problems t !!! c))
              <$> filter (λ c, solved (problems t !!! c) = true) l).
Proof.
  revert acc. induction l as [|c l IH]; intros acc.
  - cbn. by rewrite app_nil_r.
  - cbn [fmap list_fmap foldl]. rewrite filter_cons, IH. clear IH.
    destruct acc as [[cs cp] ct]. unfold cacheStep. cbn [snd].
    destruct (solved (problems t !!! c)) eqn:Hs.
    + rewrite decide_True by done. cbn. by rewrite <- app_assoc.
    + by rewrite decide_False by done.
Qed.

Lemma freshMetrics_times t : (freshMetrics t).2 = sortDescending (solveTimesOf t).
Proof.
  rewrite freshMetrics_fold.
  pose proof (cacheStep_times t charsInOrder (0, 0, [])) as H.
  destruct (foldl _ _ _) as [[cs cp] ct]. cbn in *. by rewrite H.
Qed.

Lemma insertSorted_descending x l :
  StronglySorted Z.ge l → StronglySorted Z.ge (insertSorted (λ a b, b <? a) x l).
Proof.
  induction 1 as [|y l Hl IH Hy]; cbn [insertSorted].
  - repeat constructor.
  - destruct (Z.ltb_spec x y).
    + constructor; [done|]. rewrite (insertSorted_Permutation _ x l).
      constructor; [lia|done].
    + constructor; [by constructor|]. constructor; [lia|].
      eapply Forall_impl; [exact Hy|]. intros z. cbn. lia.
Qed.

Lemma sortDescending_sorted l : StronglySorted Z.ge (sortDescending l).
Proof.
  unfold sortDescending. induction l as [|x l IH]; cbn [isort]; [constructor|].
  by apply insertSorted_descending.
Qed.

Lemma getSolvedCount_metrics t : (getSolvedCount t).1 = (metricsOf t).1.1.
Proof. reflexivity. Qed.

Lemma getPenaltyTime_metrics t : (getPenaltyTime t).1 = (metricsOf t).1.2.
Proof. reflexivity. Qed.

Lemma getSolveTimes_metrics t : (getSolveTimes t).1 = (metricsOf t).2.
Proof. reflexivity. Qed.

Lemma getSolveTimes_after t : (getSolveTimes t).2 = updateCache t.
Proof. reflexivity. Qed.

Lemma getSolveTimes_again t : getSolveTimes (getSolveTimes t).2 = getSolveTimes t.
Proof. unfold getSolveTimes. cbn [snd]. by rewrite updateCache_idemp. Qed.

Lemma freshMetrics_eq t : metricsOf (invalidateCache t) = freshMetrics t.
Proof. reflexivity. Qed.

(** X10.  After [invalidateCache], the getters recompute from the problem
    statuses: [getSolveTimes] returns the solve times of the solved
    problems in non-increasing order, [getSolvedCount] their number and
    [getPenaltyTime] the sum of solve time plus 20 per wrong attempt over
    them as an [int]: the sum reduced modulo 2^32, which is the sum itself
    when it fits an [int].  The call leaves a valid cache and the same
    problem statuses, so that the next call returns the same vector
    without recomputing. *)
Theorem getters_recompute_after_invalidate t :
  (getSolveTimes (invalidateCache t)).1 ≡ₚ solveTimesOf t ∧
  StronglySorted Z.ge (getSolveTimes (invalidateCache t)).1 ∧
  (getSolvedCount (invalidateCache t)).1 = solvedCountOf t ∧
  (getPenaltyTime (invalidateCache t)).1 = wrapInt (penaltyOf t) ∧
  (fitsInt (penaltyOf t) → (getPenaltyTime (invalidateCache t)).1 = penaltyOf t) ∧
  cacheValid (getSolveTimes (invalidateCache t)).2 = true ∧
  problems (getSolveTimes (invalidateCache t)).2 = problems t ∧
  getSolveTimes (getSolveTimes (invalidateCache t)).2 = getSolveTimes (invalidateCache t).
Proof.
  destruct (freshMetrics_spec t) as [Hc Hp]. split_and!.
  - rewrite getSolveTimes_metrics, freshMetrics_eq, freshMetrics_times.
    unfold sortDescending. apply isort_Permutation.
  - rewrite getSolveTimes_metrics, freshMetrics_eq, freshMetrics_times.
    apply sortDescending_sorted.
  - rewrite getSolvedCount_metrics, freshMetrics_eq. exact Hc.
  - rewrite getPenaltyTime_metrics, freshMetrics_eq. exact Hp.
  - intros Hfit. rewrite getPenaltyTime_metrics, freshMetrics_eq, Hp. by apply wrapInt_small.
  - rewrite getSolveTimes_after. apply updateCache_valid.
  - rewrite getSolveTimes_after, updateCache_problems. reflexivity.
  - apply getSolveTimes_again.
Qed.

(** X11.  In a run in which no submission precedes the START that takes
    effect, what the ranking reads from a team is never stale: the number
    of its solved problems, the [int] value of the sum over them of solve
    time plus 20 per wrong attempt (the sum reduced modulo 2^32, hence the
    sum itself when it fits an [int]), and their solve times in
    non-increasing order. *)
Theorem run_reads_fresh_metrics cmds out s n t :
  submitsFollowStart cmds = true →
  run cmds initialSystem = Ok (out, s) →
  teams s !! n = Some t →
  (getSolvedCount t).1 = solvedCountOf t ∧
  (getPenaltyTime t).1 = wrapInt (penaltyOf t) ∧
  (fitsInt (penaltyOf t) → (getPenaltyTime t).1 = penaltyOf t) ∧
  (getSolveTimes t).1 = sortDescending (solveTimesOf t).
Proof.
  intros Hok Hrun Hn.
  assert (everyTeam coherent s) as H.
  { eapply (run_coherent_pristine cmds initialSystem); [| | |exact Hok|exact Hrun]; try done;
      apply map_Forall_empty. }
  specialize (H n t Hn). destruct (coherent_reads_exact t H) as [-> ->].
  split_and!; [done|done|apply wrapInt_small|].
  rewrite <- freshMetrics_times, <- H. done.
Qed.

Lemma run_reads_fresh_metrics_witness :
  (getSolvedCount plainTeam).1 = solvedCountOf plainTeam ∧
  (getPenaltyTime plainTeam).1 = wrapInt (penaltyOf plainTeam) ∧
  (fitsInt (penaltyOf plainTeam) → (getPenaltyTime plainTeam).1 = penaltyOf plainTeam) ∧
  (getSolveTimes plainTeam).1 = sortDescending (solveTimesOf plainTeam).
Proof.
  apply (run_reads_fresh_metrics plainTrace (outputAfter plainTrace) (stateAfter plainTrace) "ann").
  - vm_compute. reflexivity.
  - vm_compute. reflexivity.
  - vm_compute. reflexivity.
Defined.

Example plainTeam_metrics :
  metricsOf plainTeam = (2, 130, [70; 40]).
Proof. vm_compute. reflexivity. Qed.

(** Two problems solved at minute 2000000000 each: the sum is 4000000000
    and the penalty read is that sum less 2^32. *)
Example lateTeam_penalty :
  penaltyOf lateTeam = 4000000000 ∧ (getPenaltyTime lateTeam).1 = -294967296.
Proof. split; vm_compute; reflexivity. Qed.

(** ** START *)

Lemma resetProblems_name count t : name (resetProblems count t) = name t.
Proof.
  unfold resetProblems. generalize (indices count). intros l. revert t.
  induction l as [|j l IH]; intros t; [done|]. cbn [foldl]. by rewrite IH.
Qed.

(** X12.  A START that takes effect value-initialises, in every team,
    exactly the statuses of the contest letters (['A' + i] for
    [0 <= i < count]), whatever was recorded under them; every other
    status, the caches, the scoreboard and the freeze flag are left as
    they are.  In particular a non-positive problem count resets
    nothing. *)
Theorem startCompetition_resets_contest_letters s duration count :
  started s = false →
  ∃ s', startCompetition duration count s = Ok (["[Info]Competition starts."], s') ∧
    started s' = true ∧ durationTime s' = duration ∧ problemCount s' = count ∧
    frozen s' = frozen s ∧ ranking s' = ranking s ∧
    (∀ n, teams s !! n = None → teams s' !! n = None) ∧
    (∀ n t, teams s !! n = Some t →
       ∃ t', teams s' !! n = Some t' ∧ name t' = name t ∧
         cacheValid t' = cacheValid t ∧ cachedSolved t' = cachedSolved t ∧
         cachedPenalty t' = cachedPenalty t ∧ cachedTimes t' = cachedTimes t ∧
         ∀ c, problems t' !!! c =
              if bool_decide (c ∈ problemLetter <$> indices count)
              then newProblemStatus else problems t !!! c) ∧
    (count ≤ 0 → ∀ n t, teams s !! n = Some t → teams s' !! n = Some t).
Proof.
  intros Hst. eexists. split.
  { unfold startCompetition. rewrite bind_get, Hst, bind_modify. done. }
  cbn. split_and!; try done.
  - intros n Hn. by rewrite lookup_fmap, Hn.
  - intros n t Hn. exists (resetProblems count t). rewrite lookup_fmap, Hn.
    destruct (resetProblems_cache count t) as (? & ? & ? & ?).
    split_and!; try done.
    + apply resetProblems_name.
    + apply resetProblems_views.
  - intros Hc n t Hn. rewrite lookup_fmap, Hn. cbn. f_equal.
    unfold resetProblems, indices. by rewrite Z2Nat.nonpos.
Qed.

Lemma startCompetition_resets_contest_letters_witness :
  ∃ s', startCompetition 300 2 (stateAfter [ADDTEAM "ann"; SUBMIT "A" "ann" "Accepted" 5])
        = Ok (["[Info]Competition starts."], s') ∧
    started s' = true ∧ durationTime s' = 300 ∧ problemCount s' = 2 ∧
    frozen s' = frozen (stateAfter [ADDTEAM "ann"; SUBMIT "A" "ann" "Accepted" 5]) ∧
    ranking s' = ranking (stateAfter [ADDTEAM "ann"; SUBMIT "A" "ann" "Accepted" 5]) ∧
    (∀ n, teams (stateAfter [ADDTEAM "ann"; SUBMIT "A" "ann" "Accepted" 5]) !! n = None →
          teams s' !! n = None) ∧
    (∀ n t, teams (stateAfter [ADDTEAM "ann"; SUBMIT "A" "ann" "Accepted" 5]) !! n = Some t →
       ∃ t', teams s' !! n = Some t' ∧ name t' = name t ∧
         cacheValid t' = cacheValid t ∧ cachedSolved t' = cachedSolved t ∧
         cachedPenalty t' = cachedPenalty t ∧ cachedTimes t' = cachedTimes t ∧
         ∀ c, problems t' !!! c =
              if bool_decide (c ∈ problemLetter <$> indices 2)
              then newProblemStatus else problems t !!! c) ∧
    (2 ≤ 0 → ∀ n t,
       teams (stateAfter [ADDTEAM "ann"; SUBMIT "A" "ann" "Accepted" 5]) !! n = Some t →
       teams s' !! n = Some t).
Proof.
  apply startCompetition_resets_contest_letters. vm_compute. reflexivity.
Defined.

(** ** Submissions and the scoreboard *)

Lemma metricsOf_kept t t' :
  cacheValid t' = cacheValid t → cachedSolved t' = cachedSolved t →
  cachedPenalty t' = cachedPenalty t → cachedTimes t' = cachedTimes t →
  (∀ c, scored (problems t' !!! c) = scored (problems t !!! c)) →
  metricsOf t' = metricsOf t.
Proof.
  intros Hv Hs Hp Ht Hsc. destruct (cacheValid t) eqn:Hvt.
  - unfold metricsOf. rewrite !updateCache_of_valid by congruence. congruence.
  - rewrite !metricsOf_invalid by congruence. by apply freshMetrics_scored.
Qed.

Lemma recordOn_frozen_scored sub ps : scored (recordOn true sub ps) = scored ps.
Proof. unfold recordOn, scored. destruct (solved ps) eqn:Hs; cbn; by rewrite ?Hs. Qed.

Lemma recordSubmission_frozen_metrics sub t :
  metricsOf (recordSubmission true sub t).2 = metricsOf t.
Proof.
  apply metricsOf_kept.
  1-4: unfold recordSubmission; cbn [andb]; by destruct (negb _).
  intros c. rewrite recordSubmission_view. case_decide; [|done].
  apply recordOn_frozen_scored.
Qed.

(** X13.  While the scoreboard is frozen, a submission prints nothing
    and changes nothing the ranking reads: the scoreboard sequence, the
    solved count, penalty and solve times the getters return for every
    team, and hence every answer of the comparator, are the same after it
    as before. *)
Theorem submit_while_frozen_keeps_ranking s problemName teamName statusName at_ out s' :
  frozen s = true →
  submit problemName teamName statusName at_ s = Ok (out, s') →
  out = [] ∧ ranking s' = ranking s ∧ frozen s' = true ∧
  (∀ k, metricsOf <$> teams s' !! k = metricsOf <$> teams s !! k) ∧
  (∀ a b, before s' a b ↔ before s a b).
Proof.
  intros Hfr (team & Ht & -> & ->)%submit_Ok. rewrite Hfr.
  split; [done|]. split; [done|]. split; [done|].
  assert (∀ k, metricsOf <$> teams (setTeams s (<[teamName :=
              (recordSubmission true (mkSubmission problemName statusName at_) team).2]>
              (teams s))) !! k = metricsOf <$> teams s !! k) as Hm.
  { intros k. cbn. destruct (decide (teamName = k)) as [->|Hne].
    - rewrite lookup_insert_eq, Ht. cbn. f_equal. apply recordSubmission_frozen_metrics.
    - by rewrite lookup_insert_ne. }
  split; [done|]. intros a b. split; apply before_metrics; [|done].
  intros k. by rewrite Hm.
Qed.

Lemma submit_while_frozen_keeps_ranking_witness :
  ([] : list string) = [] ∧
  ranking (stateAfter (scrollTrace ++ [SUBMIT "C" "ann" "Accepted" 250])) =
    ranking (stateAfter scrollTrace) ∧
  frozen (stateAfter (scrollTrace ++ [SUBMIT "C" "ann" "Accepted" 250])) = true ∧
  (∀ k, metricsOf <$> teams (stateAfter (scrollTrace ++ [SUBMIT "C" "ann" "Accepted" 250])) !! k
        = metricsOf <$> teams (stateAfter scrollTrace) !! k) ∧
  (∀ a b, before (stateAfter (scrollTrace ++ [SUBMIT "C" "ann" "Accepted" 250])) a b ↔
          before (stateAfter scrollTrace) a b).
Proof.
  apply (submit_while_frozen_keeps_ranking (stateAfter scrollTrace) "C" "ann" "Accepted" 250).
  - vm_compute. reflexivity.
  - vm_compute. reflexivity.
Defined.

(** X14.  Only ADDTEAM, FLUSH and SCROLL write the scoreboard: START,
    SUBMIT, FREEZE, the two queries, END and lines that are no command
    leave the scoreboard sequence as it is; and the queries, END and such
    lines leave the whole state as it is. *)
Theorem scoreboard_written_only_by_add_flush_scroll c s out s' :
  writesScoreboard c = false →
  execute c s = Ok (out, s') →
  ranking s' = ranking s ∧
  (isStart c = false → isSubmit c = false → c ≠ FREEZE → s' = s).
Proof.
  intros Hc. destruct c; try done; cbn [execute].
  - intros [[_ ->]|[_ ->]]%startCompetition_Ok; done.
  - intros (team & Ht & _ & ->)%submit_Ok. done.
  - intros [->| ->]%freeze_Ok; done.
  - by intros ->%queryRanking_state.
  - by intros ->%querySubmissionCommand_state.
  - by intros [= <- <-].
  - by intros [= <- <-].
Qed.

Lemma scoreboard_written_only_by_add_flush_scroll_witness :
  ranking (stateAfter (scrollTrace ++ [SUBMIT "C" "ann" "Accepted" 250])) =
    ranking (stateAfter scrollTrace) ∧
  (isStart (SUBMIT "C" "ann" "Accepted" 250) = false →
   isSubmit (SUBMIT "C" "ann" "Accepted" 250) = false →
   SUBMIT "C" "ann" "Accepted" 250 ≠ FREEZE →
   stateAfter (scrollTrace ++ [SUBMIT "C" "ann" "Accepted" 250]) = stateAfter scrollTrace).
Proof.
  apply (scoreboard_written_only_by_add_flush_scroll (SUBMIT "C" "ann" "Accepted" 250)
           (stateAfter scrollTrace) []).
  - reflexivity.
  - vm_compute. reflexivity.
Defined.

(** ** The command loop *)

Lemma run_unfold c rest :
  c ≠ END →
  run (c :: rest) = bind (execute c) (λ out, bind (run rest) (λ more, ret (out ++ more))).
Proof. by destruct c. Qed.

Lemma run_app cmds1 cmds2 s out1 s1 :
  END ∉ cmds1 → run cmds1 s = Ok (out1, s1) →
  run (cmds1 ++ cmds2) s =
  match run cmds2 s1 with
  | Ok (out2, s2) => Ok (out1 ++ out2, s2)
  | Undefined f => Undefined f
  end.
Proof.
  revert s out1. induction cmds1 as [|c cmds1 IH]; intros s out1 Hend.
  - intros [= <- <-]. cbn. by destruct (run cmds2 s) as [[??]|].
  - apply not_elem_of_cons in Hend as [Hc Hend].
    rewrite <- app_comm_cons, !run_unfold by done.
    intros (o1 & s0 & H1 & (o2 & s2 & H2 & [= <- <-])%bind_Ok)%bind_Ok.
    rewrite (bind_eq _ _ _ _ _ H1); cbv beta. unfold bind at 1. rewrite (IH _ _ Hend H2).
    destruct (run cmds2 s2) as [[out2 s3]|]; [|done]. cbn. by rewrite app_assoc.
Qed.

(** X15.  The loop of [main] runs the commands in sequence, each on the
    state the previous one left, and concatenates what they print; it
    stops at the first END, prints the closing line, and runs nothing
    that follows it. *)
Theorem run_sequences_and_stops_at_END cmds1 s out1 s1 :
  END ∉ cmds1 → run cmds1 s = Ok (out1, s1) →
  (∀ cmds2, run (cmds1 ++ cmds2) s =
            match run cmds2 s1 with
            | Ok (out2, s2) => Ok (out1 ++ out2, s2)
            | Undefined f => Undefined f
            end) ∧
  (∀ cmds2, run (cmds1 ++ END :: cmds2) s = Ok (out1 ++ ["[Info]Competition ends."], s1)).
Proof.
  intros Hend Hrun. split.
  - intros cmds2. by apply run_app.
  - intros cmds2. by rewrite (run_app _ _ _ _ _ Hend Hrun).
Qed.

Lemma run_sequences_and_stops_at_END_witness :
  (∀ cmds2, run ([ADDTEAM "ann"; START 300 1] ++ cmds2) initialSystem =
            match run cmds2 (stateAfter [ADDTEAM "ann"; START 300 1]) with
            | Ok (out2, s2) => Ok (outputAfter [ADDTEAM "ann"; START 300 1] ++ out2, s2)
            | Undefined f => Undefined f
            end) ∧
  (∀ cmds2, run ([ADDTEAM "ann"; START 300 1] ++ END :: cmds2) initialSystem =
            Ok (outputAfter [ADDTEAM "ann"; START 300 1] ++ ["[Info]Competition ends."],
                stateAfter [ADDTEAM "ann"; START 300 1])).
Proof.
  apply run_sequences_and_stops_at_END.
  - apply (bool_decide_unpack _). vm_compute. reflexivity.
  - vm_compute. reflexivity.
Defined.

(** ** Rejected commands *)

(** X16.  A command whose first output line reports a failure
    ([[Error]...]) printed nothing else and left the whole state exactly
    as it was: teams, flags, problem count and scoreboard. *)
Theorem rejected_command_changes_nothing c s line rest s' :
  execute c s = Ok (line :: rest, s') → isError line = true → s' = s ∧ rest = [].
Proof.
  destruct c; cbn [execute].
  - unfold addTeam. rewrite bind_get. destruct (started s); [by intros [= <- <- <-]|].
    destruct (teams s !! teamName); [by intros [= <- <- <-]|].
    rewrite !bind_modify. by intros [= <- <- <-].
  - unfold startCompetition. rewrite bind_get. destruct (started s); [by intros [= <- <- <-]|].
    rewrite bind_modify. by intros [= <- <- <-].
  - by intros (team & Ht & ? & ->)%submit_Ok.
  - unfold flush. by intros ([] & s1 & H1 & [= <- <- <-])%bind_Ok.
  - unfold freeze. rewrite bind_get. destruct (frozen s); [by intros [= <- <- <-]|].
    rewrite bind_modify. by intros [= <- <- <-].
  - unfold scroll. rewrite bind_get. destruct (frozen s); cbn [negb]; [|by intros [= <- <- <-]].
    intros ([] & s1 & H1 & (out1 & s2 & H2 & Hrest)%bind_Ok)%bind_Ok.
    revert Hrest. rewrite bind_get. intros ([lines|] & s3 & Hloop & Hrest)%bind_Ok; [|done].
    revert Hrest. rewrite bind_modify. by intros (after & s4 & H4 & [= <- <- <-])%bind_Ok.
  - unfold queryRanking. rewrite bind_get. destruct (teams s !! teamName);
      by intros [= <- <- <-].
  - intros (pf & sf & _ & H)%querySubmissionCommand_Ok. revert H.
    unfold querySubmission. rewrite bind_get. destruct (teams s !! teamName).
    + destruct (findLastMatch pf sf t);
        intros [= <- <- <-] Herr; vm_compute in Herr; discriminate.
    + by intros [= <- <- <-].
  - by intros [= <- <- <-].
  - by intros [= <-].
Qed.

Lemma rejected_command_changes_nothing_witness :
  stateAfter scrollTrace = stateAfter scrollTrace ∧ ([] : list string) = [].
Proof.
  apply (rejected_command_changes_nothing FREEZE (stateAfter scrollTrace)
           "[Error]Freeze failed: scoreboard has been frozen." [] (stateAfter scrollTrace)).
  - vm_compute. reflexivity.
  - vm_compute. reflexivity.
Defined.

(** X17.  There are two ways a command can go wrong: a SUBMIT that
    names a team nobody registered (a null pointer is followed), and a
    QUERY_SUBMISSION whose [rest] is shorter than seven characters
    ([substr] throws and nothing catches it).  In every state, a command
    returns (prints its lines and leaves a state) exactly when it is
    neither.  No other command follows a null pointer, indexes the
    scoreboard out of range, throws, or loops for ever. *)
Theorem command_returns_unless_null_team_or_short_query c s :
  (∃ out s', execute c s = Ok (out, s')) ↔
  (∀ p n st a, c = SUBMIT p n st a → is_Some (teams s !! n)) ∧
  (∀ n rest, c = QUERY_SUBMISSION n rest → (7 ≤ String.length rest)%nat).
Proof.
  split.
  - intros (out & s' & H). split.
    + intros p n st a ->. cbn [execute] in H.
      apply submit_Ok in H as (team & Ht & _). eauto.
    + intros n rest ->. cbn [execute] in H.
      apply querySubmissionCommand_Ok in H as (pf & sf & Hf & _).
      destruct (decide (String.length rest < 7)%nat) as [Hl|]; [|lia].
      apply extractFilters_None in Hl. congruence.
  - intros [Hc Hq]. destruct c; cbn [execute].
    + unfold addTeam. rewrite bind_get. destruct (started s); [by eexists _, _|].
      destruct (teams s !! teamName); [by eexists _, _|].
      rewrite !bind_modify. by eexists _, _.
    + unfold startCompetition. rewrite bind_get. destruct (started s); [by eexists _, _|].
      rewrite bind_modify. by eexists _, _.
    + destruct (Hc _ _ _ _ eq_refl) as [team Ht]. eexists _, _.
      apply submit_Ok. exists team. eauto.
    + destruct (flushScoreboard_total s) as (s1 & H1 & _). unfold flush.
      rewrite (bind_eq _ _ _ _ _ H1). by eexists _, _.
    + unfold freeze. rewrite bind_get. destruct (frozen s); [by eexists _, _|].
      rewrite bind_modify. by eexists _, _.
    + apply scroll_total.
    + unfold queryRanking. rewrite bind_get. destruct (teams s !! teamName); by eexists _, _.
    + unfold querySubmissionCommand.
      destruct (extractFilters rest) as [[pf sf]|] eqn:Hf.
      * unfold querySubmission. rewrite bind_get. destruct (teams s !! teamName);
          by eexists _, _.
      * apply extractFilters_None in Hf. specialize (Hq _ _ eq_refl). lia.
    + by eexists _, _.
    + by eexists _, _.
Qed.

(** A line that stops the program: the word after the team name is the
    last one. *)
Example short_query_throws s :
  execute (QUERY_SUBMISSION "ann" "") s = Undefined Uncaught ∧
  run [QUERY_SUBMISSION "ann" ""; FLUSH] s = Undefined Uncaught.
Proof. split; reflexivity. Qed.

(** ** What [scroll] resolves and what it leaves alone *)

Lemma scroll_drained s out s' :
  frozenSound s → frozen s = true → scroll s = Ok (out, s') →
  ∀ n t c, teams s' !! n = Some t → selectable (problemCount s') c →
    ¬ 0 < frozenSubmissions (problems t !!! c).
Proof.
  intros Hs Hfr. unfold scroll. rewrite bind_get, Hfr. cbn [negb].
  destruct (flushScoreboard_total s) as (s1 & H1 & E1 & P1 & Hreg1).
  rewrite (bind_eq _ _ _ _ _ H1); cbv beta.
  destruct (printScoreboard_total s1 Hreg1) as (out1 & s2 & H2 & E2 & R2).
  rewrite (bind_eq _ _ _ _ _ H2); cbv beta. rewrite bind_get.
  assert (registered s2) as Hreg2 by (by apply (storeEquiv_registered s1)).
  assert (complete s2) as Hc2.
  { intros n Hn. rewrite R2, P1. apply elem_of_teamNames.
    by apply (storeEquiv_is_Some _ _ _ E1), (storeEquiv_is_Some _ _ _ E2). }
  assert (frozenSound s2) as Hs2.
  { by apply (frozenSound_storeEquiv s1), (frozenSound_storeEquiv s). }
  intros ([lines|] & s3 & Hloop & Hrest)%bind_Ok; [|done].
  destruct (scrollLoop_drains _ _ _ _ Hreg2 Hc2 Hs2 Hloop) as (Hreg3 & Hs3 & Hd3 & Hc3).
  revert Hrest. rewrite bind_modify.
  intros (after & s4 & H4 & [= _ <-])%bind_Ok.
  destruct (printScoreboard_total (setFrozen s3 false) Hreg3) as (out4 & s4' & H4' & E4 & R4).
  rewrite H4 in H4'. injection H4' as [= <- <-].
  intros n t c Hn. rewrite (equiv_count _ _ E4). cbn.
  destruct (storeEquiv_lookup_inv _ _ _ _ E4 Hn) as (t0 & Ht0 & [_ V]). cbn in Ht0.
  rewrite <- V. apply (Hd3 n); [|done]. apply Hc3. by eexists.
Qed.

Lemma tallied_new c : tallied c newProblemStatus.
Proof. split; cbn; lia. Qed.

Lemma tallied_record b sub ps :
  tallied (firstChar (problem sub)) ps → tallied (firstChar (problem sub)) (recordOn b sub ps).
Proof.
  intros [H1 H2]. unfold recordOn, tallied.
  repeat case_match; cbn; rewrite ?length_app; cbn; lia.
Qed.

Lemma tallied_resolve c ps : tallied c ps → tallied c (resolveProblem ps).1.
Proof.
  intros [H1 H2]. unfold tallied, resolveProblem.
  pose proof (replay_wrongAttempts (frozenSubs ps) ps false) as H.
  destruct (foldl _ _ _) as [ps' ch]. cbn in *. lia.
Qed.

Lemma selectable_contest_letter count j :
  count ≤ 26 → 0 ≤ j < count → selectable count (problemLetter j).
Proof.
  intros Hc Hj. exists j. split; [done|]. split; [done|].
  rewrite charVal_problemLetter, charVal_Z by lia. lia.
Qed.

(** X18.  In a contest of at most 26 problems, SCROLL on a frozen
    scoreboard of a reachable state returns with the scoreboard unfrozen
    and nothing left to resolve: for every team and every contest problem
    the counter of frozen submissions is 0 and the list of them is
    empty. *)
Theorem scroll_resolves_every_contest_problem s :
  reachable s → frozen s = true → problemCount s ≤ 26 →
  ∃ out s', scroll s = Ok (out, s') ∧ frozen s' = false ∧
    ∀ n t j, teams s' !! n = Some t → 0 ≤ j < problemCount s →
      frozenSubmissions (problems t !!! problemLetter j) = 0 ∧
      frozenSubs (problems t !!! problemLetter j) = [].
Proof.
  intros Hreach Hfr Hcount.
  destruct (scroll_effect s Hfr) as (out & s' & Hscroll & _ & _ & Hfr' & _ & Hpc).
  exists out, s'. split; [done|]. split; [done|]. intros n t j Hn Hj.
  pose proof (reachable_everyStatus tallied tallied_new tallied_record tallied_resolve s Hreach)
    as Htal.
  assert (everyTeam (everyStatus tallied) s') as Htal'.
  { eapply (everyStatus_execute tallied tallied_new tallied_record tallied_resolve SCROLL);
      [exact Htal|exact Hscroll]. }
  destruct (Htal' n t Hn (problemLetter j)) as [Hlen _].
  pose proof (scroll_drained s out s' (reachable_frozenSound s Hreach) Hfr Hscroll n t
                (problemLetter j) Hn) as Hd.
  rewrite Hpc in Hd. specialize (Hd (selectable_contest_letter _ _ Hcount Hj)).
  assert (frozenSubmissions (problems t !!! problemLetter j) = 0) as H0 by lia.
  split; [done|]. rewrite H0 in Hlen. apply nil_length_inv. lia.
Qed.

Lemma scroll_resolves_every_contest_problem_witness :
  ∃ out s', scroll (stateAfter scrollTrace) = Ok (out, s') ∧ frozen s' = false ∧
    ∀ n t j, teams s' !! n = Some t → 0 ≤ j < problemCount (stateAfter scrollTrace) →
      frozenSubmissions (problems t !!! problemLetter j) = 0 ∧
      frozenSubs (problems t !!! problemLetter j) = [].
Proof.
  apply scroll_resolves_every_contest_problem.
  - exists scrollTrace, (outputAfter scrollTrace). vm_compute. reflexivity.
  - vm_compute. reflexivity.
  - apply (bool_decide_unpack _). vm_compute. reflexivity.
Defined.

Section ScrollRelation.
Variable count : Z.
Variable R : ascii → ProblemStatus → ProblemStatus → Prop.
Hypothesis R_refl : ∀ c ps, R c ps ps.
Hypothesis R_trans : ∀ c ps1 ps2 ps3, R c ps1 ps2 → R c ps2 ps3 → R c ps1 ps3.
Hypothesis R_resolve : ∀ c ps, selectable count c → R c ps (resolveProblem ps).1.

Lemma related_storeEquiv s s' : storeEquiv s s' → statusesRelated R s s'.
Proof.
  intros E n t Hn. destruct (storeEquiv_lookup _ _ _ _ E Hn) as (t' & Hn' & [_ V]).
  exists t'. split; [done|]. intros c. rewrite <- V. apply R_refl.
Qed.

Lemma related_trans s1 s2 s3 :
  statusesRelated R s1 s2 → statusesRelated R s2 s3 → statusesRelated R s1 s3.
Proof.
  intros H12 H23 n t Hn. destruct (H12 n t Hn) as (t2 & Hn2 & V2).
  destruct (H23 n t2 Hn2) as (t3 & Hn3 & V3). exists t3. split; [done|].
  intros c. exact (R_trans c _ _ _ (V2 c) (V3 c)).
Qed.

Lemma related_scrollStep s r s' :
  registered s → problemCount s = count → scrollStep s = Ok (r, s') →
  statusesRelated R s s'.
Proof.
  intros Hreg Hpc Hstep. destruct (selectTarget_total s Hreg) as (r0 & s1 & Hsel & Hr).
  destruct r0 as [[t p]|].
  - destruct Hr as (tm & Htm & Hf).
    destruct (selectTarget_selectable _ _ _ _ Hsel) as (_ & _ & Hp & _). rewrite Hpc in Hp.
    assert (resolvedAt t p s s') as [V _ _ _].
    { destruct (resolveProblem (problems tm !!! p)).2 eqn:Hch.
      - destruct (scrollStep_changed s s1 t p tm Hreg Hsel Htm Hch)
          as (out & s0 & tm' & above & passed & below & H0 & _ & Hres & _).
        rewrite Hstep in H0. by injection H0 as [= _ <-].
      - destruct (scrollStep_unchanged s s1 t p tm Hreg Hsel Htm Hch)
          as (s0 & H0 & _ & Hres & _).
        rewrite Hstep in H0. by injection H0 as [= _ <-]. }
    intros n a Hn. specialize (V n). rewrite Hn in V.
    inversion V as [? b Hv Ha Hb|]; subst. exists b. split; [done|].
    intros c. rewrite Hv. unfold resolveOne. case_decide as Hc; [|apply R_refl].
    destruct Hc as [_ ->]. by apply R_resolve.
  - pose proof (scrollStep_break _ _ Hsel) as H0. rewrite Hstep in H0.
    injection H0 as [= _ <-]. destruct (quiet_selectTarget _ _ _ Hsel) as [E _].
    by apply related_storeEquiv.
Qed.

Lemma related_scrollLoop fuel s r s' :
  registered s → problemCount s = count → scrollLoop fuel s = Ok (r, s') →
  statusesRelated R s s'.
Proof.
  revert s r. induction fuel as [|fuel IH]; intros s r Hreg Hpc.
  - intros [= <- <-]. intros n t Hn. exists t. split; [done|]. intros c. apply R_refl.
  - cbn [scrollLoop]. intros (pass & s1 & Hstep & Hrest)%bind_Ok.
    pose proof (related_scrollStep _ _ _ Hreg Hpc Hstep) as H1.
    destruct (scrollStep_cases _ _ _ Hreg Hstep) as (Hreg1 & _ & Hcase).
    destruct pass as [out|].
    + apply bind_Ok in Hrest as (rest & s2 & Hloop & [= <- <-]).
      apply (related_trans s s1 s2 H1). apply (IH s1 rest Hreg1); [|done].
      destruct Hcase as (t & p & [_ _ _ ?]). congruence.
    + by injection Hrest as [= <- <-].
Qed.

Lemma related_scroll s out s' :
  problemCount s = count → scroll s = Ok (out, s') → statusesRelated R s s'.
Proof.
  intros Hpc. destruct (frozen s) eqn:Hfr.
  2:{ rewrite (scroll_unfrozen s Hfr). intros [= <- <-].
      intros n t Hn. exists t. split; [done|]. intros c. apply R_refl. }
  unfold scroll. rewrite bind_get, Hfr. cbn [negb].
  destruct (flushScoreboard_total s) as (s1 & H1 & E1 & P1 & Hreg1).
  rewrite (bind_eq _ _ _ _ _ H1); cbv beta.
  destruct (printScoreboard_total s1 Hreg1) as (out1 & s2 & H2 & E2 & R2).
  rewrite (bind_eq _ _ _ _ _ H2); cbv beta. rewrite bind_get.
  assert (registered s2) as Hreg2 by (by apply (storeEquiv_registered s1)).
  intros ([lines|] & s3 & Hloop & Hrest)%bind_Ok; [|done].
  assert (registered s3) as Hreg3.
  { by destruct (scrollLoop_Permutation _ _ _ _ Hreg2 Hloop). }
  revert Hrest. rewrite bind_modify.
  intros (after & s4 & H4 & [= _ <-])%bind_Ok.
  destruct (printScoreboard_total (setFrozen s3 false) Hreg3) as (out4 & s4' & H4' & E4 & R4).
  rewrite H4 in H4'. injection H4' as [= <- <-].
  apply (related_trans s s1); [by apply related_storeEquiv|].
  apply (related_trans s1 s2); [by apply related_storeEquiv|].
  apply (related_trans s2 s3).
  { eapply related_scrollLoop; [done| |exact Hloop].
    rewrite (equiv_count _ _ E2), (equiv_count _ _ E1). done. }
  apply (related_trans s3 (setFrozen s3 false)); [|by apply related_storeEquiv].
  intros n t Hn. exists t. split; [done|]. intros c. apply R_refl.
Qed.

End ScrollRelation.

Lemma recorded_views t :
  recorded t = charsInOrder ≫= (λ c, submissions (problems t !!! c)).
Proof.
  unfold recorded, problemsInOrder. generalize charsInOrder. intros l.
  induction l as [|c l IH]; [done|]. cbn [omap list_omap mbind list_bind].
  rewrite lookup_total_alt. destruct (problems t !! c) as [ps|]; cbn; by rewrite IH.
Qed.

Lemma recorded_same t t' :
  (∀ c, submissions (problems t !!! c) = submissions (problems t' !!! c)) →
  recorded t = recorded t'.
Proof.
  intros H. rewrite !recorded_views. generalize charsInOrder. intros l.
  induction l as [|c l IH]; [done|]. cbn. by rewrite H, IH.
Qed.

(** X19.  SCROLL never alters a recorded submission, and never touches
    a problem status it cannot select: for every team, the [submissions]
    of every letter are the same after it as before, and the status under
    a letter that is not a contest letter up to ['Z'] is entirely the
    same, frozen submissions included.  Hence every submission query has
    the same answer after SCROLL as before it. *)
Theorem scroll_keeps_submissions_and_other_letters s out s' n t :
  scroll s = Ok (out, s') → teams s !! n = Some t →
  ∃ t', teams s' !! n = Some t' ∧
    (∀ c, submissions (problems t' !!! c) = submissions (problems t !!! c)) ∧
    (∀ c, ¬ selectable (problemCount s) c → problems t' !!! c = problems t !!! c) ∧
    (∀ pf sf lines s0, querySubmission n pf sf s = Ok (lines, s0) →
                       querySubmission n pf sf s' = Ok (lines, s')).
Proof.
  intros Hscroll Hn.
  destruct (related_scroll (problemCount s) (keptByScroll (problemCount s))) with s out s' n t
    as (t' & Hn' & V).
  - intros c ps. by split.
  - intros c ps1 ps2 ps3 [H1 H2] [H3 H4]. split; [congruence|].
    intros Hc. by rewrite (H4 Hc), (H2 Hc).
  - intros c ps Hc. split; [apply resolveProblem_submissions|done].
  - done.
  - done.
  - done.
  - exists t'. split; [done|]. split; [intros c; apply V|].
    split; [intros c; apply V|].
    intros pf sf lines s0. rewrite (querySubmission_found _ _ _ _ _ Hn).
    rewrite (querySubmission_found _ _ _ _ _ Hn'). intros [= <- <-].
    rewrite !findLastMatch_recorded, (recorded_same t' t); [done|].
    intros c. apply V.
Qed.

Lemma scroll_keeps_submissions_and_other_letters_witness :
  ∃ t', teams (stateAfter (strayTrace ++ [SCROLL])) !! "ann" = Some t' ∧
    (∀ c, submissions (problems t' !!! c) = submissions (problems strayTeam !!! c)) ∧
    (∀ c, ¬ selectable (problemCount (stateAfter strayTrace)) c →
          problems t' !!! c = problems strayTeam !!! c) ∧
    (∀ pf sf lines s0,
       querySubmission "ann" pf sf (stateAfter strayTrace) = Ok (lines, s0) →
       querySubmission "ann" pf sf (stateAfter (strayTrace ++ [SCROLL])) =
         Ok (lines, stateAfter (strayTrace ++ [SCROLL]))).
Proof.
  apply (scroll_keeps_submissions_and_other_letters (stateAfter strayTrace)
           (scrollOutput (stateAfter strayTrace))).
  - vm_compute. reflexivity.
  - vm_compute. reflexivity.
Defined.

Example stray_submission_stays_frozen :
  ∃ t', teams (stateAfter (strayTrace ++ [SCROLL])) !! "ann" = Some t' ∧
        frozen (stateAfter (strayTrace ++ [SCROLL])) = false ∧
        solved (problems t' !!! "A"%char) = true ∧
        solved (problems t' !!! "B"%char) = false ∧
        frozenSubmissions (problems t' !!! "B"%char) = 1.
Proof. eexists. split; [vm_compute; reflexivity|]. vm_compute. done. Qed.

(** ** What [printScoreboard] prints *)

Lemma printCells_cells n js s t :
  teams s !! n = Some t →
  ∃ s', printCells n js s =
          Ok (foldr (λ j rest, cellOf (frozen s) (problems t !!! problemLetter j) +:+ rest) "" js,
              s') ∧
        storeEquiv s s' ∧ ranking s' = ranking s.
Proof.
  revert s t. induction js as [|j js IH]; intros s t Hn.
  - by exists s.
  - cbn [printCells foldr]. rewrite bind_get.
    pose proof (onTeam_Some n (printCell (frozen s) j) s t Hn) as H1.
    destruct (storeEquiv_onTeam n (printCell (frozen s) j) s _ _
                (λ t, printCell_teamEquiv (frozen s) j t) H1) as [E1 R1].
    rewrite (bind_eq _ _ _ _ _ H1); cbv beta.
    set (s1 := setTeams s _) in *.
    destruct (IH s1 (printCell (frozen s) j t).2) as (s' & H2 & E2 & R2).
    { apply lookup_insert_eq. }
    rewrite (bind_eq _ _ _ _ _ H2); cbv beta.
    exists s'. split; [|split; [by etrans|congruence]].
    assert ((printCell (frozen s) j t).1 = cellOf (frozen s) (problems t !!! problemLetter j))
      as ->.
    { unfold printCell, cellOf. by rewrite (surjective_pairing (problemAt _ _)). }
    destruct (printCell_teamEquiv (frozen s) j t) as [_ V].
    assert (∀ l : list Z,
              foldr (λ j0 rest, cellOf (frozen s1)
                       (problems (printCell (frozen s) j t).2 !!! problemLetter j0) +:+ rest) "" l
              = foldr (λ j0 rest, cellOf (frozen s)
                       (problems t !!! problemLetter j0) +:+ rest) "" l) as ->; [|done].
    intros l. induction l as [|k l IHl]; [done|]. cbn [foldr]. by rewrite IHl, <- V.
Qed.

Lemma printRow_row n s t :
  teams s !! n = Some t →
  ∃ s', printRow n s = Ok ([rowOf s n t], s') ∧ storeEquiv s s' ∧ ranking s' = ranking s.
Proof.
  intros Hn. unfold printRow. rewrite bind_get.
  rewrite (bind_eq _ _ _ _ _ (onTeam_getSolvedCount _ _ _ Hn)); cbv beta.
  pose proof (storeEquiv_cacheTeam n s) as E1.
  assert (teams (cacheTeam n s) !! n = Some (updateCache t)) as Hn1.
  { by rewrite cacheTeam_lookup, decide_True, Hn. }
  rewrite (bind_eq _ _ _ _ _ (onTeam_getPenaltyTime _ _ _ Hn1)); cbv beta.
  pose proof (storeEquiv_cacheTeam n (cacheTeam n s)) as E2.
  assert (teams (cacheTeam n (cacheTeam n s)) !! n = Some (updateCache (updateCache t))) as Hn2.
  { by rewrite cacheTeam_lookup, decide_True, Hn1. }
  destruct (printCells_cells n (indices (problemCount s)) _ _ Hn2) as (s3 & H3 & E3 & R3).
  rewrite (bind_eq _ _ _ _ _ H3); cbv beta.
  exists s3. split; [|split; [by repeat (etrans; [eassumption|])|done]].
  unfold ret, rowOf, rankOf, cellsOf, metricsOf. cbn [fst snd].
  rewrite !updateCache_idemp, !updateCache_problems. done.
Qed.

Lemma forEach_printRow_rows s0 l s :
  storeEquiv s0 s → ranking s = ranking s0 →
  (∀ n, n ∈ l → is_Some (teams s0 !! n)) →
  ∃ s', forEach printRow l s = Ok (omap (λ n, rowOf s0 n <$> teams s0 !! n) l, s') ∧
        storeEquiv s0 s' ∧ ranking s' = ranking s0.
Proof.
  revert s. induction l as [|n l IH]; intros s E R Hl.
  - by exists s.
  - cbn [forEach omap list_omap]. destruct (Hl n) as [t0 Ht0]; [by left|].
    destruct (storeEquiv_lookup _ _ _ _ E Ht0) as (t & Ht & [Hm V]).
    destruct (printRow_row n s t Ht) as (s1 & H1 & E1 & R1).
    rewrite (bind_eq _ _ _ _ _ H1); cbv beta.
    destruct (IH s1) as (s' & H2 & E2 & R2).
    { by etrans. }
    { congruence. }
    { intros k Hk. apply Hl. by right. }
    rewrite (bind_eq _ _ _ _ _ H2); cbv beta.
    exists s'. split; [|done]. rewrite Ht0. cbn [fmap option_fmap option_map app].
    assert (rowOf s n t = rowOf s0 n t0) as ->; [|done].
    unfold rowOf, rankOf, cellsOf. rewrite R, Hm.
    rewrite (equiv_frozen _ _ E), (equiv_count _ _ E). do 7 f_equal.
    generalize (indices (problemCount s0)). intros js.
    induction js as [|k js IHl]; [done|]. cbn [foldr]. by rewrite IHl, V.
Qed.

Lemma indexOf_NoDup (l : list string) i n :
  NoDup l → l !! i = Some n → indexOf n l = Some i.
Proof.
  intros Hnd Hi. destruct (indexOf_elem n l) as [k Hk]; [by eapply list_elem_of_lookup_2|].
  destruct (indexOf_Some _ _ _ Hk) as [Hk' _]. by rewrite (NoDup_lookup _ _ _ _ Hnd Hi Hk').
Qed.

(** X20.  On a scoreboard of registered teams [printScoreboard] prints
    one row per entry, in scoreboard order: the name, its position, the
    solved count and penalty the comparator reads, and one cell per
    contest problem.  It changes nothing but caches and materialised
    entries.  When no name is listed twice the positions printed are
    1, 2, 3, ... down the scoreboard. *)
Theorem printScoreboard_prints_rows s :
  registered s →
  ∃ s', printScoreboard s = Ok (rowsOf s, s') ∧ storeEquiv s s' ∧ ranking s' = ranking s ∧
        length (rowsOf s) = length (ranking s) ∧
        (NoDup (ranking s) →
         ∀ i n, ranking s !! i = Some n → rankOf s n = Z.of_nat i + 1).
Proof.
  intros Hreg. unfold printScoreboard. rewrite bind_get.
  destruct (forEach_printRow_rows s (ranking s) s) as (s' & H & E & R); [done|done|done|].
  exists s'. split; [done|]. split; [done|]. split; [done|]. split.
  - unfold rowsOf.
    assert (∀ l, (∀ n, n ∈ l → is_Some (teams s !! n)) →
                 length (omap (λ n, rowOf s n <$> teams s !! n) l) = length l) as Hlen.
    { intros l. induction l as [|n l IH]; intros Hl; [done|]. cbn.
      destruct (Hl n) as [t ->]; [by left|]. cbn. f_equal. apply IH.
      intros k Hk. apply Hl. by right. }
    by apply Hlen.
  - intros Hnd i n Hi. unfold rankOf. by rewrite (indexOf_NoDup _ _ _ Hnd Hi).
Qed.

Lemma printScoreboard_prints_rows_witness :
  ∃ s', printScoreboard (stateAfter tiedTeamsTrace) = Ok (rowsOf (stateAfter tiedTeamsTrace), s') ∧
        storeEquiv (stateAfter tiedTeamsTrace) s' ∧
        ranking s' = ranking (stateAfter tiedTeamsTrace) ∧
        length (rowsOf (stateAfter tiedTeamsTrace)) = length (ranking (stateAfter tiedTeamsTrace)) ∧
        (NoDup (ranking (stateAfter tiedTeamsTrace)) →
         ∀ i n, ranking (stateAfter tiedTeamsTrace) !! i = Some n →
                rankOf (stateAfter tiedTeamsTrace) n = Z.of_nat i + 1).
Proof.
  apply printScoreboard_prints_rows.
  apply (bool_decide_unpack (registered (stateAfter tiedTeamsTrace))). vm_compute. reflexivity.
Defined.

Example tiedTeams_rows :
  rowsOf (stateAfter tiedTeamsTrace) =
  ["bob 1 2 60 + + ."; "cyd 2 2 60 + . +"; "ann 3 2 60 + + ."].
Proof. vm_compute. reflexivity. Qed.

(** ** One scoreboard per state *)

Lemma before_asym s a b : before s a b → ¬ before s b a.
Proof.
  intros (ta & tb & Ha & Hb & Hab)%before_iff (tb' & ta' & Hb' & Ha' & Hba)%before_iff.
  simplify_eq. apply ranksBefore_asym in Hab. congruence.
Qed.

Lemma ordered_unique s l1 l2 :
  StronglySorted (before s) l1 → StronglySorted (before s) l2 → l1 ≡ₚ l2 → l1 = l2.
Proof.
  apply StronglySorted_unique_strong. intros a b _ _ Hab Hba.
  by destruct (before_asym s a b).
Qed.

(** X21.  The scoreboard FLUSH leaves does not depend on the sorting
    algorithm nor on the scoreboard it starts from: it is the only
    arrangement of the registered team names in which every team is
    ranked by the comparator before each team listed after it. *)
Theorem flush_result_is_the_sorted_scoreboard s out s' l :
  everyTeam cacheShaped s →
  flush s = Ok (out, s') →
  l ≡ₚ teamNames (teams s) → StronglySorted (before s) l →
  ranking s' = l.
Proof.
  intros Hshape Hflush Hperm Hsorted.
  destruct (flushScoreboard_sorted s Hshape) as (s0 & H0 & E & P & S).
  unfold flush in Hflush. rewrite (bind_eq _ _ _ _ _ H0) in Hflush.
  injection Hflush as [= _ <-].
  apply (ordered_unique s); [|done|by rewrite P, Hperm].
  eapply StronglySorted_impl; [|exact S]. intros a b. by apply (storeEquiv_before s).
Qed.

Lemma flush_result_is_the_sorted_scoreboard_witness :
  ranking (stateAfter (tiedTeamsTrace ++ [FLUSH])) = ["bob"; "cyd"; "ann"].
Proof.
  apply (flush_result_is_the_sorted_scoreboard (stateAfter tiedTeamsTrace)
           ["[Info]Flush scoreboard."]).
  - apply (bool_decide_unpack
             (map_Forall (λ _ t, cacheShaped t) (teams (stateAfter tiedTeamsTrace)))).
    vm_compute. reflexivity.
  - vm_compute. reflexivity.
  - apply (bool_decide_unpack _). vm_compute. reflexivity.
  - apply (bool_decide_unpack _). vm_compute. reflexivity.
Defined.

(** ** Frozen submissions between scrolls *)

(** X22.  In every reachable state, frozen submissions on a contest
    letter up to ['Z'] are pending: the problem is unsolved and the
    scoreboard is frozen.  So while the scoreboard is not frozen, and for
    a solved problem at any time, the counter of frozen submissions is 0
    and the list of them is empty. *)
Theorem reachable_frozen_submissions_are_pending s n t c :
  reachable s → teams s !! n = Some t → selectable (problemCount s) c →
  (0 < frozenSubmissions (problems t !!! c) →
   solved (problems t !!! c) = false ∧ frozen s = true) ∧
  (frozen s = false ∨ solved (problems t !!! c) = true →
   frozenSubmissions (problems t !!! c) = 0 ∧ frozenSubs (problems t !!! c) = []).
Proof.
  intros Hreach Hn Hc. pose proof (reachable_frozenSound s Hreach n t c Hn Hc) as Hs.
  split; [done|]. intros Hor.
  destruct (reachable_everyStatus tallied tallied_new tallied_record tallied_resolve
              s Hreach n t Hn c) as [Hlen _].
  assert (frozenSubmissions (problems t !!! c) = 0) as H0.
  { destruct (decide (0 < frozenSubmissions (problems t !!! c))) as [Hpos|]; [|lia].
    destruct (Hs Hpos) as [H1 H2]. destruct Hor; congruence. }
  split; [done|]. rewrite H0 in Hlen. apply nil_length_inv. lia.
Qed.

Lemma reachable_frozen_submissions_are_pending_witness :
  (0 < frozenSubmissions (problems scrollTraceTarget !!! "B"%char) →
   solved (problems scrollTraceTarget !!! "B"%char) = false ∧
   frozen (stateAfter scrollTrace) = true) ∧
  (frozen (stateAfter scrollTrace) = false ∨
   solved (problems scrollTraceTarget !!! "B"%char) = true →
   frozenSubmissions (problems scrollTraceTarget !!! "B"%char) = 0 ∧
   frozenSubs (problems scrollTraceTarget !!! "B"%char) = []).
Proof.
  apply (reachable_frozen_submissions_are_pending (stateAfter scrollTrace) "bob").
  - exists scrollTrace, (outputAfter scrollTrace). vm_compute. reflexivity.
  - vm_compute. reflexivity.
  - exists 1. vm_compute. repeat split; discriminate.
Defined.

(** ** How a submission scores *)

Lemma filter_add_one {A} `{!EqDecision A} (P Q : A → Prop)
    `{!∀ x, Decision (P x)} `{!∀ x, Decision (Q x)} (l : list A) (p : A) :
  NoDup l → p ∈ l → P p → ¬ Q p → (∀ c, c ≠ p → (P c ↔ Q c)) →
  filter P l ≡ₚ p :: filter Q l.
Proof.
  intros Hnd Hin HP HQ Hother. induction l as [|x l IH]; [by apply elem_of_nil in Hin|].
  apply NoDup_cons in Hnd as [Hx Hnd]. rewrite !filter_cons.
  destruct (decide (x = p)) as [->|Hne].
  - rewrite decide_True, decide_False by done. f_equiv.
    rewrite (filter_ext_in P Q l); [done|]. intros c Hc. apply Hother.
    intros ->. done.
  - apply elem_of_cons in Hin as [->|Hin]; [done|]. specialize (IH Hnd Hin).
    destruct (decide (P x)) as [HPx|HPx].
    + rewrite decide_True by (by apply Hother). rewrite IH. apply Permutation_swap.
    + rewrite decide_False; [done|]. intros HQx. apply HPx. by apply Hother.
Qed.

Lemma sum_Permutation (l1 l2 : list Z) : l1 ≡ₚ l2 → foldr Z.add 0 l1 = foldr Z.add 0 l2.
Proof. induction 1; cbn; lia. Qed.

Lemma solvedLetters_solved t t' p :
  solved (problems t !!! p) = false → solved (problems t' !!! p) = true →
  (∀ c, c ≠ p → problems t' !!! c = problems t !!! c) →
  solvedLetters t' ≡ₚ p :: solvedLetters t ∧ p ∉ solvedLetters t.
Proof.
  intros Hp Hp' Hother. split.
  - unfold solvedLetters. apply filter_add_one.
    + apply NoDup_charsInOrder.
    + apply elem_of_charsInOrder.
    + done.
    + by rewrite Hp.
    + intros c Hc. by rewrite (Hother c Hc).
  - unfold solvedLetters. rewrite list_elem_of_filter. intros [H _]. congruence.
Qed.

Lemma solvedLetters_same t t' :
  (∀ c, scored (problems t' !!! c) = scored (problems t !!! c)) →
  solvedLetters t' = solvedLetters t ∧ solveTimesOf t' = solveTimesOf t ∧
  penaltyOf t' = penaltyOf t.
Proof.
  intros H.
  assert (∀ c, solved (problems t' !!! c) = solved (problems t !!! c)) as Hs.
  { intros c. specialize (H c). unfold scored in H.
    destruct (solved (problems t' !!! c)), (solved (problems t !!! c)); done. }
  assert (solvedLetters t' = solvedLetters t) as Hl.
  { unfold solvedLetters. apply filter_ext_in. intros c _. by rewrite Hs. }
  split; [done|]. unfold solveTimesOf, penaltyOf. rewrite Hl.
  assert (∀ c, c ∈ solvedLetters t →
               solveTime (problems t' !!! c) = solveTime (problems t !!! c) ∧
               wrongAttempts (problems t' !!! c) = wrongAttempts (problems t !!! c)) as Hv.
  { intros c [Hc _]%list_elem_of_filter. specialize (H c). unfold scored in H.
    rewrite Hs, Hc in H. by injection H as -> ->. }
  split.
  - apply list_fmap_ext. intros i c Hc. apply Hv. by eapply list_elem_of_lookup_2.
  - f_equal. apply list_fmap_ext. intros i c Hc.
    destruct (Hv c) as [-> ->]; [by eapply list_elem_of_lookup_2|done].
Qed.

Lemma invalid_getters t :
  cacheValid t = false →
  (getSolvedCount t).1 = solvedCountOf t ∧ (getPenaltyTime t).1 = wrapInt (penaltyOf t) ∧
  (getSolveTimes t).1 = sortDescending (solveTimesOf t).
Proof.
  intros Hv. rewrite getSolvedCount_metrics, getPenaltyTime_metrics, getSolveTimes_metrics.
  rewrite (metricsOf_invalid _ Hv), freshMetrics_times.
  destruct (freshMetrics_spec t) as [-> ->]. done.
Qed.

(** X23.  A submission to an unsolved problem while the scoreboard is
    not frozen invalidates the cache of the team, so that the getters
    recompute.  If it is accepted the solved count goes up by one, the
    penalty sum by the submission time plus 20 per wrong attempt recorded
    on the problem so far, and the time joins the solve times.  If it is
    rejected the solved count, the penalty sum and the solve times stay as
    they were and the problem has one more wrong attempt.  In both cases
    the penalty the getter returns is the [int] value of the sum: the sum
    reduced modulo 2^32, which is the sum itself when it fits an [int]. *)
Theorem unfrozen_submission_scores s p n st a t :
  frozen s = false → teams s !! n = Some t →
  solved (problems t !!! firstChar p) = false →
  ∃ t', submit p n st a s = Ok ([], setTeams s (<[n := t']> (teams s))) ∧
    cacheValid t' = false ∧
    (getPenaltyTime t').1 = wrapInt (penaltyOf t') ∧
    (fitsInt (penaltyOf t') → (getPenaltyTime t').1 = penaltyOf t') ∧
    if String.eqb st "Accepted" then
      (getSolvedCount t').1 = solvedCountOf t + 1 ∧
      penaltyOf t' = penaltyOf t + (a + 20 * wrongAttempts (problems t !!! firstChar p)) ∧
      (getSolveTimes t').1 ≡ₚ a :: solveTimesOf t
    else
      (getSolvedCount t').1 = solvedCountOf t ∧
      penaltyOf t' = penaltyOf t ∧
      (getSolveTimes t').1 ≡ₚ solveTimesOf t ∧
      wrongAttempts (problems t' !!! firstChar p) =
        wrongAttempts (problems t !!! firstChar p) + 1.
Proof.
  intros Hfr Hn Hs.
  exists (recordSubmission false (mkSubmission p st a) t).2. split.
  { apply submit_Ok. exists t. by rewrite Hfr. }
  set (t' := (recordSubmission false (mkSubmission p st a) t).2).
  assert (cacheValid t' = false) as Hv.
  { unfold t', recordSubmission. cbn [problem andb status]. rewrite Hs. cbn [negb].
    by destruct (String.eqb st "Accepted"). }
  split; [done|]. destruct (invalid_getters t' Hv) as (-> & -> & ->).
  split; [done|]. split; [apply wrapInt_small|].
  assert (∀ c, problems t' !!! c =
               if decide (firstChar p = c)
               then recordOn false (mkSubmission p st a) (problems t !!! c)
               else problems t !!! c) as Hview.
  { intros c. unfold t'. by rewrite recordSubmission_view. }
  assert (problems t' !!! firstChar p =
          recordOn false (mkSubmission p st a) (problems t !!! firstChar p)) as Hp.
  { by rewrite Hview, decide_True. }
  unfold recordOn in Hp. cbn [andb status time] in Hp. rewrite Hs in Hp. cbn [negb] in Hp.
  destruct (String.eqb st "Accepted") eqn:Hacc.
  - destruct (solvedLetters_solved t t' (firstChar p)) as [Hperm Hnot]; [done|by rewrite Hp| |].
    { intros c Hc. by rewrite Hview, decide_False. }
    assert (solveTimesOf t' ≡ₚ a :: solveTimesOf t) as Htimes.
    { unfold solveTimesOf. rewrite Hperm. cbn [fmap list_fmap]. rewrite Hp. cbn [solveTime].
      f_equiv.
      rewrite (list_fmap_ext (λ c, solveTime (problems t' !!! c))
                 (λ c, solveTime (problems t !!! c)) (solvedLetters t)); [done|].
      intros i c Hc.
      rewrite Hview, decide_False; [done|]. intros <-. apply Hnot.
      by eapply list_elem_of_lookup_2. }
    split; [|split].
    + unfold solvedCountOf. rewrite Hperm. cbn [length]. lia.
    + unfold penaltyOf. rewrite (sum_Permutation _ _ (fmap_Permutation _ _ _ Hperm)).
      cbn [fmap list_fmap foldr]. rewrite Hp. cbn [solveTime wrongAttempts].
      assert (((λ c, solveTime (problems t' !!! c) + 20 * wrongAttempts (problems t' !!! c))
                 <$> solvedLetters t) =
              ((λ c, solveTime (problems t !!! c) + 20 * wrongAttempts (problems t !!! c))
                 <$> solvedLetters t)) as ->; [|lia].
      apply list_fmap_ext. intros i c Hc.
      rewrite Hview, decide_False; [done|]. intros <-. apply Hnot.
      by eapply list_elem_of_lookup_2.
    + unfold sortDescending. by rewrite (isort_Permutation _ (solveTimesOf t')).
  - destruct (solvedLetters_same t t') as (Hl & Ht & Hpen).
    { intros c. destruct (decide (firstChar p = c)) as [<-|Hc];
        [|by rewrite Hview, decide_False].
      rewrite Hp. unfold scored. cbn. by rewrite Hs. }
    split; [unfold solvedCountOf; by rewrite Hl|]. split; [done|].
    split; [unfold sortDescending; by rewrite (isort_Permutation _ (solveTimesOf t')), Ht|].
    by rewrite Hp.
Qed.

Lemma unfrozen_submission_scores_witness :
  ∃ t', submit "C" "ann" "Accepted" 90 (stateAfter plainTrace) =
          Ok ([], setTeams (stateAfter plainTrace)
                    (<["ann" := t']> (teams (stateAfter plainTrace)))) ∧
    cacheValid t' = false ∧
    (getPenaltyTime t').1 = wrapInt (penaltyOf t') ∧
    (fitsInt (penaltyOf t') → (getPenaltyTime t').1 = penaltyOf t') ∧
    if String.eqb "Accepted" "Accepted" then
      (getSolvedCount t').1 = solvedCountOf plainTeam + 1 ∧
      penaltyOf t' =
        penaltyOf plainTeam + (90 + 20 * wrongAttempts (problems plainTeam !!! firstChar "C")) ∧
      (getSolveTimes t').1 ≡ₚ 90 :: solveTimesOf plainTeam
    else
      (getSolvedCount t').1 = solvedCountOf plainTeam ∧
      penaltyOf t' = penaltyOf plainTeam ∧
      (getSolveTimes t').1 ≡ₚ solveTimesOf plainTeam ∧
      wrongAttempts (problems t' !!! firstChar "C") =
        wrongAttempts (problems plainTeam !!! firstChar "C") + 1.
Proof.
  apply (unfrozen_submission_scores (stateAfter plainTrace) "C" "ann" "Accepted" 90 plainTeam).
  - vm_compute. reflexivity.
  - vm_compute. reflexivity.
  - vm_compute. reflexivity.
Defined.

(** ** What [scroll] prints *)

Lemma rowOf_teamEquiv s s' n t t' :
  storeEquiv s s' → ranking s' = ranking s → teamEquiv t t' → rowOf s' n t' = rowOf s n t.
Proof.
  intros E R [Hm V]. unfold rowOf, rankOf, cellsOf.
  rewrite R, Hm, (equiv_frozen _ _ E), (equiv_count _ _ E). do 7 f_equal.
  generalize (indices (problemCount s)). intros js.
  induction js as [|k js IH]; [done|]. cbn [foldr]. by rewrite IH, V.
Qed.

Lemma rowsOf_storeEquiv s s' :
  storeEquiv s s' → ranking s' = ranking s → rowsOf s' = rowsOf s.
Proof.
  intros E R. unfold rowsOf. rewrite R. generalize (ranking s). intros l.
  induction l as [|n l IH]; [done|]. cbn [omap list_omap]. rewrite IH.
  destruct (equiv_teams _ _ E n) as [t t' Ht|]; [|done]. cbn.
  by rewrite (rowOf_teamEquiv s s' n t t' E R Ht).
Qed.

Lemma printScoreboard_rows s :
  registered s →
  ∃ s', printScoreboard s = Ok (rowsOf s, s') ∧ storeEquiv s s' ∧ ranking s' = ranking s.
Proof.
  intros Hreg. unfold printScoreboard. rewrite bind_get.
  by apply (forEach_printRow_rows s (ranking s) s).
Qed.

Lemma rowsOf_length s : registered s → length (rowsOf s) = length (ranking s).
Proof.
  unfold rowsOf, registered. generalize (ranking s). intros l.
  induction l as [|n l IH]; intros Hl; [done|]. cbn.
  destruct (Hl n) as [t ->]; [by left|]. cbn. f_equal. apply IH.
  intros k Hk. apply Hl. by right.
Qed.

(** A pass that resolves a problem prints at most one line. *)
Lemma scrollStep_line s out s' :
  registered s → scrollStep s = Ok (Some out, s') →
  (length out ≤ 1)%nat ∧ frozenPairs s = S (frozenPairs s').
Proof.
  intros Hreg Hstep. destruct (selectTarget_total s Hreg) as (r0 & s1 & Hsel & Hr).
  destruct r0 as [[t p]|].
  - destruct Hr as (tm & Htm & Hf).
    destruct (resolveProblem (problems tm !!! p)).2 eqn:Hch.
    + destruct (scrollStep_changed s s1 t p tm Hreg Hsel Htm Hch)
        as (out0 & s0 & tm' & above & passed & below & H0 & _ & Hres & _ & _ & _ & _ & _ & _
            & _ & _ & _ & Hout).
      rewrite Hstep in H0. injection H0 as [= -> <-].
      split; [|by eapply frozenPairs_resolved]. rewrite Hout. destruct passed; cbn; lia.
    + destruct (scrollStep_unchanged s s1 t p tm Hreg Hsel Htm Hch)
        as (s0 & H0 & _ & Hres & _).
      rewrite Hstep in H0. injection H0 as [= -> <-].
      split; [cbn; lia|by eapply frozenPairs_resolved].
  - pose proof (scrollStep_break _ _ Hsel) as H0. rewrite Hstep in H0. done.
Qed.

Lemma scrollLoop_lines fuel s lines s' :
  registered s → scrollLoop fuel s = Ok (Some lines, s') →
  (length lines + frozenPairs s' ≤ frozenPairs s)%nat.
Proof.
  revert s lines. induction fuel as [|fuel IH]; intros s lines Hreg; [done|].
  cbn [scrollLoop]. intros ([out|] & s1 & Hstep & Hrest)%bind_Ok.
  - apply bind_Ok in Hrest as ([rest|] & s2 & Hloop & [= <- <-]).
    destruct (scrollStep_line _ _ _ Hreg Hstep) as [Hlen Hdec].
    destruct (scrollStep_cases _ _ _ Hreg Hstep) as (Hreg1 & _).
    specialize (IH _ _ Hreg1 Hloop). rewrite length_app. lia.
  - injection Hrest as [= <- <-].
    destruct (scrollStep_cases _ _ _ Hreg Hstep) as (_ & _ & E & _).
    rewrite (frozenPairs_storeEquiv _ _ E). cbn. lia.
Qed.

(** X24.  What SCROLL prints on a frozen scoreboard: the header line,
    the rows of the scoreboard as FLUSH orders it, then at most one
    rank-change line per pair of a team and a problem with frozen
    submissions, then the rows of the final scoreboard.  Each of the two
    scoreboards has one row per registered team. *)
Theorem scroll_output_shape s :
  frozen s = true →
  ∃ s1 lines s',
    flushScoreboard s = Ok (tt, s1) ∧
    scroll s = Ok ("[Info]Scroll scoreboard." :: rowsOf s1 ++ lines ++ rowsOf s', s') ∧
    (length lines ≤ frozenPairs s)%nat ∧
    length (rowsOf s1) = size (teams s) ∧ length (rowsOf s') = size (teams s).
Proof.
  intros Hfr. unfold scroll. rewrite bind_get, Hfr. cbn [negb].
  destruct (flushScoreboard_total s) as (s1 & H1 & E1 & P1 & Hreg1).
  rewrite (bind_eq _ _ _ _ _ H1); cbv beta.
  destruct (printScoreboard_rows s1 Hreg1) as (s2 & H2 & E2 & R2).
  rewrite (bind_eq _ _ _ _ _ H2); cbv beta. rewrite bind_get.
  assert (registered s2) as Hreg2 by (by apply (storeEquiv_registered s1)).
  destruct (scrollLoop_passes s2 Hreg2)
    as (passes & lines & s3 & Hsum & Hreg3 & _ & _ & _ & _ & Hdone & _).
  pose proof (Hdone (S (frozenPairs s2)) ltac:(lia)) as Hloop.
  rewrite (bind_eq _ _ _ _ _ Hloop); cbv beta iota. rewrite bind_modify.
  destruct (printScoreboard_rows (setFrozen s3 false) Hreg3) as (s4 & H4 & E4 & R4).
  rewrite (bind_eq _ _ _ _ _ H4); cbv beta.
  destruct (scrollLoop_Permutation _ _ _ _ Hreg2 Hloop) as (_ & R3 & D3).
  exists s1, lines, s4. split; [done|]. split.
  { unfold ret. do 2 f_equal. f_equal. f_equal. f_equal.
    symmetry. by apply rowsOf_storeEquiv. }
  split.
  { pose proof (scrollLoop_lines _ _ _ _ Hreg2 Hloop) as Hl.
    rewrite (frozenPairs_storeEquiv _ _ E2), (frozenPairs_storeEquiv _ _ E1) in Hl. lia. }
  split.
  - rewrite (rowsOf_length _ Hreg1), P1. apply teamNames_length.
  - rewrite (rowsOf_storeEquiv _ _ E4 R4), (rowsOf_length (setFrozen s3 false) Hreg3). cbn.
    rewrite R3, R2, P1. apply teamNames_length.
Qed.

Lemma scroll_output_shape_witness :
  ∃ s1 lines s',
    flushScoreboard (stateAfter scrollTrace) = Ok (tt, s1) ∧
    scroll (stateAfter scrollTrace) =
      Ok ("[Info]Scroll scoreboard." :: rowsOf s1 ++ lines ++ rowsOf s', s') ∧
    (length lines ≤ frozenPairs (stateAfter scrollTrace))%nat ∧
    length (rowsOf s1) = size (teams (stateAfter scrollTrace)) ∧
    length (rowsOf s') = size (teams (stateAfter scrollTrace)).
Proof. apply scroll_output_shape. vm_compute. reflexivity. Defined.

Example scrollTrace_output :
  scrollOutput (stateAfter scrollTrace) =
  ["[Info]Scroll scoreboard.";
   "ann 1 1 30 -1/1 + ."; "bob 2 1 60 + 0/2 0/1";
   "bob ann 2 310"; "ann bob 2 260";
   "ann 1 2 260 +1 + ."; "bob 2 2 310 + +1 -1"].
Proof. vm_compute. reflexivity. Qed.
